(** * Logic-tree engine of [openquake/hazardlib/lt.py]

    A shallow embedding of the logic-tree module: validation of planar
    geometries, branch-set filters, path enumeration, seeded sampling and
    the application of uncertainties to a source group.

    Conventions.
    - Python floats that only take part in comparisons, products and sums
      (weights, coordinates) are rationals [Q]; rounding is not modelled.
    - Exceptions are values of [Exn]; a computation returns [result A].
    - Objects with identity (sources, MFDs, lists, groups) live in an
      explicit store; an address is the identity of the object. *)

From Stdlib Require Import QArith Qabs ZArith Lia.
From stdpp Require Import base option list strings pretty.

Set Warnings "-register-all".

Local Open Scope string_scope.
Local Open Scope list_scope.

(** ** Exceptions *)

(** The state of a source as far as [lt.py] reads or writes it.  The source
    classes live in [openquake.hazardlib.source], outside this module. *)

(** Modelled from the spec: the source class hierarchy is not part of the
    module; the only relation the code relies on is the one its comment
    states, "area source extends point source". *)
Inductive SourceClass : Type :=
  | PointSource
  | AreaSource
  | SimpleFaultSource
  | ComplexFaultSource
  | CharacteristicFaultSource
  | OtherSource (name : string).

Definition isinstance (c target : SourceClass) : bool :=
  match target, c with
  | PointSource, (PointSource | AreaSource) => true
  | AreaSource, AreaSource => true
  | SimpleFaultSource, SimpleFaultSource => true
  | ComplexFaultSource, ComplexFaultSource => true
  | CharacteristicFaultSource, CharacteristicFaultSource => true
  | _, _ => false
  end.

(** Parsed uncertainty values: numbers, strings and sequences of values. *)
Inductive Value : Type :=
  | VNum (q : Q)
  | VStr (s : string)
  | VSeq (items : list Value).

(** One call [obj.modify(name, dict(...))]: the operation name and its
    keyword arguments.  [modify] itself belongs to the source and MFD
    classes, so an object records the calls it received, in order. *)
Definition Modification : Type := string * list (string * Value).

(** The identity of an object in the store. *)
Abbreviation addr := nat (only parsing).

Record Source : Type := mkSource {
  source_id : string;
  tectonic_region_type : string;
  src_class : SourceClass;
  code : string;
  scaling_rate : option Q;
  src_mods : list Modification;
  mfd : option addr
}.

Inductive Exn : Type :=
  | LogicTreeError (lineno : option Z) (filename message : string)
  | NotImplementedError (src : Source)
  | AssertionError (message : string)
  | KeyError (key : string)
  | IndexError
  | ValueError
  | TypeError
  | AttributeError (attr : string)
  | InvalidReference (a : addr).

Inductive result (A : Type) : Type :=
  | Ok (a : A)
  | Raise (e : Exn).
Arguments Ok {A} a.
Arguments Raise {A} e.

Definition rbind {A B} (r : result A) (k : A → result B) : result B :=
  match r with
  | Ok a => k a
  | Raise e => Raise e
  end.

(** [LogicTreeError.__str__] *)
Definition lineno_str (l : option Z) : string :=
  match l with
  | Some n => pretty n
  | None => "?"
  end.

Definition LogicTreeError_str (e : Exn) : option string :=
  match e with
  | LogicTreeError l f m =>
      Some ("filename '" +:+ f +:+ "', line " +:+ lineno_str l +:+ ": " +:+ m)
  | _ => None
  end.

(** ** [_validate_planar_fault_geometry] *)

Record Corner : Type := mkCorner { lon : Q; lat : Q; depth : Q }.

Record PlanarNode : Type := mkPlanarNode {
  node_lineno : option Z;
  spacing : Q;
  topLeft : Corner;
  topRight : Corner;
  bottomLeft : Corner;
  bottomRight : Corner
}.

(** Truth value of a Python float: everything but zero. *)
Definition truthy (q : Q) : bool := negb (Qeq_bool q 0).

Definition valid_corner (c : Corner) : bool :=
  let valid_lon := Qle_bool (-180) (lon c) && Qle_bool (lon c) 180 in
  let valid_lat := Qle_bool (-90) (lat c) && Qle_bool (lat c) 90 in
  let valid_depth := Qle_bool 0 (depth c) in
  valid_lon && valid_lat && valid_depth.

Definition planar_error (node : PlanarNode) (filename : string) : Exn :=
  LogicTreeError (node_lineno node) filename
    "'planarFaultGeometry' node is not valid".

Fixpoint validate_corners (node : PlanarNode) (filename : string)
    (valid_spacing : Q) (corners : list Corner) : result unit :=
  match corners with
  | [] => Ok tt
  | c :: rest =>
      let is_valid := valid_corner c in
      if negb is_valid || negb (truthy valid_spacing)
      then Raise (planar_error node filename)
      else validate_corners node filename valid_spacing rest
  end.

Definition _validate_planar_fault_geometry (utype : string)
    (node : PlanarNode) (filename : string) : result unit :=
  let valid_spacing := spacing node in
  validate_corners node filename valid_spacing
    [topLeft node; topRight node; bottomLeft node; bottomRight node].

(** ** Branches and branch sets *)

(** A filter value is a string (region type, source type) or a collection
    of source ids. *)
Inductive FilterValue : Type :=
  | FStr (s : string)
  | FIds (ids : list string).

Inductive Branch : Type :=
  mkBranch (bs_id branch_id : string) (weight : Q) (value : Value)
           (bset : option BranchSet)
with BranchSet : Type :=
  mkBranchSet (branches : list Branch) (uncertainty_type : string)
              (filters : list (string * FilterValue)) (collapsed : bool).

Definition br_bs_id (b : Branch) : string :=
  match b with mkBranch i _ _ _ _ => i end.
Definition br_branch_id (b : Branch) : string :=
  match b with mkBranch _ i _ _ _ => i end.
Definition br_weight (b : Branch) : Q :=
  match b with mkBranch _ _ w _ _ => w end.
Definition br_value (b : Branch) : Value :=
  match b with mkBranch _ _ _ v _ => v end.
Definition br_bset (b : Branch) : option BranchSet :=
  match b with mkBranch _ _ _ _ c => c end.

Definition bs_branches (bs : BranchSet) : list Branch :=
  match bs with mkBranchSet l _ _ _ => l end.
Definition bs_uncertainty_type (bs : BranchSet) : string :=
  match bs with mkBranchSet _ u _ _ => u end.
Definition bs_filters (bs : BranchSet) : list (string * FilterValue) :=
  match bs with mkBranchSet _ _ f _ => f end.
Definition bs_collapsed (bs : BranchSet) : bool :=
  match bs with mkBranchSet _ _ _ c => c end.

(** [b0 = copy.copy(branch); b0.weight = w] *)
Definition with_weight (b : Branch) (w : Q) : Branch :=
  match b with mkBranch i j _ v c => mkBranch i j w v c end.

(** [BranchSet.__getitem__] *)
Fixpoint find_branch (branches : list Branch) (branch_id : string)
    : result Branch :=
  match branches with
  | [] => Raise (KeyError branch_id)
  | branch :: rest =>
      if String.eqb (br_branch_id branch) branch_id then Ok branch
      else find_branch rest branch_id
  end.

Definition getitem (bs : BranchSet) (branch_id : string) : result Branch :=
  find_branch (bs_branches bs) branch_id.

(** ** [BranchSet.filter_source] *)

(** [x in value] for a list of ids, or substring search when the value
    is a plain string. *)
Definition py_in (x : string) (value : FilterValue) : bool :=
  match value with
  | FIds ids => bool_decide (x ∈ ids)
  | FStr s => match String.index 0 x s with Some _ => true | None => false end
  end.

Definition is_str (value : FilterValue) (s : string) : bool :=
  match value with
  | FStr v => String.eqb v s
  | FIds _ => false
  end.

Definition filter_value_str (value : FilterValue) : string :=
  match value with
  | FStr v => v
  | FIds ids => "[" +:+ String.concat ", " ids +:+ "]"
  end.

(** The source class tests; [isinstance(None, C)] is [False]. *)
Definition source_isinstance (source : option Source) (c : SourceClass)
    : bool :=
  match source with
  | Some s => isinstance (src_class s) c
  | None => false
  end.

(** One iteration of the loop over [self.filters.items()]:
    [Ok false] is [return False], [Ok true] lets the loop continue. *)
Definition check_filter (key : string) (value : FilterValue)
    (source : option Source) : result bool :=
  if String.eqb key "applyToTectonicRegionType" then
    match source with
    | None => Raise (AttributeError "tectonic_region_type")
    | Some s => Ok (is_str value (tectonic_region_type s))
    end
  else if String.eqb key "applyToSourceType" then
    if is_str value "area" then
      Ok (source_isinstance source AreaSource)
    else if is_str value "point" then
      Ok (negb (negb (source_isinstance source PointSource)
                || source_isinstance source AreaSource))
    else if is_str value "simpleFault" then
      Ok (source_isinstance source SimpleFaultSource)
    else if is_str value "complexFault" then
      Ok (source_isinstance source ComplexFaultSource)
    else if is_str value "characteristicFault" then
      Ok (source_isinstance source CharacteristicFaultSource)
    else
      Raise (AssertionError
               ("unknown source type '" +:+ filter_value_str value +:+ "'"))
  else if String.eqb key "applyToSources" then
    match source with
    | Some s => Ok (negb (negb (py_in (source_id s) value)))
    | None => Ok true
    end
  else
    Raise (AssertionError ("unknown filter '" +:+ key +:+ "'")).

Fixpoint filter_items (items : list (string * FilterValue))
    (source : option Source) : result bool :=
  match items with
  | [] => Ok true
  | (key, value) :: rest =>
      match check_filter key value source with
      | Raise e => Raise e
      | Ok false => Ok false
      | Ok true => filter_items rest source
      end
  end.

Definition filter_source (bs : BranchSet) (source : option Source)
    : result bool :=
  filter_items (bs_filters bs) source.

(** ** [BranchSet.get_bset_values] *)

Fixpoint get_bset_values_loop (pairs : list (BranchSet * Value))
    (bset : BranchSet) (ltpath : list string)
    : result (list (BranchSet * Value)) :=
  match ltpath with
  | [] => Ok pairs
  | brid :: ltpath' =>
      rbind (getitem bset brid) (fun br =>
      let pairs := pairs ++ [(bset, br_value br)] in
      rbind (getitem bset brid) (fun br' =>
      match br_bset br' with
      | None => Ok pairs
      | Some child => get_bset_values_loop pairs child ltpath'
      end))
  end.

Definition get_bset_values (bs : BranchSet) (ltpath : list string)
    : result (list (BranchSet * Value)) :=
  get_bset_values_loop [] bs ltpath.

(** ** [BranchSet.enumerate_paths] *)

(** The recursive two-item lists [[prefix_path, branch]]; [[]] is the
    empty prefix. *)
Inductive PathNode : Type :=
  | PRoot
  | PStep (prefix_path : PathNode) (branch : Branch).

(** The generator is modelled by the list of what it yields, or by the
    exception that interrupts it. *)
Fixpoint _enumerate_paths (bs : BranchSet) (prefix_path : PathNode)
    {struct bs} : result (list PathNode) :=
  match bs with
  | mkBranchSet brs _ _ is_collapsed =>
      if is_collapsed then
        match brs with
        | [] => Raise IndexError
        | mkBranch i j w v child :: _ =>
            let b0 := mkBranch i j 1 v child in
            let path := PStep prefix_path b0 in
            match child with
            | Some c => _enumerate_paths c path
            | None => Ok [path]
            end
        end
      else
        (fix each (l : list Branch) : result (list PathNode) :=
           match l with
           | [] => Ok []
           | branch :: rest =>
               let path := PStep prefix_path branch in
               rbind
                 match branch with
                 | mkBranch _ _ _ _ (Some c) => _enumerate_paths c path
                 | mkBranch _ _ _ _ None => Ok [path]
                 end
                 (fun yielded =>
                    rbind (each rest) (fun more => Ok (yielded ++ more)))
           end) brs
  end.

(** The [while path:] loop of [enumerate_paths]. *)
Fixpoint flatten_path (path : PathNode) (weight : Q)
    (flat_path : list Branch) : Q * list Branch :=
  match path with
  | PRoot => (weight, flat_path)
  | PStep path' branch =>
      flatten_path path' (weight * br_weight branch) (flat_path ++ [branch])
  end.

Definition yield_path (path : PathNode) : Q * list Branch :=
  let '(weight, flat_path) := flatten_path path 1 [] in
  (weight, rev flat_path).

Definition enumerate_paths (bs : BranchSet)
    : result (list (Q * list Branch)) :=
  rbind (_enumerate_paths bs PRoot) (fun paths => Ok (map yield_path paths)).

(** ** [sample] *)

(** A weight is a float or a mapping with a ['weight'] entry. *)
Inductive Weight : Type :=
  | WFloat (w : Q)
  | WDict (d : list (string * Q)).

Fixpoint dict_get (d : list (string * Q)) (key : string) : result Q :=
  match d with
  | [] => Raise (KeyError key)
  | (k, v) :: rest => if String.eqb k key then Ok v else dict_get rest key
  end.

Fixpoint collect_weights {A} (weight_of : A → Weight)
    (weighted_objects : list A) (weights : list Q) : result (list Q) :=
  match weighted_objects with
  | [] => Ok weights
  | obj :: rest =>
      match weight_of obj with
      | WFloat w => collect_weights weight_of rest (weights ++ [w])
      | WDict d =>
          rbind (dict_get d "weight") (fun w =>
          collect_weights weight_of rest (weights ++ [w]))
      end
  end.

(** The part of [numpy.random] the module calls.  [seed] installs a new
    global generator state; [choice a size p] reads and advances it. *)
Record NumpyRandom : Type := mkNumpyRandom {
  rng : Type;
  np_seed : Z → result rng;
  np_choice : nat → nat → list Q → rng → result (list nat) * rng
}.

Fixpoint pick {A} (weighted_objects : list A) (idxs : list nat)
    : result (list A) :=
  match idxs with
  | [] => Ok []
  | idx :: rest =>
      match weighted_objects !! idx with
      | None => Raise IndexError
      | Some obj =>
          rbind (pick weighted_objects rest) (fun objs => Ok (obj :: objs))
      end
  end.

(** [sample] threads the global generator state of [numpy.random]. *)
Definition sample {A} (np : NumpyRandom) (weight_of : A → Weight)
    (weighted_objects : list A) (num_samples : nat) (seed : Z)
    (g : rng np) : result (list A) * rng np :=
  match collect_weights weight_of weighted_objects [] with
  | Raise e => (Raise e, g)
  | Ok weights =>
      match np_seed np seed with
      | Raise e => (Raise e, g)
      | Ok g1 =>
          match np_choice np (length weights) num_samples weights g1 with
          | (Raise e, g2) => (Raise e, g2)
          | (Ok idxs, g2) => (pick weighted_objects idxs, g2)
          end
      end
  end.

(** ** The object store *)

Record Mfd : Type := mkMfd { mfd_mods : list Modification }.

(** A source group: its list of sources (the identity of a list object),
    the [changes] counter and the attributes the module never looks at. *)
Record SourceGroup : Type := mkSourceGroup {
  sg_attrs : list (string * Value);
  sg_sources : addr;
  sg_changes : Z
}.

(** One table per class of objects; the identity of an object is its
    index in the table of its class. *)
Record Store : Type := mkStore {
  st_sources : list Source;
  st_mfds : list Mfd;
  st_lists : list (list addr);
  st_groups : list SourceGroup
}.

(** Attribute assignments, as functions on the state of an object. *)
Definition with_mfd (s : Source) (m : option addr) : Source :=
  mkSource (source_id s) (tectonic_region_type s) (src_class s) (code s)
    (scaling_rate s) (src_mods s) m.

Definition with_scaling_rate (s : Source) (w : Q) : Source :=
  mkSource (source_id s) (tectonic_region_type s) (src_class s) (code s)
    (Some w) (src_mods s) (mfd s).

Definition add_mod (s : Source) (md : Modification) : Source :=
  mkSource (source_id s) (tectonic_region_type s) (src_class s) (code s)
    (scaling_rate s) (src_mods s ++ [md]) (mfd s).

Definition add_mfd_mod (m : Mfd) (md : Modification) : Mfd :=
  mkMfd (mfd_mods m ++ [md]).

Definition with_sources (g : SourceGroup) (l : addr) : SourceGroup :=
  mkSourceGroup (sg_attrs g) l (sg_changes g).

Definition with_changes (g : SourceGroup) (n : Z) : SourceGroup :=
  mkSourceGroup (sg_attrs g) (sg_sources g) n.

Definition M (A : Type) : Type := Store → result A * Store.

Definition ret {A} (a : A) : M A := fun σ => (Ok a, σ).
Definition raise {A} (e : Exn) : M A := fun σ => (Raise e, σ).
Definition bind {A B} (m : M A) (k : A → M B) : M B :=
  fun σ =>
    match m σ with
    | (Ok a, σ') => k a σ'
    | (Raise e, σ') => (Raise e, σ')
    end.
Definition lift {A} (r : result A) : M A := fun σ => (r, σ).

Notation "'do' x <- m ; k" := (bind m (fun x => k))
  (at level 10, x name, m at level 100, k at level 200,
   format "'[v' 'do'  x  <-  m ; '/' k ']'").
Notation "m ;; k" := (bind m (fun _ => k))
  (at level 100, k at level 200, right associativity).

Definition new_source (s : Source) : M addr := fun σ =>
  (Ok (length (st_sources σ)),
   mkStore (st_sources σ ++ [s]) (st_mfds σ) (st_lists σ) (st_groups σ)).
Definition get_source (a : addr) : M Source := fun σ =>
  match st_sources σ !! a with
  | Some s => (Ok s, σ)
  | None => (Raise (InvalidReference a), σ)
  end.
Definition set_source (a : addr) (s : Source) : M unit := fun σ =>
  (Ok tt,
   mkStore (<[a := s]> (st_sources σ)) (st_mfds σ) (st_lists σ) (st_groups σ)).

Definition new_mfd (m : Mfd) : M addr := fun σ =>
  (Ok (length (st_mfds σ)),
   mkStore (st_sources σ) (st_mfds σ ++ [m]) (st_lists σ) (st_groups σ)).
Definition get_mfd (a : addr) : M Mfd := fun σ =>
  match st_mfds σ !! a with
  | Some m => (Ok m, σ)
  | None => (Raise (InvalidReference a), σ)
  end.
Definition set_mfd (a : addr) (m : Mfd) : M unit := fun σ =>
  (Ok tt,
   mkStore (st_sources σ) (<[a := m]> (st_mfds σ)) (st_lists σ) (st_groups σ)).

Definition new_list (l : list addr) : M addr := fun σ =>
  (Ok (length (st_lists σ)),
   mkStore (st_sources σ) (st_mfds σ) (st_lists σ ++ [l]) (st_groups σ)).
Definition get_list (a : addr) : M (list addr) := fun σ =>
  match st_lists σ !! a with
  | Some l => (Ok l, σ)
  | None => (Raise (InvalidReference a), σ)
  end.
Definition set_list (a : addr) (l : list addr) : M unit := fun σ =>
  (Ok tt,
   mkStore (st_sources σ) (st_mfds σ) (<[a := l]> (st_lists σ)) (st_groups σ)).

Definition new_group (g : SourceGroup) : M addr := fun σ =>
  (Ok (length (st_groups σ)),
   mkStore (st_sources σ) (st_mfds σ) (st_lists σ) (st_groups σ ++ [g])).
Definition get_group (a : addr) : M SourceGroup := fun σ =>
  match st_groups σ !! a with
  | Some g => (Ok g, σ)
  | None => (Raise (InvalidReference a), σ)
  end.
Definition set_group (a : addr) (g : SourceGroup) : M unit := fun σ =>
  (Ok tt,
   mkStore (st_sources σ) (st_mfds σ) (st_lists σ) (<[a := g]> (st_groups σ))).

(** [copy.copy(source)]: a new object with the same attribute values, so
    the MFD is shared with the original. *)
Definition copy_source (a : addr) : M addr :=
  do s <- get_source a;
  new_source s.

(** [copy.deepcopy(source)]: the MFD is copied as well. *)
Definition deepcopy_source (a : addr) : M addr :=
  do s <- get_source a;
  do m' <- match mfd s with
           | None => ret None
           | Some m =>
               do mobj <- get_mfd m;
               do m' <- new_mfd mobj;
               ret (Some m')
           end;
  new_source (with_mfd s m').

(** [source.modify(name, params)] *)
Definition source_modify (a : addr) (name : string)
    (params : list (string * Value)) : M unit :=
  do s <- get_source a;
  set_source a (add_mod s (name, params)).

(** [source.mfd.modify(name, params)] *)
Definition mfd_modify (a : addr) (name : string)
    (params : list (string * Value)) : M unit :=
  do s <- get_source a;
  match mfd s with
  | None => raise (AttributeError "mfd")
  | Some m =>
      do mobj <- get_mfd m;
      set_mfd m (add_mfd_mod mobj (name, params))
  end.

(** [source.scaling_rate = w] *)
Definition set_scaling_rate (a : addr) (w : Q) : M unit :=
  do s <- get_source a;
  set_source a (with_scaling_rate s w).

(** ** [apply_uncertainty] *)

(** Tuple unpacking [a, b, ... = value]. *)
Definition unpack (value : Value) : result (list Value) :=
  match value with
  | VSeq items => Ok items
  | VStr s => Ok (map (fun c => VStr (String c "")) (String.list_ascii_of_string s))
  | VNum _ => Raise TypeError
  end.

Definition _simple_fault_dip_relative (utype : string) (source : addr)
    (value : Value) : M unit :=
  source_modify source "adjust_dip" [("increment", value)].

Definition _simple_fault_dip_absolute (bset : string) (source : addr)
    (value : Value) : M unit :=
  source_modify source "set_dip" [("dip", value)].

Definition _simple_fault_geom_absolute (utype : string) (source : addr)
    (value : Value) : M unit :=
  do items <- lift (unpack value);
  match items with
  | [trace; usd; lsd; dip; spacing] =>
      source_modify source "set_geometry"
        [("fault_trace", trace); ("upper_seismogenic_depth", usd);
         ("lower_seismogenic_depth", lsd); ("dip", dip);
         ("spacing", spacing)]
  | _ => raise ValueError
  end.

Definition _complex_fault_geom_absolute (utype : string) (source : addr)
    (value : Value) : M unit :=
  do items <- lift (unpack value);
  match items with
  | [edges; spacing] =>
      source_modify source "set_geometry"
        [("edges", edges); ("spacing", spacing)]
  | _ => raise ValueError
  end.

Definition _char_fault_geom_absolute (utype : string) (source : addr)
    (value : Value) : M unit :=
  source_modify source "set_geometry" [("surface", value)].

Definition _abGR_absolute (utype : string) (source : addr) (value : Value)
    : M unit :=
  do items <- lift (unpack value);
  match items with
  | [a; b] => mfd_modify source "set_ab" [("a_val", a); ("b_val", b)]
  | _ => raise ValueError
  end.

Definition _abGR_relative (utype : string) (source : addr) (value : Value)
    : M unit :=
  mfd_modify source "increment_b" [("value", value)].

Definition _maxmagGR_relative (utype : string) (source : addr)
    (value : Value) : M unit :=
  mfd_modify source "increment_max_mag" [("value", value)].

Definition _maxmagGR_absolute (utype : string) (source : addr)
    (value : Value) : M unit :=
  mfd_modify source "set_max_mag" [("value", value)].

Definition _incMFD_absolute (utype : string) (source : addr) (value : Value)
    : M unit :=
  do items <- lift (unpack value);
  match items with
  | [min_mag; bin_width; occur_rates] =>
      mfd_modify source "set_mfd"
        [("min_mag", min_mag); ("bin_width", bin_width);
         ("occurrence_rates", occur_rates)]
  | _ => raise ValueError
  end.

(** The functions registered with [@apply_uncertainty.add(...)]. *)
Definition registered : list (string * (string → addr → Value → M unit)) :=
  [("simpleFaultDipRelative", _simple_fault_dip_relative);
   ("simpleFaultDipAbsolute", _simple_fault_dip_absolute);
   ("simpleFaultGeometryAbsolute", _simple_fault_geom_absolute);
   ("complexFaultGeometryAbsolute", _complex_fault_geom_absolute);
   ("characteristicFaultGeometryAbsolute", _char_fault_geom_absolute);
   ("abGRAbsolute", _abGR_absolute);
   ("bGRRelative", _abGR_relative);
   ("maxMagGRRelative", _maxmagGR_relative);
   ("maxMagGRAbsolute", _maxmagGR_absolute);
   ("incrementalMFDAbsolute", _incMFD_absolute)].

Fixpoint registry_get {F} (table : list (string * F)) (key : string)
    : option F :=
  match table with
  | [] => None
  | (k, f) :: rest => if String.eqb k key then Some f else registry_get rest key
  end.

(** Modelled from the spec: [CallableDict] comes from
    [openquake.baselib.general]; calling the table dispatches on the
    uncertainty type, and a type that was never registered is an error
    (the [KeyError] of the dictionary, as no [keymissing] is given). *)
Definition apply_uncertainty (utype : string) (source : addr)
    (value : Value) : M unit :=
  match registry_get registered utype with
  | Some f => f utype source value
  | None => raise (KeyError utype)
  end.

(** ** [apply_uncertainties] *)

(** [oks = [bset.filter_source(source) for bset, value in bset_values]] *)
Fixpoint filter_all (bset_values : list (BranchSet * Value))
    (source : Source) : result (list bool) :=
  match bset_values with
  | [] => Ok []
  | (bset, _) :: rest =>
      rbind (filter_source bset (Some source)) (fun ok =>
      rbind (filter_all rest source) (fun oks => Ok (ok :: oks)))
  end.

(** [sum(oks)] *)
Definition sum_bools (oks : list bool) : nat :=
  foldr (fun (ok : bool) n => (if ok then 1 else 0) + n) 0 oks.

(** [sg.changes += n] *)
Definition add_changes (sg : addr) (n : Z) : M unit :=
  do g <- get_group sg;
  set_group sg (with_changes g (sg_changes g + n)).

(** [sg.sources.extend(srcs)] *)
Definition extend_sources (sg : addr) (srcs : list addr) : M unit :=
  do g <- get_group sg;
  do l <- get_list (sg_sources g);
  set_list (sg_sources g) (l ++ srcs).

(** [for br in bset.branches: ...] of the collapsed case *)
Fixpoint fan_out (utype : string) (src : addr) (branches : list Branch)
    (srcs : list addr) : M (list addr) :=
  match branches with
  | [] => ret srcs
  | br :: rest =>
      do newsrc <- deepcopy_source src;
      set_scaling_rate newsrc (br_weight br);;
      apply_uncertainty utype newsrc (br_value br);;
      fan_out utype src rest (srcs ++ [newsrc])
  end.

(** [for (bset, value), ok in zip(bset_values, oks): ...] *)
Fixpoint apply_pairs (sg src : addr)
    (zipped : list ((BranchSet * Value) * bool)) (srcs : list addr)
    : M (list addr) :=
  match zipped with
  | [] => ret srcs
  | ((bset, value), ok) :: rest =>
      if ok && bs_collapsed bset then
        do s <- get_source src;
        if String.eqb (code s) "N" then raise (NotImplementedError s)
        else
          do srcs <- fan_out (bs_uncertainty_type bset) src
                       (bs_branches bset) srcs;
          add_changes sg (Z.of_nat (length srcs));;
          apply_pairs sg src rest srcs
      else if ok then
        let srcs := match srcs with [] => [src] | _ => srcs end in
        apply_uncertainty (bs_uncertainty_type bset) src value;;
        add_changes sg 1;;
        apply_pairs sg src rest srcs
      else apply_pairs sg src rest srcs
  end.

(** The body of [for source in src_group: ...] *)
Definition apply_to_source (bset_values : list (BranchSet * Value))
    (sg source : addr) : M unit :=
  do s <- get_source source;
  do oks <- lift (filter_all bset_values s);
  do srcs <-
    (if negb (sum_bools oks =? 0)%nat then
       do src <- deepcopy_source source;
       apply_pairs sg src (zip bset_values oks) []
     else
       do c <- copy_source source;
       ret [c]);
  extend_sources sg srcs.

Fixpoint each_source (bset_values : list (BranchSet * Value)) (sg : addr)
    (sources : list addr) : M unit :=
  match sources with
  | [] => ret tt
  | source :: rest =>
      apply_to_source bset_values sg source;;
      each_source bset_values sg rest
  end.

Definition apply_uncertainties (bset_values : list (BranchSet * Value))
    (src_group : addr) : M addr :=
  do g <- get_group src_group;
  do sg <- new_group g;
  do l <- new_list [];
  set_group sg (with_sources g l);;
  set_group sg (with_changes (with_sources g l) 0);;
  do sources <- get_list (sg_sources g);
  each_source bset_values sg sources;;
  ret sg.

(** ** Vocabulary of the properties *)

(** The ranges a corner of a planar surface has to respect. *)
Definition in_range (c : Corner) : Prop :=
  (-180 <= lon c)%Q ∧ (lon c <= 180)%Q ∧
  (-90 <= lat c)%Q ∧ (lat c <= 90)%Q ∧ (0 <= depth c)%Q.

Definition corners (node : PlanarNode) : list Corner :=
  [topLeft node; topRight node; bottomLeft node; bottomRight node].

Definition origin : Corner := mkCorner 0 0 0.

(** A planar surface with four admissible corners and a negative spacing. *)
Definition neg_spacing_node : PlanarNode :=
  mkPlanarNode (Some 12%Z) (-1) origin origin origin origin.

Definition good_node : PlanarNode :=
  mkPlanarNode (Some 3%Z) 2.5
    (mkCorner (-107.1) 35.2 0) (mkCorner (-106.9) 35.2 0)
    (mkCorner (-107.1) 35.0 12) (mkCorner (-106.9) 35.0 12).

Definition zero_spacing_node : PlanarNode :=
  mkPlanarNode None 0 origin origin origin origin.

Definition deep_lat_node : PlanarNode :=
  mkPlanarNode (Some 8%Z) 1 origin origin (mkCorner 10 91 0) origin.

(** Sample sources and branch sets used in the examples. *)
Definition point_source (sid trt : string) : Source :=
  mkSource sid trt PointSource "P" None [] None.

Definition area_source (sid trt : string) : Source :=
  mkSource sid trt AreaSource "A" None [] None.

Definition only_sources_bset (ids : list string) : BranchSet :=
  mkBranchSet [] "maxMagGRRelative" [("applyToSources", FIds ids)] false.

Definition asc_point_filters : list (string * FilterValue) :=
  [("applyToTectonicRegionType", FStr "Active Shallow Crust");
   ("applyToSourceType", FStr "point")].

(** Every filter of the map accepts the source. *)
Definition all_filters_pass (bs : BranchSet) (source : option Source)
    : Prop :=
  Forall (λ kv, check_filter kv.1 kv.2 source = Ok true) (bs_filters bs).

(** The tree of the enumeration scenario: the root branch set has [b1]
    (weight 0.6) and [b2] (weight 0.4); the child branch set of [b1] has
    [c1] (weight 0.7) and [c2] (weight 0.3); [b2] is a leaf. *)
Definition c1 : Branch := mkBranch "bs2" "c1" 0.7 (VNum 0.2) None.
Definition c2 : Branch := mkBranch "bs2" "c2" 0.3 (VNum (-0.2)) None.
Definition child_bset : BranchSet :=
  mkBranchSet [c1; c2] "maxMagGRRelative" [] false.
Definition b1 : Branch :=
  mkBranch "bs1" "b1" 0.6 (VStr "model_1.xml") (Some child_bset).
Definition b2 : Branch := mkBranch "bs1" "b2" 0.4 (VStr "model_2.xml") None.
Definition root_bset : BranchSet :=
  mkBranchSet [b1; b2] "sourceModel" [] false.

(** The walk of [get_bset_values] in the words of its description: one id
    per level, one pair per id consumed, ending when the ids are exhausted
    or when the chosen branch has no child branch set. *)
Inductive walk : BranchSet → list string → list (BranchSet * Value) → Prop :=
  | walk_exhausted bs : walk bs [] []
  | walk_leaf bs brid rest br :
      getitem bs brid = Ok br →
      br_bset br = None →
      walk bs (brid :: rest) [(bs, br_value br)]
  | walk_child bs brid rest br child pairs :
      getitem bs brid = Ok br →
      br_bset br = Some child →
      walk child rest pairs →
      walk bs (brid :: rest) ((bs, br_value br) :: pairs).

Definition Qsum (l : list Q) : Q := foldr Qplus 0%Q l.
Definition Qprod (l : list Q) : Q := foldr Qmult 1%Q l.


(** The branches of a recursive path, root first. *)
Fixpoint path_branches (path : PathNode) : list Branch :=
  match path with
  | PRoot => []
  | PStep prefix branch => path_branches prefix ++ [branch]
  end.

(** A tree with a collapsed branch set at the root. *)
Definition collapsed_root : BranchSet :=
  mkBranchSet [b1; b2] "maxMagGRRelative" [] true.

(** The product of the weights along a recursive path. *)
Definition path_weight (path : PathNode) : Q :=
  Qprod (map br_weight (path_branches path)).

(** The two loops of [_enumerate_paths], named: what one branch yields,
    and what the branches of a non-collapsed branch set yield in turn. *)
Definition visit (prefix_path : PathNode) (branch : Branch)
    (child : option BranchSet) : result (list PathNode) :=
  match child with
  | Some c => _enumerate_paths c (PStep prefix_path branch)
  | None => Ok [PStep prefix_path branch]
  end.

Fixpoint each_branch (prefix_path : PathNode) (brs : list Branch)
    : result (list PathNode) :=
  match brs with
  | [] => Ok []
  | branch :: rest =>
      rbind (visit prefix_path branch (br_bset branch)) (fun yielded =>
      rbind (each_branch prefix_path rest) (fun more => Ok (yielded ++ more)))
  end.



(** What [sample] relies on from [numpy.random]: [choice a size p]
    returns [size] indices below [a], and it returns whenever [p] is a
    probability vector of length [a > 0]; [seed] accepts every 32-bit
    unsigned integer. *)
Definition probabilities (p : list Q) : Prop :=
  p ≠ [] ∧ Forall (λ w, (0 <= w)%Q) p ∧ (Qsum p == 1)%Q.

Record NumpyContract (np : NumpyRandom) : Prop := mkNumpyContract {
  choice_sized : ∀ a size p g idxs g',
    np_choice np a size p g = (Ok idxs, g') →
    length idxs = size ∧ Forall (λ i, (i < a)%nat) idxs;
  choice_total : ∀ size p g,
    probabilities p →
    ∃ idxs g', np_choice np (length p) size p g = (Ok idxs, g');
  seed_total : ∀ seed,
    (0 <= seed < 2 ^ 32)%Z → ∃ g, np_seed np seed = Ok g
}.

(** A small generator with that behaviour, for the examples: the state is
    a counter, and the draws walk round the indices. *)
Definition probabilities_b (p : list Q) : bool :=
  negb (length p =? 0)%nat && forallb (Qle_bool 0) p && Qeq_bool (Qsum p) 1.

Definition counter_rng : NumpyRandom :=
  mkNumpyRandom Z
    (fun seed =>
       if ((0 <=? seed) && (seed <? 2 ^ 32))%Z then Ok seed
       else Raise ValueError)
    (fun a size p g =>
       if probabilities_b p && (a =? length p)%nat then
         (Ok (map (fun i => Z.to_nat ((g + Z.of_nat i) mod Z.of_nat a))
                (seq 0 size)),
          (g + Z.of_nat size)%Z)
       else (Raise ValueError, g)).

(** ** Vocabulary for the store *)

(** What one registered function does: the object it modifies and the
    modification it passes on, or the exception of a value of the wrong
    shape. *)
Inductive Target : Type := OnSource | OnMfd.

Definition unpacked (value : Value) (n : nat)
    (k : list Value → Target * Modification)
    : result (Target * Modification) :=
  rbind (unpack value) (fun items =>
    if (length items =? n)%nat then Ok (k items) else Raise ValueError).

Definition item (items : list Value) (i : nat) : Value :=
  default (VSeq []) (items !! i).

Definition uncertainty_effect (utype : string) (value : Value)
    : result (Target * Modification) :=
  if String.eqb "simpleFaultDipRelative" utype then
    Ok (OnSource, ("adjust_dip", [("increment", value)]))
  else if String.eqb "simpleFaultDipAbsolute" utype then
    Ok (OnSource, ("set_dip", [("dip", value)]))
  else if String.eqb "simpleFaultGeometryAbsolute" utype then
    unpacked value 5 (fun l =>
      (OnSource,
       ("set_geometry",
        [("fault_trace", item l 0); ("upper_seismogenic_depth", item l 1);
         ("lower_seismogenic_depth", item l 2); ("dip", item l 3);
         ("spacing", item l 4)])))
  else if String.eqb "complexFaultGeometryAbsolute" utype then
    unpacked value 2 (fun l =>
      (OnSource,
       ("set_geometry", [("edges", item l 0); ("spacing", item l 1)])))
  else if String.eqb "characteristicFaultGeometryAbsolute" utype then
    Ok (OnSource, ("set_geometry", [("surface", value)]))
  else if String.eqb "abGRAbsolute" utype then
    unpacked value 2 (fun l =>
      (OnMfd, ("set_ab", [("a_val", item l 0); ("b_val", item l 1)])))
  else if String.eqb "bGRRelative" utype then
    Ok (OnMfd, ("increment_b", [("value", value)]))
  else if String.eqb "maxMagGRRelative" utype then
    Ok (OnMfd, ("increment_max_mag", [("value", value)]))
  else if String.eqb "maxMagGRAbsolute" utype then
    Ok (OnMfd, ("set_max_mag", [("value", value)]))
  else if String.eqb "incrementalMFDAbsolute" utype then
    unpacked value 3 (fun l =>
      (OnMfd,
       ("set_mfd",
        [("min_mag", item l 0); ("bin_width", item l 1);
         ("occurrence_rates", item l 2)])))
  else Raise (KeyError utype).

Definition modify (target : Target) (source : addr) (md : Modification)
    : M unit :=
  match target with
  | OnSource => source_modify source md.1 md.2
  | OnMfd => mfd_modify source md.1 md.2
  end.

(** The sources and MFDs of [σ0] are still there, unchanged, in [σ]. *)
Definition src_ext (σ0 σ : Store) : Prop :=
  st_sources σ0 `prefix_of` st_sources σ ∧ st_mfds σ0 `prefix_of` st_mfds σ.

(** The lists and groups of [σ0] are still there, unchanged, in [σ]. *)
Definition grp_ext (σ0 σ : Store) : Prop :=
  st_lists σ0 `prefix_of` st_lists σ ∧ st_groups σ0 `prefix_of` st_groups σ.

(** Every object of [σ0] is unchanged in [σ]. *)
Definition unchanged (σ0 σ : Store) : Prop := src_ext σ0 σ ∧ grp_ext σ0 σ.

(** Sources keep their identity, their class code and their MFD. *)
Definition stable (σ σ' : Store) : Prop :=
  ∀ a s, st_sources σ !! a = Some s →
    ∃ s', st_sources σ' !! a = Some s' ∧
          mfd s' = mfd s ∧ code s' = code s ∧ source_id s' = source_id s.

(** A step that works on sources and MFDs only. *)
Definition src_step (σ σ' : Store) : Prop :=
  stable σ σ' ∧ st_lists σ' = st_lists σ ∧ st_groups σ' = st_groups σ.

(** A source created after [σ0], whose MFD was created after [σ0] too. *)
Definition private (σ0 σ : Store) (a : addr) : Prop :=
  (length (st_sources σ0) ≤ a)%nat ∧
  ∃ s, st_sources σ !! a = Some s ∧
       ∀ m, mfd s = Some m → (length (st_mfds σ0) ≤ m)%nat.

(** The group under construction: created after [σ0], with a list of
    sources created after [σ0] that holds sources created after [σ0]. *)
Definition new_group_ok (σ0 σ : Store) (sg : addr) : Prop :=
  (length (st_groups σ0) ≤ sg)%nat ∧
  ∃ g items,
    st_groups σ !! sg = Some g ∧
    (length (st_lists σ0) ≤ sg_sources g)%nat ∧
    st_lists σ !! sg_sources g = Some items ∧
    Forall (λ a, (length (st_sources σ0) ≤ a)%nat) items.

Definition building (σ0 σ : Store) (sg : addr) : Prop :=
  unchanged σ0 σ ∧ new_group_ok σ0 σ sg.

(** The guard of the collapsed case, [src.code == b'N']. *)
Definition code_is_N (s : Source) : bool := String.eqb (code s) "N".

(** The MFD objects that the sources at [srcs] refer to. *)
Definition source_mfds (σ : Store) (srcs : list addr) : list addr :=
  omap (fun a => st_sources σ !! a ≫= mfd) srcs.

(** The group at [sg] in [σ'] shares no object with the store [σ0]: the
    group, its list, its sources and their MFDs were all created after
    [σ0]. *)
Definition distinct_graph (σ0 σ' : Store) (sg : addr) : Prop :=
  new_group_ok σ0 σ' sg ∧
  ∀ g items,
    st_groups σ' !! sg = Some g →
    st_lists σ' !! sg_sources g = Some items →
    Forall (λ m, (length (st_mfds σ0) ≤ m)%nat) (source_mfds σ' items).

(** A store with one group of one point source that has an MFD. *)
Definition one_source_store : Store :=
  mkStore
    [mkSource "s1" "Active Shallow Crust" PointSource "P" None [] (Some 0%nat)]
    [mkMfd []] [[0%nat]] [mkSourceGroup [] 0 7].

(** A source of the store together with the state of its MFD object. *)
Definition lookup_mfd (σ : Store) (s : Source) : option Mfd :=
  mfd s ≫= fun m => st_mfds σ !! m.

Definition view (σ : Store) (a : addr) : option (Source * option Mfd) :=
  (fun s => (s, lookup_mfd σ s)) <$> st_sources σ !! a.

(** The MFD reference of a source, if any, points to an MFD object. *)
Definition mfd_ok (σ : Store) (s : Source) : Prop :=
  is_Some (mfd s) → is_Some (lookup_mfd σ s).

(** The modifications that applying [value] under [utype] passes to the
    source ([OnSource]) or to its MFD ([OnMfd]). *)
Definition effect_on (target : Target) (utype : string) (value : Value)
    : list Modification :=
  match uncertainty_effect utype value, target with
  | Ok (OnSource, md), OnSource => [md]
  | Ok (OnMfd, md), OnMfd => [md]
  | _, _ => []
  end.

Definition effects_on (target : Target)
    (applied : list (string * Value)) : list Modification :=
  flat_map (fun uv => effect_on target uv.1 uv.2) applied.

(** [apply_uncertainty utype source value] succeeds on a source with or
    without an MFD. *)
Definition can_apply (has_mfd : bool) (utype : string) (value : Value)
    : bool :=
  match uncertainty_effect utype value with
  | Ok (OnSource, _) => true
  | Ok (OnMfd, _) => has_mfd
  | Raise _ => false
  end.

Definition has_mfd (s : Source) : bool :=
  match mfd s with Some _ => true | None => false end.

(** The object [(s', mfd')] is a copy of [(base, base_mfd)] with the
    scaling weight [rate], to which the uncertainties [applied] were
    applied and nothing else. *)
Definition copy_of (base : Source * option Mfd) (rate : option Q)
    (applied : list (string * Value)) (copy : Source * option Mfd) : Prop :=
  source_id copy.1 = source_id base.1 ∧
  tectonic_region_type copy.1 = tectonic_region_type base.1 ∧
  src_class copy.1 = src_class base.1 ∧
  code copy.1 = code base.1 ∧
  scaling_rate copy.1 = rate ∧
  src_mods copy.1 = src_mods base.1 ++ effects_on OnSource applied ∧
  mfd_mods <$> copy.2 =
    (fun mo => mfd_mods mo ++ effects_on OnMfd applied) <$> base.2.

(** The result of one modification on a source and its MFD. *)
Definition apply_effect (target : Target) (md : Modification)
    (sm : Source * option Mfd) : Source * option Mfd :=
  match target with
  | OnSource => (add_mod sm.1 md, sm.2)
  | OnMfd => (sm.1, (fun mo => add_mfd_mod mo md) <$> sm.2)
  end.

Definition apply_value (utype : string) (value : Value)
    (sm : Source * option Mfd) : Source * option Mfd :=
  match uncertainty_effect utype value with
  | Ok (target, md) => apply_effect target md sm
  | Raise _ => sm
  end.

(** The copy that the fan-out makes for one branch, when the next free
    MFD identity is [nm]. *)
Definition branch_copy (utype : string) (sm : Source * option Mfd)
    (nm : nat) (br : Branch) : Source * option Mfd :=
  apply_value utype (br_value br)
    (with_scaling_rate (with_mfd sm.1 ((fun _ => nm) <$> mfd sm.1))
       (br_weight br),
     sm.2).

Fixpoint fan_copies (utype : string) (sm : Source * option Mfd) (nm : nat)
    (branches : list Branch) : list (Source * option Mfd) :=
  match branches with
  | [] => []
  | br :: rest =>
      let c := branch_copy utype sm nm br in
      c :: fan_copies utype sm (nm + length (option_list c.2)) rest
  end.

(** Storing the state [(s', mfd')] of the source at [w] and of its MFD. *)
Definition set_view (σ : Store) (w : addr) (sm : Source * option Mfd)
    : Store :=
  mkStore (<[w := sm.1]> (st_sources σ))
    (match mfd sm.1, sm.2 with
     | Some m, Some mo => <[m := mo]> (st_mfds σ)
     | _, _ => st_mfds σ
     end)
    (st_lists σ) (st_groups σ).

(** The store while one source of [σ] is being processed: after the
    objects of [σ] come the working copy and its MFD, [sm], then the
    copies made by the fan-outs; the group [sg] under construction has
    counted [changes] changes. *)
Definition work_store (σ : Store) (sg : addr) (g : SourceGroup)
    (sm : Source * option Mfd) (copies : list (Source * option Mfd))
    (changes : Z) : Store :=
  mkStore (st_sources σ ++ sm.1 :: copies.*1)
    (st_mfds σ ++ option_list sm.2 ++ omap snd copies)
    (st_lists σ)
    (<[sg := with_changes g changes]> (st_groups σ)).

(** The working copy refers to its own MFD, the first one after those of
    [σ]. *)
Definition linked (σ : Store) (sm : Source * option Mfd) : Prop :=
  mfd sm.1 = (fun _ => length (st_mfds σ)) <$> sm.2.

(** The uncertainties of the pairs that accept the source. *)
Definition applied (zipped : list ((BranchSet * Value) * bool))
    : list (string * Value) :=
  omap (fun z : (BranchSet * Value) * bool =>
          if z.2 then Some (bs_uncertainty_type z.1.1, z.1.2) else None)
    zipped.

Definition apply_values (applied : list (string * Value))
    (sm : Source * option Mfd) : Source * option Mfd :=
  foldl (fun sm uv => apply_value uv.1 uv.2 sm) sm applied.

(** Every pair that accepts the source is a non-collapsed one whose value
    can be applied. *)
Definition plain_pairs (has_mfd : bool)
    (zipped : list ((BranchSet * Value) * bool)) : Prop :=
  Forall (λ z : (BranchSet * Value) * bool,
            z.2 = true →
            bs_collapsed z.1.1 = false ∧
            can_apply has_mfd (bs_uncertainty_type z.1.1) z.1.2 = true)
    zipped.

(** The deep copy of a source, with its MFD, in a store whose next free
    MFD identity is [nm]. *)
Definition deep_copy (σ : Store) (s : Source) : Source * option Mfd :=
  (with_mfd s ((fun _ => length (st_mfds σ)) <$> mfd s), lookup_mfd σ s).

(** [sg.sources.extend(srcs)] on a store, as a function. *)
Definition with_list (σ : Store) (l : addr) (items : list addr) : Store :=
  mkStore (st_sources σ) (st_mfds σ) (<[l := items]> (st_lists σ))
    (st_groups σ).

(** The source at [o] is the copy made for the branch [br] of a collapsed
    branch set of type [utype]: a new object with its own new MFD, the
    weight of the branch as scaling weight, and the value of the branch
    applied. *)
Definition branch_output (σ σ' : Store) (base : Source * option Mfd)
    (utype : string) (o : addr) (br : Branch) : Prop :=
  (length (st_sources σ) ≤ o)%nat ∧
  ∃ c, view σ' o = Some c ∧
       copy_of base (Some (br_weight br)) [(utype, br_value br)] c ∧
       ∀ m, mfd c.1 = Some m → (length (st_mfds σ) ≤ m)%nat.

(** A store that ends with the copies of a fan-out and their MFDs. *)
Definition fan_store (PS : list Source) (PM : list Mfd)
    (lists : list (list addr)) (groups : list SourceGroup)
    (copies : list (Source * option Mfd)) : Store :=
  mkStore (PS ++ copies.*1) (PM ++ omap snd copies) lists groups.

(** Branch sets for the examples on [one_source_store]: a collapsed one
    with two branches, a plain one, and one that rejects the source. *)
Definition fan_bset : BranchSet :=
  mkBranchSet
    [mkBranch "bs_b" "low" 0.25 (VNum (-0.1)) None;
     mkBranch "bs_b" "high" 0.75 (VNum 0.1) None]
    "bGRRelative" [] true.

Definition plain_bset : BranchSet :=
  mkBranchSet
    [mkBranch "bs_m" "m1" 0.5 (VNum 0.2) None;
     mkBranch "bs_m" "m2" 0.5 (VNum 0.4) None]
    "maxMagGRRelative" [] false.

Definition other_bset : BranchSet :=
  mkBranchSet [mkBranch "bs_o" "o1" 1 (VNum 1) None] "maxMagGRAbsolute"
    [("applyToSources", FIds ["s2"])] false.

(** A store with one group of one source whose class code is [b'N']. *)
Definition code_N_source : Source :=
  mkSource "np1" "Active Shallow Crust"
    (OtherSource "NonParametricSeismicSource") "N" None [] (Some 0%nat).

Definition code_N_store : Store :=
  mkStore [code_N_source] [mkMfd []] [[0%nat]]
    [mkSourceGroup [] 0 0].

(** The store when the loop over the sources starts: the copy [sg] of the
    input group [g] was created, with an empty list of sources and no
    change counted. *)
Definition start_store (σ : Store) (g : SourceGroup) : Store :=
  mkStore (st_sources σ) (st_mfds σ) (st_lists σ ++ [[]])
    (<[length (st_groups σ) :=
         with_changes (with_sources g (length (st_lists σ))) 0]>
       (<[length (st_groups σ) := with_sources g (length (st_lists σ))]>
          (st_groups σ ++ [g]))).

(** ** Vocabulary of the further properties *)

(** The filter keys that [filter_source] knows. *)
Definition known_filter_keys : list string :=
  ["applyToTectonicRegionType"; "applyToSourceType"; "applyToSources"].

(** The source type names that [filter_source] knows. *)
Definition known_source_types : list string :=
  ["area"; "point"; "simpleFault"; "complexFault"; "characteristicFault"].

(** No two branches of a branch set of the tree share a [branch_id]. *)
Fixpoint unique_ids (bs : BranchSet) : bool :=
  match bs with
  | mkBranchSet brs _ _ _ =>
      bool_decide (NoDup (map br_branch_id brs))
      && (fix children (l : list Branch) : bool :=
            match l with
            | [] => true
            | mkBranch _ _ _ _ child :: rest =>
                match child with
                | Some c => unique_ids c
                | None => true
                end && children rest
            end) brs
  end.

Definition children_unique (brs : list Branch) : bool :=
  forallb (fun b => match br_bset b with
                    | Some c => unique_ids c
                    | None => true
                    end) brs.

(** Every collapsed branch set of the tree owns at least one branch. *)
Fixpoint collapsed_nonempty (bs : BranchSet) : bool :=
  match bs with
  | mkBranchSet brs _ _ c =>
      negb (c && match brs with [] => true | _ => false end)
      && (fix children (l : list Branch) : bool :=
            match l with
            | [] => true
            | mkBranch _ _ _ _ child :: rest =>
                match child with
                | Some c => collapsed_nonempty c
                | None => true
                end && children rest
            end) brs
  end.

Definition children_collapsed_nonempty (brs : list Branch) : bool :=
  forallb (fun b => match br_bset b with
                    | Some c => collapsed_nonempty c
                    | None => true
                    end) brs.

(** The pairs (branch set, value) met when the branches of [path] are
    followed from [bs] downwards. *)
Fixpoint path_pairs (bs : BranchSet) (path : list Branch)
    : list (BranchSet * Value) :=
  match path with
  | [] => []
  | b :: rest =>
      (bs, br_value b) ::
      match br_bset b with
      | Some child => path_pairs child rest
      | None => []
      end
  end.

(** A path from [bs] to a leaf that [get_bset_values] walks back, id by
    id, to the values of its branches. *)
Definition walked_back (bs : BranchSet) (path : list Branch) : Prop :=
  path ≠ [] ∧
  get_bset_values bs (map br_branch_id path) = Ok (path_pairs bs path) ∧
  length (path_pairs bs path) = length path ∧
  (∀ b, last path = Some b → br_bset b = None).

Definition walks_back (bs : BranchSet) : Prop :=
  unique_ids bs = true →
  ∀ prefix_path paths,
    _enumerate_paths bs prefix_path = Ok paths →
    Forall (λ p, ∃ suffix,
              path_branches p = path_branches prefix_path ++ suffix ∧
              walked_back bs suffix) paths.

Definition enumerates_safely (bs : BranchSet) : Prop :=
  ∀ prefix_path e,
    _enumerate_paths bs prefix_path = Raise e →
    e = IndexError ∧ collapsed_nonempty bs = false.

(** ** [BranchSet.sample] *)

(** The end of one turn of the [while] loop, [branches.append(branch);
    branchset = branch.bset], followed by the turns [rest] that remain. *)
Definition sample_next {G} (branch : Branch)
    (rest : G → result (list Branch) * G) (g : G)
    : result (list Branch) * G :=
  match rest g with
  | (Ok branches, g') => (Ok (branch :: branches), g')
  | (Raise e, g') => (Raise e, g')
  end.

(** The loop runs once per level of the tree.  Each branch is paired with
    the turns that follow it, so that the branch drawn by [sample] brings
    along the walk of its own [bset]; the weights are read from the
    branch, as [sample] does with [obj.weight]. *)
Fixpoint BranchSet_sample (np : NumpyRandom) (seed : Z) (bs : BranchSet)
    {struct bs} : rng np → result (list Branch) * rng np :=
  match bs with
  | mkBranchSet brs _ _ is_collapsed =>
      let turns :=
        (fix each (l : list Branch)
           : list (Branch * (rng np → result (list Branch) * rng np)) :=
           match l with
           | [] => []
           | mkBranch i j w v child :: rest =>
               (mkBranch i j w v child,
                match child with
                | Some c => BranchSet_sample np seed c
                | None => fun g => (Ok [], g)
                end) :: each rest
           end) brs in
      fun g =>
        if is_collapsed then
          match turns with
          | [] => (Raise IndexError, g)
          | (branch, rest) :: _ => sample_next branch rest g
          end
        else
          match sample np (fun t => WFloat (br_weight t.1)) turns 1 seed g with
          | (Ok [(branch, rest)], g') => sample_next branch rest g'
          | (Ok _, g') => (Raise ValueError, g')
          | (Raise e, g') => (Raise e, g')
          end
  end.

(** The turns of the loop that follow [branch]. *)
Definition sample_rest (np : NumpyRandom) (seed : Z) (branch : Branch)
    : rng np → result (list Branch) * rng np :=
  match br_bset branch with
  | Some c => BranchSet_sample np seed c
  | None => fun g => (Ok [], g)
  end.

(** A path of branches from [bs] down to a leaf, each branch an element
    of the branch set reached so far. *)
Fixpoint is_chain (bs : BranchSet) (path : list Branch) : Prop :=
  match path with
  | [] => False
  | b :: rest =>
      b ∈ bs_branches bs ∧
      match br_bset b with
      | Some child => is_chain child rest
      | None => rest = []
      end
  end.

(** Every branch set of the tree can be sampled: a collapsed one owns a
    branch, the weights of any other are a probability vector. *)
Fixpoint sampleable (bs : BranchSet) : bool :=
  match bs with
  | mkBranchSet brs _ _ c =>
      (if c then match brs with [] => false | _ => true end
       else probabilities_b (map br_weight brs))
      && (fix children (l : list Branch) : bool :=
            match l with
            | [] => true
            | mkBranch _ _ _ _ child :: rest =>
                match child with
                | Some c => sampleable c
                | None => true
                end && children rest
            end) brs
  end.

Definition children_sampleable (brs : list Branch) : bool :=
  forallb (fun b => match br_bset b with
                    | Some c => sampleable c
                    | None => true
                    end) brs.

(** A tree of two levels with the same weights. *)
Definition d1 : Branch := mkBranch "bs2" "d1" 0.6 (VNum 0.2) None.
Definition d2 : Branch := mkBranch "bs2" "d2" 0.4 (VNum (-0.2)) None.
Definition twin_child : BranchSet :=
  mkBranchSet [d1; d2] "maxMagGRRelative" [] false.
Definition t1 : Branch :=
  mkBranch "bs1" "t1" 0.6 (VStr "model_1.xml") (Some twin_child).
Definition t2 : Branch :=
  mkBranch "bs1" "t2" 0.4 (VStr "model_2.xml") (Some twin_child).
Definition twin_bset : BranchSet :=
  mkBranchSet [t1; t2] "sourceModel" [] false.

(** The number of items that the function registered for an uncertainty
    type unpacks from the value, for the functions that unpack it. *)
Definition unpacked_items : list (string * nat) :=
  [("simpleFaultGeometryAbsolute", 5%nat);
   ("complexFaultGeometryAbsolute", 2%nat);
   ("abGRAbsolute", 2%nat);
   ("incrementalMFDAbsolute", 3%nat)].

(** The uncertainty types whose function calls [source.mfd.modify]. *)
Definition mfd_types : list string :=
  ["abGRAbsolute"; "bGRRelative"; "maxMagGRRelative"; "maxMagGRAbsolute";
   "incrementalMFDAbsolute"].

(** A store with one group of two sources that share an MFD. *)
Definition two_source_store : Store :=
  mkStore
    [mkSource "s1" "Active Shallow Crust" PointSource "P" None [] (Some 0%nat);
     mkSource "s2" "Stable Shallow Crust" AreaSource "A" None [] (Some 0%nat)]
    [mkMfd []] [[0%nat; 1%nat]] [mkSourceGroup [] 0 7].

(** A branch set that accepts neither source of [two_source_store]. *)
Definition absent_bset : BranchSet :=
  mkBranchSet [mkBranch "bs_a" "a1" 1 (VNum 0.1) None] "bGRRelative"
    [("applyToSources", FIds ["s9"])] false.

(** ** [_validate_complex_fault_geometry] *)

(** [split_coords_3d], [geo.Point] and [geo.Line] are not part of the
    module: the outcome of the [try] block for one edge node is given
    with the node, a line with some number of points or the exception
    that interrupted its construction. *)
Inductive Built : Type :=
  | BuiltLine (points : nat)
  | BuildFailed (e : Exn).

Record ComplexNode : Type := mkComplexNode {
  cnode_lineno : option Z;
  cnode_spacing : Q;
  cnode_edges : list Built
}.

(** [try: ... edge = geo.Line(...) except ValueError: edge = []], then
    [len(edge)] *)
Definition edge_length (edge_node : Built) : result nat :=
  match edge_node with
  | BuiltLine points => Ok points
  | BuildFailed ValueError => Ok 0%nat
  | BuildFailed e => Raise e
  end.

Fixpoint check_edges (edge_nodes : list Built) (valid_edges : list bool)
    : result (list bool) :=
  match edge_nodes with
  | [] => Ok valid_edges
  | edge_node :: rest =>
      rbind (edge_length edge_node) (fun len =>
      if negb (len =? 0)%nat then check_edges rest (valid_edges ++ [true])
      else check_edges rest (valid_edges ++ [false]))
  end.

(** [all(valid_edges)] *)
Definition py_all (l : list bool) : bool := forallb (fun b => b) l.

Definition _validate_complex_fault_geometry (utype : string)
    (node : ComplexNode) (filename : string) : result unit :=
  rbind (check_edges (cnode_edges node) []) (fun valid_edges =>
  if truthy (cnode_spacing node) && py_all valid_edges then Ok tt
  else Raise (LogicTreeError (cnode_lineno node) filename
                "'complexFaultGeometry' node is not valid")).

(** The construction of an edge raised nothing but [ValueError]. *)
Definition only_value_errors (edge_nodes : list Built) : Prop :=
  Forall (λ b, ∀ e, b = BuildFailed e → e = ValueError) edge_nodes.

(** The edge was built, with at least one point. *)
Definition built (edge_node : Built) : Prop :=
  ∃ n, edge_node = BuiltLine (S n).

(** The paths enumerated below a prefix extend it by suffixes whose lists
    of branch ids are pairwise different. *)
Definition walks_apart (bs : BranchSet) : Prop :=
  unique_ids bs = true →
  ∀ prefix_path paths,
    _enumerate_paths bs prefix_path = Ok paths →
    ∃ suffixes,
      map path_branches paths =
        map (app (path_branches prefix_path)) suffixes ∧
      NoDup (map (map br_branch_id) suffixes).

(** A second collapsed branch set for the examples. *)
Definition fan_bset2 : BranchSet :=
  mkBranchSet
    [mkBranch "bs_c" "m_low" 0.5 (VNum (-0.2)) None;
     mkBranch "bs_c" "m_mid" 0.25 (VNum 0) None;
     mkBranch "bs_c" "m_high" 0.25 (VNum 0.2) None]
    "maxMagGRRelative" [] true.

(** What identifies a branch on a path: its id and its value. *)
Definition branch_key (b : Branch) : string * Value :=
  (br_branch_id b, br_value b).

(** Every path that sampling returns below [bs] is among the enumerated
    ones. *)
Definition sampled_is_enumerated (np : NumpyRandom) (seed : Z)
    (bs : BranchSet) : Prop :=
  ∀ g out g' prefix_path paths,
    BranchSet_sample np seed bs g = (Ok out, g') →
    _enumerate_paths bs prefix_path = Ok paths →
    ∃ p, p ∈ paths ∧
         map branch_key (path_branches p) =
           map branch_key (path_branches prefix_path) ++
           map branch_key out.

(** ** The multi-surface composite of the description *)

(** Modelled from the spec: the surfaces and [geo.MultiSurface] are not
    part of the module.  [charGeom] merges the sub-shapes it parsed into
    one multi-surface when there is more than one, and
    [_char_fault_geom_absolute] hands that value to the source with
    [set_geometry]; the description calls a source a multi-surface
    composite when its surface is built from more than one sub-shape.
    A multi-surface is written as the sequence of its sub-shapes. *)
Definition sub_shapes (surface : Value) : nat :=
  match surface with
  | VSeq shapes => length shapes
  | _ => 1%nat
  end.

(** The surface that the source was last given with [set_geometry]. *)
Definition surface_of (s : Source) : option Value :=
  last (omap (fun md : Modification =>
                if String.eqb md.1 "set_geometry"
                then registry_get md.2 "surface"
                else None) (src_mods s)).

Definition multi_surface_composite (s : Source) : bool :=
  match surface_of s with
  | Some surface => (1 <? sub_shapes surface)%nat
  | None => false
  end.

(** A store with one group of one characteristic fault source, of class
    code [b'X'], whose surface was set to a multi-surface of two
    sub-shapes. *)
Definition composite_source : Source :=
  mkSource "char1" "Active Shallow Crust" CharacteristicFaultSource "X" None
    [("set_geometry",
      [("surface", VSeq [VStr "planarSurface"; VStr "simpleFaultGeometry"])])]
    (Some 0%nat).

Definition composite_store : Store :=
  mkStore [composite_source] [mkMfd []] [[0%nat]] [mkSourceGroup [] 0 0].

(** The exception is the one that the guard of the collapsed case
    raises. *)
Definition is_not_implemented (e : Exn) : bool :=
  match e with
  | NotImplementedError _ => true
  | _ => false
  end.

(** * Properties *)

(** ** Planar geometry validation *)

Lemma valid_corner_iff c : valid_corner c = true ↔ in_range c.
Proof.
  unfold valid_corner, in_range.
  rewrite !andb_true_iff, !Qle_bool_iff. tauto.
Qed.

Lemma truthy_iff q : truthy q = true ↔ ¬ (q == 0)%Q.
Proof.
  unfold truthy. rewrite negb_true_iff, <- not_true_iff_false, Qeq_bool_iff.
  tauto.
Qed.

Lemma validate_corners_ok node filename sp cs :
  Forall in_range cs → ¬ (sp == 0)%Q →
  validate_corners node filename sp cs = Ok tt.
Proof.
  intros Hcs Hsp. induction Hcs as [|c cs Hc _ IH]; simpl; [done|].
  apply valid_corner_iff in Hc. apply truthy_iff in Hsp.
  by rewrite Hc, Hsp.
Qed.

Lemma validate_corners_bad_spacing node filename sp cs :
  cs ≠ [] → (sp == 0)%Q →
  validate_corners node filename sp cs = Raise (planar_error node filename).
Proof.
  intros Hne Hsp. destruct cs as [|c cs]; [done|]. simpl.
  assert (truthy sp = false) as ->.
  { apply not_true_iff_false. rewrite truthy_iff. tauto. }
  by rewrite orb_true_r.
Qed.

Lemma validate_corners_bad_corner node filename sp cs :
  Exists (λ c, ¬ in_range c) cs →
  validate_corners node filename sp cs = Raise (planar_error node filename).
Proof.
  induction 1 as [c cs Hc|c cs _ IH]; simpl.
  - assert (valid_corner c = false) as ->; [|done].
    apply not_true_iff_false. by rewrite valid_corner_iff.
  - by destruct (negb (valid_corner c) || negb (truthy sp)).
Qed.

(** C9, as stated, fails: a planar surface whose corners are all in range
    and whose spacing is -1 (not positive) passes the validation. *)
Lemma planar_negative_spacing_accepted :
  Forall in_range (corners neg_spacing_node) ∧
  ¬ (0 < spacing neg_spacing_node)%Q ∧
  _validate_planar_fault_geometry "characteristicFaultGeometryAbsolute"
    neg_spacing_node "lt.xml" = Ok tt.
Proof.
  split; [|split; [|reflexivity]].
  - repeat constructor; discriminate.
  - intros H. discriminate H.
Qed.

(** C9, amended: the validation raises a [LogicTreeError] built from the
    node whenever a corner has a longitude outside [-180, 180], a latitude
    outside [-90, 90] or a negative depth, or the spacing is zero; it
    succeeds when the four corners are in range and the spacing is not
    zero, in particular when it is positive. *)
Theorem planar_validation utype node filename :
  ((Exists (λ c, ¬ in_range c) (corners node) ∨ (spacing node == 0)%Q) →
   _validate_planar_fault_geometry utype node filename =
     Raise (LogicTreeError (node_lineno node) filename
              "'planarFaultGeometry' node is not valid")) ∧
  (Forall in_range (corners node) → ¬ (spacing node == 0)%Q →
   _validate_planar_fault_geometry utype node filename = Ok tt) ∧
  (Forall in_range (corners node) → (0 < spacing node)%Q →
   _validate_planar_fault_geometry utype node filename = Ok tt).
Proof.
  unfold _validate_planar_fault_geometry. fold (corners node).
  split; [|split].
  - intros [Hbad|Hzero].
    + by apply validate_corners_bad_corner.
    + by apply validate_corners_bad_spacing.
  - apply validate_corners_ok.
  - intros Hcs Hpos. apply validate_corners_ok; [done|].
    intros Heq. rewrite Heq in Hpos. discriminate Hpos.
Qed.

Lemma planar_validation_witness :
  _validate_planar_fault_geometry "characteristicFaultGeometryAbsolute"
    deep_lat_node "lt.xml" =
    Raise (LogicTreeError (Some 8%Z) "lt.xml"
             "'planarFaultGeometry' node is not valid") ∧
  _validate_planar_fault_geometry "characteristicFaultGeometryAbsolute"
    zero_spacing_node "lt.xml" =
    Raise (LogicTreeError None "lt.xml"
             "'planarFaultGeometry' node is not valid") ∧
  _validate_planar_fault_geometry "characteristicFaultGeometryAbsolute"
    good_node "lt.xml" = Ok tt.
Proof.
  split; [|split].
  - apply (planar_validation _ deep_lat_node "lt.xml"). left.
    unfold corners; simpl. do 2 apply Exists_cons_tl. apply Exists_cons_hd.
    unfold in_range; simpl. intros (_ & _ & _ & H & _). by apply H.
  - apply (planar_validation _ zero_spacing_node "lt.xml"). by right.
  - apply (planar_validation _ good_node "lt.xml").
    + repeat constructor; discriminate.
    + reflexivity.
Defined.

(** ** Source filters *)

Lemma filter_items_true items source :
  filter_items items source = Ok true ↔
  Forall (λ kv, check_filter kv.1 kv.2 source = Ok true) items.
Proof.
  induction items as [|[key value] items IH]; simpl.
  - split; [constructor|done].
  - destruct (check_filter key value source) as [[]|e] eqn:Hc.
    + rewrite IH. split.
      * intros H. by constructor.
      * by inversion 1.
    + split; [done|]. inversion 1; simpl in *; congruence.
    + split; [done|]. inversion 1; simpl in *; congruence.
Qed.

Lemma filter_items_rejects items source key value :
  (key, value) ∈ items →
  check_filter key value source = Ok false →
  filter_items items source ≠ Ok true.
Proof.
  intros Hin Hc Htrue. apply filter_items_true in Htrue.
  rewrite Forall_forall in Htrue. specialize (Htrue _ Hin). simpl in Htrue.
  congruence.
Qed.

Lemma check_apply_to_sources ids source :
  check_filter "applyToSources" (FIds ids) source =
  Ok match source with
     | Some s => bool_decide (source_id s ∈ ids)
     | None => true
     end.
Proof.
  unfold check_filter; simpl. destruct source; [|done].
  by rewrite negb_involutive.
Qed.

(** C4, as stated, fails: with the filter [applyToSources = ["a"; "b"]]
    and no source under evaluation, [filter_source] returns [True]. *)
Lemma filter_source_absent_source_passes :
  filter_source (only_sources_bset ["a"; "b"]) None = Ok true.
Proof. reflexivity. Qed.

(** C4, amended: for a branch set whose filters contain an
    [applyToSources] id collection, that filter rejects exactly the
    present sources whose [source_id] is not in the collection, so such a
    source is never accepted by [filter_source]; an absent source is not
    rejected by that filter, because the membership test is skipped, and a
    present source whose id is listed passes it. *)
Theorem apply_to_sources_filter bs ids :
  ("applyToSources", FIds ids) ∈ bs_filters bs →
  (∀ s, source_id s ∉ ids →
     check_filter "applyToSources" (FIds ids) (Some s) = Ok false ∧
     filter_source bs (Some s) ≠ Ok true) ∧
  (∀ s, source_id s ∈ ids →
     check_filter "applyToSources" (FIds ids) (Some s) = Ok true) ∧
  check_filter "applyToSources" (FIds ids) None = Ok true ∧
  (bs_filters bs = [("applyToSources", FIds ids)] →
     filter_source bs None = Ok true ∧
     ∀ s, filter_source bs (Some s) = Ok (bool_decide (source_id s ∈ ids))).
Proof.
  intros Hin. split; [|split; [|split]].
  - intros s Hs.
    assert (check_filter "applyToSources" (FIds ids) (Some s) = Ok false)
      as Hc.
    { rewrite check_apply_to_sources. by rewrite bool_decide_eq_false_2. }
    split; [done|]. by eapply filter_items_rejects.
  - intros s Hs. rewrite check_apply_to_sources.
    by rewrite bool_decide_eq_true_2.
  - apply check_apply_to_sources.
  - intros Hfs. unfold filter_source. rewrite Hfs. split; [done|].
    intros s. cbn [filter_items]. rewrite check_apply_to_sources.
    by destruct (bool_decide (source_id s ∈ ids)).
Qed.

Lemma apply_to_sources_filter_witness :
  filter_source (only_sources_bset ["a"; "b"])
    (Some (point_source "c" "Active Shallow Crust")) ≠ Ok true ∧
  filter_source (only_sources_bset ["a"; "b"])
    (Some (point_source "b" "Active Shallow Crust")) = Ok true.
Proof.
  destruct (apply_to_sources_filter (only_sources_bset ["a"; "b"])
              ["a"; "b"] (list_elem_of_here _ _)) as (Hout & _ & _ & Hone).
  split.
  - apply (Hout (point_source "c" "Active Shallow Crust")).
    simpl. intros Hc. apply elem_of_cons in Hc as [Hc|Hc]; [done|].
    apply elem_of_cons in Hc as [Hc|Hc]; [done|].
    by apply elem_of_nil in Hc.
  - destruct (Hone eq_refl) as [_ Hs]. rewrite Hs. reflexivity.
Defined.

Lemma check_region_type value s :
  check_filter "applyToTectonicRegionType" value (Some s) =
  Ok (is_str value (tectonic_region_type s)).
Proof. reflexivity. Qed.

Lemma check_point_type source :
  check_filter "applyToSourceType" (FStr "point") source =
  Ok (negb (negb (source_isinstance source PointSource)
            || source_isinstance source AreaSource)).
Proof. reflexivity. Qed.

Lemma asc_point_items fs source :
  fs = asc_point_filters ∨ fs = reverse asc_point_filters →
  (∃ key value,
     (key, value) ∈ asc_point_filters ∧
     check_filter key value source = Ok false) →
  (∀ key value,
     (key, value) ∈ asc_point_filters →
     ∃ b, check_filter key value source = Ok b) →
  filter_items fs source = Ok false.
Proof.
  intros Hfs (key & value & Hin & Hfalse) Hok.
  destruct (Hok "applyToTectonicRegionType" (FStr "Active Shallow Crust"))
    as [ok1 Hk1]; [apply list_elem_of_here|].
  destruct (Hok "applyToSourceType" (FStr "point")) as [ok2 Hk2].
  { apply list_elem_of_further, list_elem_of_here. }
  assert (ok1 = false ∨ ok2 = false) as Hb.
  { apply elem_of_cons in Hin as [Hin|Hin]; [left; congruence|].
    apply list_elem_of_singleton in Hin. right; congruence. }
  destruct Hfs as [-> | ->]; cbn [asc_point_filters reverse rev_append
    filter_items]; rewrite Hk1, Hk2 || rewrite Hk2, Hk1;
    destruct Hb as [-> | ->]; by destruct ok1 || by destruct ok2.
Qed.

Lemma asc_point_rejects_stable fs s :
  fs = asc_point_filters ∨ fs = reverse asc_point_filters →
  tectonic_region_type s = "Stable Shallow Crust" →
  filter_items fs (Some s) = Ok false.
Proof.
  intros Hfs Htrt. apply asc_point_items; [done| |].
  - exists "applyToTectonicRegionType", (FStr "Active Shallow Crust").
    split; [apply list_elem_of_here|].
    by rewrite check_region_type, Htrt.
  - intros key value Hin. apply elem_of_cons in Hin as [Hin|Hin].
    + injection Hin as -> ->. rewrite check_region_type. eauto.
    + apply list_elem_of_singleton in Hin. injection Hin as -> ->.
      rewrite check_point_type. eauto.
Qed.

Lemma asc_point_rejects_area fs s :
  fs = asc_point_filters ∨ fs = reverse asc_point_filters →
  isinstance (src_class s) AreaSource = true →
  filter_items fs (Some s) = Ok false.
Proof.
  intros Hfs Harea. apply asc_point_items; [done| |].
  - exists "applyToSourceType", (FStr "point").
    split; [apply list_elem_of_further, list_elem_of_here|].
    rewrite check_point_type. cbn [source_isinstance]. rewrite Harea.
    by rewrite orb_true_r.
  - intros key value Hin. apply elem_of_cons in Hin as [Hin|Hin].
    + injection Hin as -> ->. rewrite check_region_type. eauto.
    + apply list_elem_of_singleton in Hin. injection Hin as -> ->.
      rewrite check_point_type. eauto.
Qed.

(** C7: a branch set with the filters
    [{applyToTectonicRegionType: "Active Shallow Crust",
      applyToSourceType: "point"}] (in either iteration order of the map)
    rejects every source of region "Stable Shallow Crust", whatever its
    class, and every area source, although an area source is a point
    source; in general [filter_source] accepts a source exactly when
    every filter of the map accepts it. *)
Theorem filter_source_conjunction :
  (∀ bs s,
     bs_filters bs = asc_point_filters ∨
     bs_filters bs = reverse asc_point_filters →
     (tectonic_region_type s = "Stable Shallow Crust" →
      filter_source bs (Some s) = Ok false) ∧
     (isinstance (src_class s) AreaSource = true →
      isinstance (src_class s) PointSource = true ∧
      filter_source bs (Some s) = Ok false)) ∧
  (∀ bs source,
     filter_source bs source = Ok true ↔ all_filters_pass bs source).
Proof.
  split.
  - intros bs s Hfs. unfold filter_source. split.
    + by apply asc_point_rejects_stable.
    + intros Harea. split.
      * by destruct (src_class s).
      * by apply asc_point_rejects_area.
  - intros bs source. apply filter_items_true.
Qed.

Lemma filter_source_conjunction_witness :
  filter_source
    (mkBranchSet [] "maxMagGRRelative" asc_point_filters false)
    (Some (point_source "p1" "Stable Shallow Crust")) = Ok false ∧
  filter_source
    (mkBranchSet [] "maxMagGRRelative" asc_point_filters false)
    (Some (area_source "a1" "Active Shallow Crust")) = Ok false ∧
  all_filters_pass
    (mkBranchSet [] "maxMagGRRelative" asc_point_filters false)
    (Some (point_source "p1" "Active Shallow Crust")).
Proof.
  destruct filter_source_conjunction as [Hex Hand].
  split; [|split].
  - destruct (Hex (mkBranchSet [] "maxMagGRRelative" asc_point_filters false)
                (point_source "p1" "Stable Shallow Crust")
                (or_introl eq_refl)) as [Hstable _].
    apply Hstable. reflexivity.
  - destruct (Hex (mkBranchSet [] "maxMagGRRelative" asc_point_filters false)
                (area_source "a1" "Active Shallow Crust")
                (or_introl eq_refl)) as [_ Harea].
    apply Harea. reflexivity.
  - apply Hand. reflexivity.
Defined.

(** ** Walking a path of branch ids *)

Lemma get_bset_values_loop_acc acc bs ltpath :
  get_bset_values_loop acc bs ltpath =
  rbind (get_bset_values_loop [] bs ltpath) (λ pairs, Ok (acc ++ pairs)).
Proof.
  revert acc bs. induction ltpath as [|brid ltpath IH]; intros acc bs; simpl.
  - by rewrite app_nil_r.
  - destruct (getitem bs brid) as [br|e]; simpl; [|done].
    destruct (br_bset br) as [child|]; simpl; [|done].
    rewrite (IH (acc ++ _)), (IH [_]).
    destruct (get_bset_values_loop [] child ltpath); simpl; [|done].
    by rewrite <- app_assoc.
Qed.

Lemma get_bset_values_cons bs brid rest :
  get_bset_values bs (brid :: rest) =
  rbind (getitem bs brid) (λ br,
    match br_bset br with
    | None => Ok [(bs, br_value br)]
    | Some child =>
        rbind (get_bset_values child rest) (λ pairs,
          Ok ((bs, br_value br) :: pairs))
    end).
Proof.
  unfold get_bset_values; simpl.
  destruct (getitem bs brid) as [br|e]; simpl; [|done].
  destruct (br_bset br) as [child|]; [|done].
  by rewrite get_bset_values_loop_acc.
Qed.

Lemma get_bset_values_walk bs ltpath pairs :
  get_bset_values bs ltpath = Ok pairs ↔ walk bs ltpath pairs.
Proof.
  split.
  - revert bs pairs. induction ltpath as [|brid rest IH]; intros bs pairs.
    + intros [= <-]. constructor.
    + rewrite get_bset_values_cons.
      destruct (getitem bs brid) as [br|e] eqn:Hbr; simpl; [|done].
      destruct (br_bset br) as [child|] eqn:Hchild.
      * destruct (get_bset_values child rest) as [ps|e] eqn:Hps; simpl;
          [|done].
        intros [= <-]. eapply walk_child; eauto.
      * intros [= <-]. by eapply walk_leaf.
  - induction 1 as [bs|bs brid rest br Hbr Hleaf
                    |bs brid rest br child pairs Hbr Hchild _ IH].
    + done.
    + by rewrite get_bset_values_cons, Hbr; simpl; rewrite Hleaf.
    + by rewrite get_bset_values_cons, Hbr; simpl; rewrite Hchild, IH.
Qed.

Lemma find_branch_error brs brid e :
  find_branch brs brid = Raise e → e = KeyError brid.
Proof.
  induction brs as [|b brs IH]; simpl; [congruence|].
  by destruct (String.eqb (br_branch_id b) brid).
Qed.

Lemma get_bset_values_error bs ltpath e :
  get_bset_values bs ltpath = Raise e →
  ∃ brid, brid ∈ ltpath ∧ e = KeyError brid.
Proof.
  revert bs. induction ltpath as [|brid rest IH]; intros bs; [done|].
  rewrite get_bset_values_cons.
  destruct (getitem bs brid) as [br|e'] eqn:Hbr; simpl.
  - destruct (br_bset br) as [child|]; [|done].
    destruct (get_bset_values child rest) as [ps|e'] eqn:Hps; simpl; [done|].
    intros [= ->]. destruct (IH _ Hps) as (i & Hi & ->).
    exists i. split; [by apply list_elem_of_further|done].
  - intros [= ->]. apply find_branch_error in Hbr as ->.
    exists brid. split; [apply list_elem_of_here|done].
Qed.

Lemma walk_length bs ltpath pairs :
  walk bs ltpath pairs → (length pairs ≤ length ltpath)%nat.
Proof. induction 1; simpl; lia. Qed.

(** C8: [get_bset_values] walks the chain of branch sets, one id per
    level, and collects the pairs (branch set, value of the chosen
    branch); it stops, without an error, when the ids are exhausted or
    when the chosen branch has no child branch set, even if ids remain;
    the only failure is the lookup of an id that the current branch set
    does not own.  On the tree with root branches [b1], [b2], where [b1]
    has a child branch set containing [c1], the path ["b1"; "c1"] gives
    the root branch set with the value of [b1], then the child branch set
    with the value of [c1]. *)
Theorem get_bset_values_chain :
  (∀ bs ltpath pairs,
     get_bset_values bs ltpath = Ok pairs ↔ walk bs ltpath pairs) ∧
  (∀ bs ltpath pairs,
     get_bset_values bs ltpath = Ok pairs →
     (length pairs ≤ length ltpath)%nat) ∧
  (∀ bs brid rest br,
     getitem bs brid = Ok br → br_bset br = None →
     get_bset_values bs (brid :: rest) = Ok [(bs, br_value br)]) ∧
  (∀ bs ltpath e,
     get_bset_values bs ltpath = Raise e →
     ∃ brid, brid ∈ ltpath ∧ e = KeyError brid) ∧
  get_bset_values root_bset ["b1"; "c1"] =
    Ok [(root_bset, br_value b1); (child_bset, br_value c1)] ∧
  get_bset_values root_bset ["b2"; "c1"; "d1"] =
    Ok [(root_bset, br_value b2)].
Proof.
  split; [|split; [|split; [|split; [|split]]]].
  - apply get_bset_values_walk.
  - intros bs ltpath pairs H. apply get_bset_values_walk in H.
    by eapply walk_length.
  - intros bs brid rest br Hbr Hleaf.
    by rewrite get_bset_values_cons, Hbr; simpl; rewrite Hleaf.
  - apply get_bset_values_error.
  - reflexivity.
  - reflexivity.
Qed.

Lemma get_bset_values_chain_witness :
  walk root_bset ["b1"; "c1"]
    [(root_bset, VStr "model_1.xml"); (child_bset, VNum 0.2)] ∧
  get_bset_values root_bset ["b2"; "c1"; "d1"] =
    Ok [(root_bset, VStr "model_2.xml")].
Proof.
  destruct get_bset_values_chain as (Hwalk & _ & Hleaf & _).
  split.
  - apply Hwalk. reflexivity.
  - apply (Hleaf root_bset "b2" ["c1"; "d1"] b2); reflexivity.
Defined.

(** ** Path enumeration *)

(** Induction over a logic tree: a property holds of a branch set when it
    holds of the child branch set of each of its branches. *)
Lemma BranchSet_tree_ind (P : BranchSet → Prop) :
  (∀ brs u fs c,
     Forall (λ b, ∀ child, br_bset b = Some child → P child) brs →
     P (mkBranchSet brs u fs c)) →
  ∀ bs, P bs.
Proof.
  intros Hstep. fix IH 1. intros [brs u fs c]. apply Hstep.
  induction brs as [|[i j w v [child|]] brs IHbrs].
  - constructor.
  - constructor; [|exact IHbrs]. simpl. intros child' [= <-]. apply IH.
  - constructor; [|exact IHbrs]. simpl. intros child' [=].
Qed.


Lemma Qprod_app l1 l2 : (Qprod (l1 ++ l2) == Qprod l1 * Qprod l2)%Q.
Proof.
  induction l1 as [|x l1 IH]; simpl; [ring|]. rewrite IH. ring.
Qed.

Lemma path_weight_step prefix branch :
  (path_weight (PStep prefix branch) ==
   path_weight prefix * br_weight branch)%Q.
Proof.
  unfold path_weight; simpl. rewrite map_app, Qprod_app; simpl. ring.
Qed.

Lemma flatten_path_spec path weight flat_path :
  ((flatten_path path weight flat_path).1 == weight * path_weight path)%Q ∧
  (flatten_path path weight flat_path).2 =
    flat_path ++ rev (path_branches path).
Proof.
  revert weight flat_path.
  induction path as [|prefix IH branch]; intros weight flat_path; simpl.
  - split; [unfold path_weight; simpl; ring|by rewrite app_nil_r].
  - destruct (IH (weight * br_weight branch)%Q (flat_path ++ [branch]))
      as [Hw Hp].
    split.
    + rewrite Hw, path_weight_step. ring.
    + rewrite Hp, rev_app_distr; simpl. by rewrite <- app_assoc.
Qed.

Lemma yield_path_spec path :
  ((yield_path path).1 == path_weight path)%Q ∧
  (yield_path path).2 = path_branches path.
Proof.
  unfold yield_path.
  destruct (flatten_path_spec path 1 []) as [Hw Hp].
  destruct (flatten_path path 1 []) as [w fp]; simpl in *.
  split; [rewrite Hw; ring|]. by rewrite Hp, rev_involutive.
Qed.

Lemma _enumerate_paths_unfold brs u fs c prefix_path :
  _enumerate_paths (mkBranchSet brs u fs c) prefix_path =
  if c then
    match brs with
    | [] => Raise IndexError
    | b :: _ => visit prefix_path (with_weight b 1) (br_bset b)
    end
  else each_branch prefix_path brs.
Proof.
  destruct c; simpl.
  - by destruct brs as [|[i j w v [child|]] brs].
  - induction brs as [|[i j w v [child|]] brs IH]; simpl; [done|..];
      by rewrite IH.
Qed.








(** The enumeration scenario of the tree [root_bset]. *)
Example enumerate_paths_scenario :
  enumerate_paths root_bset =
    Ok [((1 * 0.7 * 0.6)%Q, [b1; c1]); ((1 * 0.3 * 0.6)%Q, [b1; c2]);
        ((1 * 0.4)%Q, [b2])] ∧
  enumerate_paths collapsed_root =
    Ok [((1 * 0.7 * 1)%Q, [with_weight b1 1; c1]);
        ((1 * 0.3 * 1)%Q, [with_weight b1 1; c2])].
Proof. split; reflexivity. Qed.

(** ** Seeded sampling *)

Lemma pick_length {A} (objs : list A) idxs out :
  pick objs idxs = Ok out → length out = length idxs.
Proof.
  revert out. induction idxs as [|i idxs IH]; intros out; simpl.
  - by intros [= <-].
  - destruct (objs !! i); [|done].
    destruct (pick objs idxs) as [objs'|]; simpl; [|done].
    intros [= <-]. simpl. f_equal. by apply IH.
Qed.

Lemma pick_in_range {A} (objs : list A) idxs :
  Forall (λ i, (i < length objs)%nat) idxs →
  ∃ out, pick objs idxs = Ok out ∧ Forall (λ o, o ∈ objs) out.
Proof.
  induction 1 as [|i idxs Hi _ (out & IH & Hout)]; simpl.
  - by exists [].
  - destruct (lookup_lt_is_Some_2 objs i Hi) as [o Ho]. rewrite Ho, IH. simpl.
    exists (o :: out). split; [done|]. constructor; [|done].
    by eapply list_elem_of_lookup_2.
Qed.

Lemma collect_weights_length {A} (weight_of : A → Weight) objs acc ws :
  collect_weights weight_of objs acc = Ok ws →
  length ws = (length acc + length objs)%nat.
Proof.
  revert acc. induction objs as [|o objs IH]; intros acc; simpl.
  - intros [= <-]. lia.
  - destruct (weight_of o) as [w|d].
    + intros H%IH. rewrite H, length_app. simpl. lia.
    + destruct (dict_get d "weight") as [w|]; simpl; [|done].
      intros H%IH. rewrite H, length_app. simpl. lia.
Qed.

(** C6: two calls of [sample] on the same sequence of weighted objects,
    with the same number of samples and the same seed, have the same
    outcome whatever the state of the global generator before each call;
    a returned result is a list of exactly [num_samples] objects of the
    sequence, and the call does return such a list when the weights are a
    probability vector and the seed is a 32-bit unsigned integer. *)
Theorem sample_deterministic {A} (np : NumpyRandom) (weight_of : A → Weight)
    (weighted_objects : list A) (num_samples : nat) (seed : Z) :
  NumpyContract np →
  (∀ g1 g2,
     (sample np weight_of weighted_objects num_samples seed g1).1 =
     (sample np weight_of weighted_objects num_samples seed g2).1) ∧
  (∀ g out,
     (sample np weight_of weighted_objects num_samples seed g).1 = Ok out →
     length out = num_samples ∧ Forall (λ o, o ∈ weighted_objects) out) ∧
  (∀ g weights,
     collect_weights weight_of weighted_objects [] = Ok weights →
     probabilities weights → (0 <= seed < 2 ^ 32)%Z →
     ∃ out,
       (sample np weight_of weighted_objects num_samples seed g).1 = Ok out ∧
       length out = num_samples).
Proof.
  intros Hnp. split; [|split].
  - intros g1 g2. unfold sample.
    destruct (collect_weights weight_of weighted_objects []) as [ws|]; [|done].
    destruct (np_seed np seed) as [g|]; [|done].
    by destruct (np_choice np (length ws) num_samples ws g) as [[idxs|] g'].
  - intros g out. unfold sample.
    destruct (collect_weights weight_of weighted_objects []) as [ws|] eqn:Hws;
      [|done].
    destruct (np_seed np seed) as [g0|]; [|done].
    destruct (np_choice np (length ws) num_samples ws g0) as [[idxs|] g']
      eqn:Hch; [|done].
    simpl. intros Hpick.
    destruct (choice_sized np Hnp _ _ _ _ _ _ Hch) as [Hlen Hidx].
    apply collect_weights_length in Hws. simpl in Hws. rewrite Hws in Hidx.
    destruct (pick_in_range weighted_objects idxs Hidx) as (out' & Ho & Hin).
    rewrite Hpick in Ho. injection Ho as <-.
    split; [|done]. apply pick_length in Hpick. congruence.
  - intros g ws Hws Hp Hseed. unfold sample. rewrite Hws.
    destruct (seed_total np Hnp seed Hseed) as [g0 ->].
    destruct (choice_total np Hnp num_samples ws g0 Hp) as (idxs & g' & Hch).
    rewrite Hch. simpl.
    destruct (choice_sized np Hnp _ _ _ _ _ _ Hch) as [Hlen Hidx].
    apply collect_weights_length in Hws. simpl in Hws. rewrite Hws in Hidx.
    destruct (pick_in_range weighted_objects idxs Hidx) as (out & Ho & Hin).
    exists out. split; [done|]. apply pick_length in Ho. congruence.
Qed.

Lemma probabilities_b_spec p : probabilities_b p = true → probabilities p.
Proof.
  unfold probabilities_b, probabilities.
  intros [[Hne Hpos]%andb_true_iff Hsum]%andb_true_iff.
  split; [|split].
  - by destruct p.
  - apply Forall_forall. intros w Hw. apply Qle_bool_iff.
    rewrite forallb_forall in Hpos. by apply Hpos, list_elem_of_In.
  - by apply Qeq_bool_iff.
Qed.

Lemma probabilities_b_complete p : probabilities p → probabilities_b p = true.
Proof.
  unfold probabilities_b, probabilities. intros (Hne & Hpos & Hsum).
  rewrite !andb_true_iff. split; [split|].
  - by destruct p.
  - apply forallb_forall. intros w Hw%list_elem_of_In. apply Qle_bool_iff.
    rewrite Forall_forall in Hpos. by apply Hpos.
  - by apply Qeq_bool_iff.
Qed.

Lemma counter_rng_contract : NumpyContract counter_rng.
Proof.
  split.
  - intros a size p g idxs g'. simpl.
    destruct (probabilities_b p && (a =? length p)%nat) eqn:Hok; [|done].
    intros [= <- <-]. rewrite length_map, length_seq. split; [done|].
    apply andb_true_iff in Hok as [Hp Ha]. apply Nat.eqb_eq in Ha.
    apply probabilities_b_spec in Hp as [Hne _].
    assert (a ≠ 0%nat) by (destruct p; simpl in *; [done|lia]).
    apply Forall_map, Forall_forall. intros i _.
    pose proof (Z.mod_pos_bound (g + Z.of_nat i) (Z.of_nat a)). lia.
  - intros size p g Hp. simpl.
    rewrite (probabilities_b_complete p Hp), Nat.eqb_refl. simpl. eauto.
  - intros seed Hseed. simpl.
    destruct (Z.leb_spec 0 seed), (Z.ltb_spec seed (2 ^ 32)); try lia.
    simpl. eauto.
Qed.

Lemma sample_deterministic_witness :
  (sample counter_rng (λ b, WFloat (br_weight b)) [b1; b2] 5 42 7%Z).1 =
  (sample counter_rng (λ b, WFloat (br_weight b)) [b1; b2] 5 42 1234%Z).1 ∧
  ∃ out,
    (sample counter_rng (λ b, WFloat (br_weight b)) [b1; b2] 5 42 7%Z).1 =
      Ok out ∧
    length out = 5%nat.
Proof.
  destruct (sample_deterministic counter_rng (λ b, WFloat (br_weight b))
              [b1; b2] 5 42 counter_rng_contract) as (Hdet & _ & Htot).
  split; [apply Hdet|].
  apply (Htot 7%Z [0.6; 0.4]%Q); [reflexivity| |lia].
  apply probabilities_b_spec. reflexivity.
Defined.

(** ** The object store *)

Lemma unpacked_run value n k (handler : list Value → M unit)
    (source : addr) σ :
  (∀ items, length items = n →
     handler items = modify (k items).1 source (k items).2) →
  (∀ items, length items ≠ n → handler items = raise ValueError) →
  (do items <- lift (unpack value); handler items) σ =
  match unpacked value n k with
  | Ok (t, md) => modify t source md σ
  | Raise e => (Raise e, σ)
  end.
Proof.
  intros Hn Hne. unfold unpacked, bind, lift.
  destruct (unpack value) as [items|e]; simpl; [|done].
  destruct (Nat.eqb_spec (length items) n) as [Heq|Hneq].
  - rewrite (Hn _ Heq). by destruct (k items).
  - by rewrite (Hne _ Hneq).
Qed.

Lemma apply_uncertainty_effect utype source value σ :
  apply_uncertainty utype source value σ =
  match uncertainty_effect utype value with
  | Ok (target, md) => modify target source md σ
  | Raise e => (Raise e, σ)
  end.
Proof.
  unfold apply_uncertainty, uncertainty_effect, registered.
  cbn [registry_get].
  repeat (match goal with
          | |- context [String.eqb ?k utype] =>
              destruct (String.eqb k utype)
          end; [try done|]); try done.
  - unfold _simple_fault_geom_absolute.
    apply (unpacked_run _ 5); intros items Hl.
    + by do 6 (destruct items as [|? items]; try done).
    + by do 6 (destruct items as [|? items]; try done).
  - unfold _complex_fault_geom_absolute.
    apply (unpacked_run _ 2); intros items Hl.
    + by do 3 (destruct items as [|? items]; try done).
    + by do 3 (destruct items as [|? items]; try done).
  - unfold _abGR_absolute.
    apply (unpacked_run _ 2); intros items Hl.
    + by do 3 (destruct items as [|? items]; try done).
    + by do 3 (destruct items as [|? items]; try done).
  - unfold _incMFD_absolute.
    apply (unpacked_run _ 3); intros items Hl.
    + by do 4 (destruct items as [|? items]; try done).
    + by do 4 (destruct items as [|? items]; try done).
Qed.

Ltac unfold_ops :=
  cbv beta iota delta
    [source_modify mfd_modify set_scaling_rate deepcopy_source
     copy_source add_changes extend_sources bind ret raise lift
     get_source set_source new_source get_mfd set_mfd new_mfd
     get_list set_list new_list get_group set_group new_group] in *.

Lemma prefix_insert_fresh {A} (l0 l : list A) a x :
  l0 `prefix_of` l → (length l0 ≤ a)%nat → l0 `prefix_of` <[a := x]> l.
Proof.
  intros [k ->] Ha. rewrite insert_app_r_alt by done. by eexists.
Qed.

Lemma prefix_snoc {A} (l0 l : list A) x :
  l0 `prefix_of` l → l0 `prefix_of` l ++ [x].
Proof. intros. by apply prefix_app_r. Qed.

Lemma stable_refl σ : stable σ σ.
Proof. intros a s Hs. eauto. Qed.

Lemma stable_trans σ1 σ2 σ3 : stable σ1 σ2 → stable σ2 σ3 → stable σ1 σ3.
Proof.
  intros H12 H23 a s Hs.
  destruct (H12 a s Hs) as (s2 & Hs2 & Hm2 & Hc2 & Hi2).
  destruct (H23 a s2 Hs2) as (s3 & Hs3 & Hm3 & Hc3 & Hi3).
  exists s3. repeat split; congruence.
Qed.

Lemma src_step_refl σ : src_step σ σ.
Proof. split; [apply stable_refl|done]. Qed.

Lemma src_step_trans σ1 σ2 σ3 :
  src_step σ1 σ2 → src_step σ2 σ3 → src_step σ1 σ3.
Proof.
  intros (H1 & Hl1 & Hg1) (H2 & Hl2 & Hg2).
  split; [by eapply stable_trans|]. split; congruence.
Qed.

Lemma private_stable σ0 σ σ' a :
  private σ0 σ a → stable σ σ' → private σ0 σ' a.
Proof.
  intros [Ha (s & Hs & Hm)] Hst.
  destruct (Hst a s Hs) as (s' & Hs' & Hm' & _).
  split; [done|]. exists s'. split; [done|]. by rewrite Hm'.
Qed.

Lemma stable_insert σ a s s' mfds lists groups :
  st_sources σ !! a = Some s →
  mfd s' = mfd s → code s' = code s → source_id s' = source_id s →
  stable σ (mkStore (<[a := s']> (st_sources σ)) mfds lists groups).
Proof.
  intros Hs Hm Hc Hi b sb Hb. simpl.
  destruct (decide (a = b)) as [<-|Hne].
  - exists s'. rewrite list_lookup_insert_eq by by eapply lookup_lt_Some.
    split; [done|]. simplify_eq. done.
  - exists sb. by rewrite list_lookup_insert_ne.
Qed.

Lemma stable_snoc σ s' mfds lists groups :
  stable σ (mkStore (st_sources σ ++ [s']) mfds lists groups).
Proof.
  intros b sb Hb. exists sb. simpl. split; [|done].
  by apply lookup_app_l_Some.
Qed.

Lemma stable_same σ mfds lists groups :
  stable σ (mkStore (st_sources σ) mfds lists groups).
Proof. intros b sb Hb. by exists sb. Qed.

(** *** Steps on sources *)

Lemma source_modify_step a name params σ r σ' :
  source_modify a name params σ = (r, σ') →
  src_step σ σ' ∧
  (∀ σ0, src_ext σ0 σ → (length (st_sources σ0) ≤ a)%nat → src_ext σ0 σ').
Proof.
  unfold_ops. destruct (st_sources σ !! a) as [s|] eqn:Hs; intros [= <- <-].
  - split; [split; [by eapply stable_insert|done]|].
    intros σ0 [Hsrc Hmfd] Ha. split; simpl; [|done].
    by apply prefix_insert_fresh.
  - split; [apply src_step_refl|done].
Qed.

Lemma set_scaling_rate_step a w σ r σ' :
  set_scaling_rate a w σ = (r, σ') →
  src_step σ σ' ∧
  (∀ σ0, src_ext σ0 σ → (length (st_sources σ0) ≤ a)%nat → src_ext σ0 σ').
Proof.
  unfold_ops. destruct (st_sources σ !! a) as [s|] eqn:Hs; intros [= <- <-].
  - split; [split; [by eapply stable_insert|done]|].
    intros σ0 [Hsrc Hmfd] Ha. split; simpl; [|done].
    by apply prefix_insert_fresh.
  - split; [apply src_step_refl|done].
Qed.

Lemma mfd_modify_step a name params σ r σ' :
  mfd_modify a name params σ = (r, σ') →
  src_step σ σ' ∧
  (∀ σ0, src_ext σ0 σ → private σ0 σ a → src_ext σ0 σ').
Proof.
  unfold_ops. destruct (st_sources σ !! a) as [s|] eqn:Hs.
  - destruct (mfd s) as [m|] eqn:Hm.
    + destruct (st_mfds σ !! m) as [mo|] eqn:Hmo; intros [= <- <-].
      * split; [split; [apply stable_same|done]|].
        intros σ0 [Hsrc Hmfd] [_ (s' & Hs' & Hpriv)]. split; simpl; [done|].
        apply prefix_insert_fresh; [done|]. apply Hpriv. congruence.
      * split; [apply src_step_refl|done].
    + intros [= <- <-]. split; [apply src_step_refl|done].
  - intros [= <- <-]. split; [apply src_step_refl|done].
Qed.

Lemma modify_step target a md σ r σ' :
  modify target a md σ = (r, σ') →
  src_step σ σ' ∧
  (∀ σ0, src_ext σ0 σ → private σ0 σ a → src_ext σ0 σ').
Proof.
  destruct target; simpl.
  - intros [Hstep Hext]%source_modify_step. split; [done|].
    intros σ0 H0 [Ha _]. by apply Hext.
  - apply mfd_modify_step.
Qed.

Lemma apply_uncertainty_step utype a value σ r σ' :
  apply_uncertainty utype a value σ = (r, σ') →
  src_step σ σ' ∧
  (∀ σ0, src_ext σ0 σ → private σ0 σ a → src_ext σ0 σ').
Proof.
  rewrite apply_uncertainty_effect.
  destruct (uncertainty_effect utype value) as [[target md]|e].
  - apply modify_step.
  - intros [= <- <-]. split; [apply src_step_refl|done].
Qed.

Lemma deepcopy_source_step a σ r σ' :
  deepcopy_source a σ = (r, σ') →
  src_step σ σ' ∧
  (∀ σ0, src_ext σ0 σ → src_ext σ0 σ') ∧
  (∀ n, r = Ok n →
     n = length (st_sources σ) ∧
     ∃ s, st_sources σ !! a = Some s ∧
          st_sources σ' = st_sources σ ++
            [with_mfd s (match mfd s with
                         | Some _ => Some (length (st_mfds σ))
                         | None => None
                         end)]).
Proof.
  unfold_ops. destruct (st_sources σ !! a) as [s|] eqn:Hs.
  - destruct (mfd s) as [m|] eqn:Hm.
    + destruct (st_mfds σ !! m) as [mo|] eqn:Hmo; intros [= <- <-].
      * split; [split; [apply stable_snoc|done]|]. split.
        -- intros σ0 [Hsrc Hmfd]. split; simpl; by apply prefix_snoc.
        -- intros n [= <-]. split; [done|]. exists s. by rewrite Hm.
      * split; [apply src_step_refl|]. split; [done|]. intros n [=].
    + intros [= <- <-]. split; [split; [apply stable_snoc|done]|]. split.
      * intros σ0 [Hsrc Hmfd]. split; simpl; [by apply prefix_snoc|done].
      * intros n [= <-]. split; [done|]. exists s. by rewrite Hm.
  - intros [= <- <-]. split; [apply src_step_refl|]. split; [done|].
    intros n [=].
Qed.

Lemma deepcopy_source_private a σ n σ' σ0 :
  deepcopy_source a σ = (Ok n, σ') → src_ext σ0 σ → private σ0 σ' n.
Proof.
  intros (_ & _ & Hn)%deepcopy_source_step [Hsrc Hmfd].
  destruct (Hn n eq_refl) as (-> & s & Hs & Hsrc').
  split; [by apply prefix_length|].
  eexists. split.
  - rewrite Hsrc'. by apply list_lookup_middle.
  - simpl. intros m. destruct (mfd s); intros [= <-].
    by apply prefix_length.
Qed.

Lemma copy_source_step a σ r σ' :
  copy_source a σ = (r, σ') →
  src_step σ σ' ∧
  (∀ σ0, src_ext σ0 σ → src_ext σ0 σ') ∧
  (∀ n, r = Ok n →
     n = length (st_sources σ) ∧
     ∃ s, st_sources σ !! a = Some s ∧
          st_sources σ' = st_sources σ ++ [s] ∧ st_mfds σ' = st_mfds σ).
Proof.
  unfold_ops. destruct (st_sources σ !! a) as [s|] eqn:Hs; intros [= <- <-].
  - split; [split; [apply stable_snoc|done]|]. split.
    + intros σ0 [Hsrc Hmfd]. split; simpl; [by apply prefix_snoc|done].
    + intros n [= <-]. split; [done|]. by exists s.
  - split; [apply src_step_refl|]. split; [done|]. intros n [=].
Qed.

Lemma fan_out_step utype src branches srcs σ r σ' :
  fan_out utype src branches srcs σ = (r, σ') →
  src_step σ σ' ∧
  (∀ σ0, src_ext σ0 σ → private σ0 σ src →
     src_ext σ0 σ' ∧
     (Forall (λ a, (length (st_sources σ0) ≤ a)%nat) srcs →
      ∀ outs, r = Ok outs →
        Forall (λ a, (length (st_sources σ0) ≤ a)%nat) outs)).
Proof.
  revert srcs σ. induction branches as [|br rest IH]; intros srcs σ; simpl.
  - intros [= <- <-]. split; [apply src_step_refl|].
    intros σ0 Hext _. split; [done|]. by intros Hs outs [= <-].
  - unfold bind at 1.
    destruct (deepcopy_source src σ) as [[newsrc|e] σ1] eqn:Hcopy.
    2:{ intros [= <- <-]. apply deepcopy_source_step in Hcopy as (H1 & H2 & _).
        split; [done|]. intros σ0 Hext _. split; [by apply H2|].
        by intros _ outs [=]. }
    pose proof (deepcopy_source_step _ _ _ _ Hcopy) as (Hs1 & He1 & _).
    unfold bind at 1.
    destruct (set_scaling_rate newsrc (br_weight br) σ1) as [[[]|e] σ2]
      eqn:Hrate;
      pose proof (set_scaling_rate_step _ _ _ _ _ Hrate) as (Hs2 & He2).
    2:{ intros [= <- <-]. split; [by eapply src_step_trans|].
        intros σ0 Hext _. split; [|by intros _ outs [=]].
        apply He2; [by apply He1|].
        by apply (deepcopy_source_private _ _ _ _ σ0) in Hcopy as [? _]. }
    unfold bind at 1.
    destruct (apply_uncertainty utype newsrc (br_value br) σ2)
      as [[[]|e] σ3] eqn:Happ;
      pose proof (apply_uncertainty_step _ _ _ _ _ _ Happ) as (Hs3 & He3).
    2:{ intros [= <- <-].
        split; [eapply src_step_trans; [|done]; by eapply src_step_trans|].
        intros σ0 Hext _. split; [|by intros _ outs [=]].
        pose proof (deepcopy_source_private _ _ _ _ σ0 Hcopy Hext) as Hp.
        apply He3; [apply He2; [by apply He1|apply Hp]|].
        eapply private_stable; [done|apply Hs2]. }
    intros Hrest. apply IH in Hrest as (Hs4 & He4).
    split.
    { eapply src_step_trans; [|done].
      eapply src_step_trans; [|done]. by eapply src_step_trans. }
    intros σ0 Hext Hpriv.
    pose proof (deepcopy_source_private _ _ _ _ σ0 Hcopy Hext) as Hp.
    assert (src_ext σ0 σ3) as Hext3.
    { apply He3; [apply He2; [by apply He1|apply Hp]|].
      eapply private_stable; [done|apply Hs2]. }
    assert (private σ0 σ3 src) as Hpriv3.
    { eapply private_stable; [|apply Hs3].
      eapply private_stable; [|apply Hs2].
      eapply private_stable; [done|apply Hs1]. }
    destruct (He4 σ0 Hext3 Hpriv3) as [Hext4 Houts].
    split; [done|]. intros Hsrcs. apply Houts.
    apply Forall_app. split; [done|]. constructor; [apply Hp|constructor].
Qed.

(** *** Steps on the group under construction *)

Lemma src_step_building σ0 σ σ' sg :
  src_step σ σ' → src_ext σ0 σ' → building σ0 σ sg → building σ0 σ' sg.
Proof.
  intros (_ & Hl & Hg) Hext [[_ [Hls Hgs]] (Hsg & g & items & H)].
  split; [split; [done|split; congruence]|].
  split; [done|]. exists g, items. by rewrite Hl, Hg.
Qed.

Lemma add_changes_step sg n σ r σ' :
  add_changes sg n σ = (r, σ') →
  st_sources σ' = st_sources σ ∧ st_mfds σ' = st_mfds σ ∧
  (∀ σ0, building σ0 σ sg → building σ0 σ' sg).
Proof.
  unfold_ops. destruct (st_groups σ !! sg) as [g|] eqn:Hg; intros [= <- <-].
  - split; [done|]. split; [done|].
    intros σ0 [[Hsrc [Hls Hgs]] (Hsg & g' & items & Hg' & Hl & Hitems)].
    split; [split; [done|split; simpl; [done|]]|].
    + by apply prefix_insert_fresh.
    + split; [done|]. simplify_eq. eexists _, items. simpl.
      rewrite list_lookup_insert_eq by by eapply lookup_lt_Some. done.
  - done.
Qed.

Lemma extend_sources_step sg srcs σ r σ' :
  extend_sources sg srcs σ = (r, σ') →
  st_sources σ' = st_sources σ ∧ st_mfds σ' = st_mfds σ ∧
  (∀ σ0, building σ0 σ sg →
     Forall (λ a, (length (st_sources σ0) ≤ a)%nat) srcs →
     building σ0 σ' sg).
Proof.
  unfold_ops. destruct (st_groups σ !! sg) as [g|] eqn:Hg.
  - destruct (st_lists σ !! sg_sources g) as [items|] eqn:Hl;
      intros [= <- <-]; [|done].
    split; [done|]. split; [done|].
    intros σ0 [[Hsrc [Hls Hgs]] (Hsg & g' & items' & Hg' & Hfresh & Hl' & Hi)]
      Hsrcs.
    simplify_eq.
    split; [split; [done|split; simpl; [|done]]|].
    + by apply prefix_insert_fresh.
    + split; [done|]. eexists g, _. simpl.
      rewrite list_lookup_insert_eq by by eapply lookup_lt_Some.
      repeat split; try done. by apply Forall_app.
  - by intros [= <- <-].
Qed.

Lemma stable_of_eq σ σ' : st_sources σ' = st_sources σ → stable σ σ'.
Proof. intros Heq a s Hs. exists s. by rewrite Heq. Qed.

Lemma src_ext_of_eq σ0 σ σ' :
  st_sources σ' = st_sources σ → st_mfds σ' = st_mfds σ →
  src_ext σ0 σ → src_ext σ0 σ'.
Proof. intros Hs Hm [? ?]. split; congruence. Qed.

Lemma apply_pairs_step sg src zipped srcs σ r σ' :
  apply_pairs sg src zipped srcs σ = (r, σ') →
  stable σ σ' ∧
  (∀ σ0, building σ0 σ sg → private σ0 σ src →
     Forall (λ a, (length (st_sources σ0) ≤ a)%nat) srcs →
     building σ0 σ' sg ∧
     ∀ outs, r = Ok outs →
       Forall (λ a, (length (st_sources σ0) ≤ a)%nat) outs).
Proof.
  revert srcs σ.
  induction zipped as [|[[bset value] ok] rest IH]; intros srcs σ; simpl.
  - intros [= <- <-]. split; [apply stable_refl|].
    intros σ0 Hb _ Hs. split; [done|]. by intros outs [= <-].
  - destruct (ok && bs_collapsed bset) eqn:Hcase; [|destruct ok].
    + unfold bind at 1, get_source at 1.
      destruct (st_sources σ !! src) as [s|] eqn:Hs.
      2:{ intros [= <- <-]. split; [apply stable_refl|].
          intros σ0 Hb _ _. split; [done|]. by intros outs [=]. }
      destruct (String.eqb (code s) "N").
      { intros [= <- <-]. split; [apply stable_refl|].
        intros σ0 Hb _ _. split; [done|]. by intros outs [=]. }
      unfold bind at 1.
      destruct (fan_out _ src (bs_branches bset) srcs σ) as [[srcs1|e] σ1]
        eqn:Hfan; pose proof (fan_out_step _ _ _ _ _ _ _ Hfan) as (Hs1 & He1).
      2:{ intros [= <- <-]. split; [apply Hs1|].
          intros σ0 Hb Hp _. split; [|by intros outs [=]].
          eapply src_step_building; [done| |done].
          by apply He1; [apply Hb|]. }
      unfold bind at 1.
      destruct (add_changes sg _ σ1) as [[[]|e] σ2] eqn:Hadd;
        pose proof (add_changes_step _ _ _ _ _ Hadd) as (Hsrc2 & Hmfd2 & Hb2).
      2:{ intros [= <- <-].
          split; [eapply stable_trans; [apply Hs1|by apply stable_of_eq]|].
          intros σ0 Hb Hp _. split; [|by intros outs [=]].
          apply Hb2. eapply src_step_building; [done| |done].
          by apply He1; [apply Hb|]. }
      intros Hrest. apply IH in Hrest as (Hs3 & Hb3).
      split.
      { eapply stable_trans; [apply Hs1|].
        eapply stable_trans; [by apply stable_of_eq|done]. }
      intros σ0 Hb Hp Hsrcs.
      destruct (He1 σ0 (proj1 (proj1 Hb)) Hp) as [Hext1 Houts1].
      apply Hb3.
      * apply Hb2. by eapply src_step_building.
      * eapply private_stable; [|by apply stable_of_eq].
        eapply private_stable; [done|apply Hs1].
      * by apply Houts1.
    + unfold bind at 1.
      destruct (apply_uncertainty _ src value σ) as [[[]|e] σ1] eqn:Happ;
        pose proof (apply_uncertainty_step _ _ _ _ _ _ Happ) as (Hs1 & He1).
      2:{ intros [= <- <-]. split; [apply Hs1|].
          intros σ0 Hb Hp _. split; [|by intros outs [=]].
          eapply src_step_building; [done| |done].
          by apply He1; [apply Hb|]. }
      unfold bind at 1.
      destruct (add_changes sg 1 σ1) as [[[]|e] σ2] eqn:Hadd;
        pose proof (add_changes_step _ _ _ _ _ Hadd) as (Hsrc2 & Hmfd2 & Hb2).
      2:{ intros [= <- <-].
          split; [eapply stable_trans; [apply Hs1|by apply stable_of_eq]|].
          intros σ0 Hb Hp _. split; [|by intros outs [=]].
          apply Hb2. eapply src_step_building; [done| |done].
          by apply He1; [apply Hb|]. }
      intros Hrest. apply IH in Hrest as (Hs3 & Hb3).
      split.
      { eapply stable_trans; [apply Hs1|].
        eapply stable_trans; [by apply stable_of_eq|done]. }
      intros σ0 Hb Hp Hsrcs.
      apply Hb3.
      * apply Hb2. eapply src_step_building; [done| |done].
        by apply He1; [apply Hb|].
      * eapply private_stable; [|by apply stable_of_eq].
        eapply private_stable; [done|apply Hs1].
      * destruct srcs; [|done]. constructor; [apply Hp|constructor].
    + apply IH.
Qed.

Lemma apply_to_source_step pairs sg a σ r σ' :
  apply_to_source pairs sg a σ = (r, σ') →
  stable σ σ' ∧ (∀ σ0, building σ0 σ sg → building σ0 σ' sg).
Proof.
  unfold apply_to_source. unfold bind at 1, get_source at 1.
  destruct (st_sources σ !! a) as [s|] eqn:Hs.
  2:{ intros [= <- <-]. split; [apply stable_refl|done]. }
  unfold bind at 1, lift at 1.
  destruct (filter_all pairs s) as [oks|e].
  2:{ intros [= <- <-]. split; [apply stable_refl|done]. }
  unfold bind at 1.
  destruct (negb (sum_bools oks =? 0)%nat).
  - unfold bind at 1.
    destruct (deepcopy_source a σ) as [[src|e] σ1] eqn:Hcopy;
      pose proof (deepcopy_source_step _ _ _ _ Hcopy) as (Hs1 & He1 & _).
    2:{ intros [= <- <-]. split; [apply Hs1|].
        intros σ0 Hb. eapply src_step_building; [done| |done].
        apply He1, Hb. }
    destruct (apply_pairs sg src (zip pairs oks) [] σ1) as [[srcs|e] σ2]
      eqn:Hpairs;
      pose proof (apply_pairs_step _ _ _ _ _ _ _ Hpairs) as (Hs2 & Hb2).
    2:{ intros [= <- <-]. split; [eapply stable_trans; [apply Hs1|done]|].
        intros σ0 Hb. apply Hb2; [|by eapply deepcopy_source_private, Hb|done].
        eapply src_step_building; [done| |done]. apply He1, Hb. }
    intros Hext.
    pose proof (extend_sources_step _ _ _ _ _ Hext) as (Hsrc3 & Hmfd3 & Hb3).
    split.
    { eapply stable_trans; [apply Hs1|].
      eapply stable_trans; [done|by apply stable_of_eq]. }
    intros σ0 Hb.
    destruct (Hb2 σ0) as [Hb' Houts]; [| |done|].
    + eapply src_step_building; [done| |done]. apply He1, Hb.
    + by eapply deepcopy_source_private, Hb.
    + apply Hb3; [done|]. by apply Houts.
  - unfold bind at 1.
    destruct (copy_source a σ) as [[c|e] σ1] eqn:Hcopy;
      pose proof (copy_source_step _ _ _ _ Hcopy) as (Hs1 & He1 & Hn).
    2:{ intros [= <- <-]. split; [apply Hs1|].
        intros σ0 Hb. eapply src_step_building; [done| |done].
        apply He1, Hb. }
    unfold ret. intros Hext.
    pose proof (extend_sources_step _ _ _ _ _ Hext) as (Hsrc3 & Hmfd3 & Hb3).
    split; [eapply stable_trans; [apply Hs1|by apply stable_of_eq]|].
    intros σ0 Hb. apply Hb3.
    + eapply src_step_building; [done| |done]. apply He1, Hb.
    + destruct (Hn c eq_refl) as [-> _]. constructor; [|constructor].
      apply prefix_length, Hb.
Qed.

Lemma each_source_step pairs sg sources σ r σ' :
  each_source pairs sg sources σ = (r, σ') →
  stable σ σ' ∧ (∀ σ0, building σ0 σ sg → building σ0 σ' sg).
Proof.
  revert σ. induction sources as [|a rest IH]; intros σ; simpl.
  - intros [= <- <-]. split; [apply stable_refl|done].
  - unfold bind at 1.
    destruct (apply_to_source pairs sg a σ) as [[[]|e] σ1] eqn:Hone;
      pose proof (apply_to_source_step _ _ _ _ _ _ Hone) as (Hs1 & Hb1).
    + intros (Hs2 & Hb2)%IH. split; [by eapply stable_trans|].
      intros σ0 Hb. by apply Hb2, Hb1.
    + by intros [= <- <-].
Qed.

Lemma unchanged_refl σ : unchanged σ σ.
Proof. by repeat split. Qed.

(** The state of the store once the new group and its empty list of
    sources have been created. *)
Lemma new_group_building σ g :
  building σ
    (mkStore (st_sources σ) (st_mfds σ) (st_lists σ ++ [[]])
       (<[length (st_groups σ) :=
            with_changes (with_sources g (length (st_lists σ))) 0]>
          (<[length (st_groups σ) := with_sources g (length (st_lists σ))]>
             (st_groups σ ++ [g]))))
    (length (st_groups σ)).
Proof.
  split; [split; split; simpl; try done|].
  - by apply prefix_app_r.
  - do 2 (apply prefix_insert_fresh; [|done]). by apply prefix_app_r.
  - split; [done|]. eexists _, []. simpl.
    rewrite list_lookup_insert_eq.
    2:{ rewrite length_insert, length_app. simpl. lia. }
    repeat split; simpl; try done. by apply list_lookup_middle.
Qed.

Lemma apply_uncertainties_step pairs src_group σ r σ' :
  apply_uncertainties pairs src_group σ = (r, σ') →
  unchanged σ σ' ∧
  ∀ sg, r = Ok sg → sg = length (st_groups σ) ∧ new_group_ok σ σ' sg.
Proof.
  unfold apply_uncertainties. unfold bind at 1, get_group at 1.
  destruct (st_groups σ !! src_group) as [g|] eqn:Hg.
  2:{ intros [= <- <-]. split; [apply unchanged_refl|done]. }
  unfold bind at 1, new_group at 1. unfold bind at 1, new_list at 1.
  unfold bind at 1, set_group at 1. unfold bind at 1, set_group at 1.
  cbn [st_sources st_mfds st_lists st_groups].
  pose proof (new_group_building σ g) as Hb.
  unfold bind at 1, get_list at 1. cbn [st_lists].
  destruct ((st_lists σ ++ [[]]) !! sg_sources g) as [sources|].
  2:{ intros [= <- <-]. split; [apply Hb|done]. }
  unfold bind at 1.
  destruct (each_source pairs _ sources _) as [[[]|e] σ1] eqn:Hloop;
    pose proof (each_source_step _ _ _ _ _ _ Hloop) as (_ & Hb1);
    intros [= <- <-]; destruct (Hb1 σ Hb) as [Hun Hnew].
  - split; [done|]. by intros sg [= <-].
  - split; [done|]. by intros sg [=].
Qed.

Lemma apply_to_source_shallow pairs sg a σ s oks g items :
  st_sources σ !! a = Some s →
  filter_all pairs s = Ok oks →
  sum_bools oks = 0%nat →
  st_groups σ !! sg = Some g →
  st_lists σ !! sg_sources g = Some items →
  apply_to_source pairs sg a σ =
    (Ok tt,
     mkStore (st_sources σ ++ [s]) (st_mfds σ)
       (<[sg_sources g := items ++ [length (st_sources σ)]]> (st_lists σ))
       (st_groups σ)).
Proof.
  intros Hs Hoks Hsum Hg Hl. unfold apply_to_source.
  unfold bind at 1, get_source at 1. rewrite Hs.
  unfold bind at 1, lift at 1. rewrite Hoks, Hsum. simpl.
  cbv beta iota delta [bind copy_source ret get_source new_source].
  rewrite Hs.
  cbv beta iota delta [extend_sources bind get_group get_list set_list].
  simpl. rewrite Hg. simpl. by rewrite Hl.
Qed.

(** C2, as stated, fails: with an empty list of pairs the returned group
    holds a shallow copy of the source, whose MFD is the MFD object of the
    input source, so the returned object graph is not distinct from the
    input. *)
Lemma shallow_copy_shares_mfd :
  (apply_uncertainties [] 0 one_source_store).1 = Ok 1%nat ∧
  ¬ distinct_graph one_source_store
      (apply_uncertainties [] 0 one_source_store).2 1.
Proof.
  split; [reflexivity|]. intros [_ Hmfds].
  specialize (Hmfds _ _ eq_refl eq_refl).
  apply Forall_cons in Hmfds as [Hm _]. simpl in Hm. lia.
Qed.

(** C2, amended: for every input group and every list of pairs,
    [apply_uncertainties] leaves every object of the input store
    unchanged, the input group and its sources among them, whether it
    returns or raises; the group it returns is a new object with a new
    list of sources that holds newly created sources only.  A source that
    no pair accepts is copied shallowly: its copy has the attribute values
    of the input source, so it shares the MFD object with it. *)
Theorem apply_uncertainties_frame :
  (∀ pairs src_group σ,
     unchanged σ (apply_uncertainties pairs src_group σ).2 ∧
     ∀ sg, (apply_uncertainties pairs src_group σ).1 = Ok sg →
       sg = length (st_groups σ) ∧
       new_group_ok σ (apply_uncertainties pairs src_group σ).2 sg) ∧
  (∀ pairs sg a σ s oks g items,
     st_sources σ !! a = Some s →
     filter_all pairs s = Ok oks →
     sum_bools oks = 0%nat →
     st_groups σ !! sg = Some g →
     st_lists σ !! sg_sources g = Some items →
     ∃ σ',
       apply_to_source pairs sg a σ = (Ok tt, σ') ∧
       st_lists σ' !! sg_sources g = Some (items ++ [length (st_sources σ)]) ∧
       st_sources σ' !! length (st_sources σ) = Some s ∧
       st_mfds σ' = st_mfds σ).
Proof.
  split.
  - intros pairs src_group σ.
    destruct (apply_uncertainties pairs src_group σ) as [r σ'] eqn:Hrun.
    by apply apply_uncertainties_step in Hrun.
  - intros pairs sg a σ s oks g items Hs Hoks Hsum Hg Hl.
    eexists. split; [by eapply apply_to_source_shallow|]. simpl.
    split; [|split; [|done]].
    + apply list_lookup_insert_eq. by eapply lookup_lt_Some.
    + by apply list_lookup_middle.
Qed.

Lemma apply_uncertainties_frame_witness :
  unchanged one_source_store (apply_uncertainties [] 0 one_source_store).2 ∧
  new_group_ok one_source_store
    (apply_uncertainties [] 0 one_source_store).2 1 ∧
  ∃ σ',
    apply_to_source [] 0 0 one_source_store = (Ok tt, σ') ∧
    st_lists σ' !! 0%nat = Some [0; 1]%nat ∧
    st_sources σ' !! 1%nat = one_source_store.(st_sources) !! 0%nat ∧
    st_mfds σ' = st_mfds one_source_store.
Proof.
  destruct apply_uncertainties_frame as [Hframe Hshallow].
  destruct (Hframe [] 0%nat one_source_store) as [Hun Hnew].
  split; [done|]. split; [by apply Hnew|].
  destruct (Hshallow [] 0%nat 0%nat one_source_store
              (mkSource "s1" "Active Shallow Crust" PointSource "P" None []
                 (Some 0%nat))
              [] (mkSourceGroup [] 0 7) [0%nat]
              eq_refl eq_refl eq_refl eq_refl eq_refl)
    as (σ' & Hrun & Hl & Hs & Hm).
  by exists σ'.
Defined.

(** *** Collapsing and the class code of the source *)

Lemma run_bind {A B} (m : M A) (k : A → M B) σ :
  bind m k σ =
  match m σ with
  | (Ok a, σ') => k a σ'
  | (Raise e, σ') => (Raise e, σ')
  end.
Proof. reflexivity. Qed.

Lemma apply_pairs_app sg src z1 z2 srcs σ :
  apply_pairs sg src (z1 ++ z2) srcs σ =
  match apply_pairs sg src z1 srcs σ with
  | (Ok srcs1, σ1) => apply_pairs sg src z2 srcs1 σ1
  | (Raise e, σ1) => (Raise e, σ1)
  end.
Proof.
  revert srcs σ.
  induction z1 as [|[[bset value] ok] z1 IH]; intros srcs σ; simpl; [done|].
  destruct (ok && bs_collapsed bset); [|destruct ok]; [| |apply IH].
  - rewrite !run_bind. destruct (get_source src σ) as [[s|e] σ1]; [|done].
    destruct (String.eqb (code s) "N"); [done|].
    rewrite !run_bind.
    destruct (fan_out _ src _ srcs σ1) as [[srcs1|e] σ2]; [|done].
    rewrite !run_bind.
    destruct (add_changes sg _ σ2) as [[[]|e] σ3]; [|done]. apply IH.
  - rewrite !run_bind.
    destruct (apply_uncertainty _ src value σ) as [[[]|e] σ1]; [|done].
    rewrite !run_bind.
    destruct (add_changes sg 1 σ1) as [[[]|e] σ2]; [|done]. apply IH.
Qed.

Lemma each_source_app pairs sg l1 l2 σ :
  each_source pairs sg (l1 ++ l2) σ =
  match each_source pairs sg l1 σ with
  | (Ok _, σ1) => each_source pairs sg l2 σ1
  | (Raise e, σ1) => (Raise e, σ1)
  end.
Proof.
  revert σ. induction l1 as [|a l1 IH]; intros σ; simpl; [done|].
  rewrite !run_bind.
  destruct (apply_to_source pairs sg a σ) as [[[]|e] σ1]; [apply IH|done].
Qed.

Lemma apply_pairs_guard sg src bset value rest srcs σ s :
  st_sources σ !! src = Some s →
  code_is_N s = true →
  bs_collapsed bset = true →
  apply_pairs sg src (((bset, value), true) :: rest) srcs σ =
    (Raise (NotImplementedError s), σ).
Proof.
  intros Hs Hn Hc. simpl. rewrite Hc. simpl.
  unfold bind, get_source. rewrite Hs.
  unfold code_is_N in Hn. by rewrite Hn.
Qed.

Lemma filter_all_app p1 bset value p2 s oks :
  filter_all (p1 ++ (bset, value) :: p2) s = Ok oks →
  ∃ o1 ok o2,
    oks = o1 ++ ok :: o2 ∧ length o1 = length p1 ∧
    filter_source bset (Some s) = Ok ok.
Proof.
  revert oks. induction p1 as [|[b v] p1 IH]; intros oks; simpl.
  - destruct (filter_source bset (Some s)) as [ok|]; simpl; [|done].
    destruct (filter_all p2 s) as [o2|]; simpl; [|done].
    intros [= <-]. by exists [], ok, o2.
  - destruct (filter_source b (Some s)) as [ok0|]; simpl; [|done].
    destruct (filter_all _ s) as [oks'|]; simpl; [|done].
    intros [= <-]. destruct (IH oks' eq_refl) as (o1 & ok & o2 & -> & Hl & Hf).
    exists (ok0 :: o1), ok, o2. simpl. by rewrite Hl.
Qed.

Lemma sum_bools_app o1 o2 :
  sum_bools (o1 ++ o2) = (sum_bools o1 + sum_bools o2)%nat.
Proof.
  induction o1 as [|ok o1 IH]; simpl; [done|]. rewrite IH. lia.
Qed.

Lemma apply_pairs_code_N sg src z1 bset value z2 srcs σ s :
  st_sources σ !! src = Some s →
  code_is_N s = true →
  bs_collapsed bset = true →
  ∃ e, (apply_pairs sg src (z1 ++ ((bset, value), true) :: z2) srcs σ).1 =
       Raise e.
Proof.
  intros Hs Hn Hc. rewrite apply_pairs_app.
  destruct (apply_pairs sg src z1 srcs σ) as [[srcs1|e] σ1] eqn:Hrun;
    [|by exists e].
  apply apply_pairs_step in Hrun as [Hst _].
  destruct (Hst src s Hs) as (s1 & Hs1 & _ & Hcode & _).
  erewrite apply_pairs_guard; [by eexists|done| |done].
  unfold code_is_N in *. by rewrite Hcode.
Qed.

Lemma apply_to_source_code_N pairs sg a σ s bset value :
  st_sources σ !! a = Some s →
  code_is_N s = true →
  (bset, value) ∈ pairs →
  bs_collapsed bset = true →
  filter_source bset (Some s) = Ok true →
  ∃ e, (apply_to_source pairs sg a σ).1 = Raise e.
Proof.
  intros Hs Hn Hin Hc Hok.
  apply list_elem_of_split in Hin as (p1 & p2 & ->).
  unfold apply_to_source. unfold bind at 1, get_source at 1. rewrite Hs.
  unfold bind at 1, lift at 1.
  destruct (filter_all _ s) as [oks|e] eqn:Hoks; [|by exists e].
  destruct (filter_all_app _ _ _ _ _ _ Hoks) as (o1 & ok & o2 & -> & Hl & Hf).
  assert (ok = true) as -> by congruence.
  assert ((sum_bools (o1 ++ true :: o2) =? 0)%nat = false) as ->.
  { apply Nat.eqb_neq. rewrite sum_bools_app. simpl. lia. }
  simpl. unfold bind at 1. unfold bind at 1.
  destruct (deepcopy_source a σ) as [[src|e] σ1] eqn:Hcopy; [|by exists e].
  pose proof (deepcopy_source_step _ _ _ _ Hcopy) as (_ & _ & Hn1).
  destruct (Hn1 src eq_refl) as (-> & s' & Hs' & Hsrc1).
  assert (s' = s) as -> by congruence.
  rewrite zip_with_app by done. simpl.
  edestruct (apply_pairs_code_N sg (length (st_sources σ))
               (zip p1 o1) bset value (zip p2 o2) [] σ1) as [e He];
    [rewrite Hsrc1; by apply list_lookup_middle|exact Hn|done|].
  destruct (apply_pairs _ _ _ _ σ1) as [[srcs|e'] σ2]; [done|].
  by exists e'.
Qed.

Lemma each_source_code_N pairs sg l1 a l2 σ0 σ s bset value :
  building σ0 σ sg →
  st_sources σ0 !! a = Some s →
  code_is_N s = true →
  (bset, value) ∈ pairs →
  bs_collapsed bset = true →
  filter_source bset (Some s) = Ok true →
  ∃ e, (each_source pairs sg (l1 ++ a :: l2) σ).1 = Raise e.
Proof.
  intros Hb Hs Hn Hin Hc Hok. rewrite each_source_app.
  destruct (each_source pairs sg l1 σ) as [[[]|e] σ1] eqn:Hrun; [|by exists e].
  apply each_source_step in Hrun as [_ Hb1].
  destruct (Hb1 σ0 Hb) as [[[Hsrc _] _] _].
  assert (st_sources σ1 !! a = Some s) as Hs1.
  { destruct Hsrc as [k ->]. by apply lookup_app_l_Some. }
  destruct (apply_to_source_code_N pairs sg a σ1 s bset value)
    as [e He]; try done.
  simpl. unfold bind at 1.
  destruct (apply_to_source pairs sg a σ1) as [[[]|e'] σ2]; [done|].
  by exists e'.
Qed.

Lemma uncertainty_effect_raises utype value e :
  uncertainty_effect utype value = Raise e → is_not_implemented e = false.
Proof.
  unfold uncertainty_effect, unpacked.
  repeat match goal with
         | |- context [String.eqb ?k utype] => destruct (String.eqb k utype)
         end;
    try (destruct value as [q|str|items]; simpl;
         try match goal with
             | |- context [(?n =? ?m)%nat] => destruct (n =? m)%nat
             end);
    by intros [= <-].
Qed.

Lemma apply_uncertainty_raises utype a value σ e σ' :
  apply_uncertainty utype a value σ = (Raise e, σ') →
  is_not_implemented e = false.
Proof.
  rewrite apply_uncertainty_effect.
  destruct (uncertainty_effect utype value) as [[target md]|e0] eqn:Heff.
  - destruct target; unfold modify; unfold_ops;
      destruct (st_sources σ !! a) as [s|]; try by intros [= <- <-].
    destruct (mfd s) as [m|]; [|by intros [= <- <-]].
    destruct (st_mfds σ !! m); by intros [= <- <-].
  - intros [= <- <-]. by eapply uncertainty_effect_raises.
Qed.

Lemma fan_out_raises utype src branches srcs σ e σ' :
  fan_out utype src branches srcs σ = (Raise e, σ') →
  is_not_implemented e = false.
Proof.
  revert srcs σ. induction branches as [|br rest IH]; intros srcs σ;
    cbn [fan_out]; [done|].
  rewrite run_bind.
  destruct (deepcopy_source src σ) as [[newsrc|e1] σ1] eqn:Hcopy.
  - rewrite run_bind.
    destruct (set_scaling_rate newsrc (br_weight br) σ1) as [[[]|e2] σ2]
      eqn:Hrate.
    + rewrite run_bind.
      destruct (apply_uncertainty utype newsrc (br_value br) σ2)
        as [[[]|e3] σ3] eqn:Happly; [apply IH|].
      intros [= <- <-]. by eapply apply_uncertainty_raises.
    + intros [= <- <-]. revert Hrate. unfold_ops.
      destruct (st_sources σ1 !! newsrc); by intros [= <- <-].
  - intros [= <- <-]. revert Hcopy. unfold_ops.
    destruct (st_sources σ !! src) as [s|]; [|by intros [= <- <-]].
    destruct (mfd s) as [m|]; [|done].
    destruct (st_mfds σ !! m); [done|by intros [= <- <-]].
Qed.

Lemma add_changes_raises sg n σ e σ' :
  add_changes sg n σ = (Raise e, σ') → is_not_implemented e = false.
Proof.
  unfold_ops. destruct (st_groups σ !! sg); by intros [= <- <-].
Qed.

Lemma apply_pairs_not_implemented sg src zipped :
  ∀ srcs σ s e σ',
    st_sources σ !! src = Some s →
    apply_pairs sg src zipped srcs σ = (Raise e, σ') →
    is_not_implemented e = true →
    code_is_N s = true.
Proof.
  induction zipped as [|[[bset value] ok] rest IH];
    intros srcs σ s e σ' Hs; cbn [apply_pairs]; [done|].
  destruct (ok && bs_collapsed bset) eqn:Hcol; [|destruct ok].
  - rewrite run_bind. unfold get_source at 1. rewrite Hs.
    unfold code_is_N. destruct (String.eqb (code s) "N") eqn:Hcode; [done|].
    rewrite run_bind.
    destruct (fan_out _ src _ srcs σ) as [[srcs1|e1] σ1] eqn:Hfan.
    + rewrite run_bind.
      destruct (add_changes sg _ σ1) as [[[]|e2] σ2] eqn:Hadd.
      * apply fan_out_step in Hfan as [[Hst _] _].
        apply add_changes_step in Hadd as [Hsame _].
        destruct (Hst src s Hs) as (s1 & Hs1 & _ & Hcode1 & _).
        rewrite <- Hsame in Hs1. intros Hrun Hni.
        pose proof (IH _ _ _ _ _ Hs1 Hrun Hni) as Hn1.
        unfold code_is_N in Hn1. congruence.
      * intros [= <- <-] Hni.
        apply add_changes_raises in Hadd. congruence.
    + intros [= <- <-] Hni. apply fan_out_raises in Hfan. congruence.
  - rewrite run_bind.
    destruct (apply_uncertainty _ src value σ) as [[[]|e1] σ1] eqn:Happly.
    + rewrite run_bind.
      destruct (add_changes sg 1 σ1) as [[[]|e2] σ2] eqn:Hadd.
      * apply apply_uncertainty_step in Happly as [[Hst _] _].
        apply add_changes_step in Hadd as [Hsame _].
        destruct (Hst src s Hs) as (s1 & Hs1 & _ & Hcode1 & _).
        rewrite <- Hsame in Hs1. intros Hrun Hni.
        pose proof (IH _ _ _ _ _ Hs1 Hrun Hni) as Hn1.
        unfold code_is_N in *. congruence.
      * intros [= <- <-] Hni.
        apply add_changes_raises in Hadd. congruence.
    + intros [= <- <-] Hni. apply apply_uncertainty_raises in Happly.
      congruence.
  - by apply IH.
Qed.

(** C5, as stated, fails: a characteristic fault source with the class
    code [b'X'] whose surface is a multi-surface of two sub-shapes, the
    value that [characteristicFaultGeometryAbsolute] hands to
    [set_geometry], passes the guard.  The collapsed branch set of two
    branches that accepts it is fanned out, and the returned group holds
    two output sources, each still a multi-surface composite. *)
Lemma composite_source_collapsed :
  (apply_uncertainty "characteristicFaultGeometryAbsolute" 0
     (VSeq [VStr "planarSurface"; VStr "simpleFaultGeometry"])
     (mkStore [mkSource "char1" "Active Shallow Crust"
                 CharacteristicFaultSource "X" None [] (Some 0%nat)]
        [mkMfd []] [[0%nat]] [mkSourceGroup [] 0 0])).2 = composite_store ∧
  multi_surface_composite composite_source = true ∧
  code_is_N composite_source = false ∧
  bs_collapsed fan_bset = true ∧
  filter_source fan_bset (Some composite_source) = Ok true ∧
  ∃ σ' g' outs,
    apply_uncertainties [(fan_bset, VNum 0)] 0 composite_store =
      (Ok 1%nat, σ') ∧
    st_groups σ' !! 1%nat = Some g' ∧
    st_lists σ' !! sg_sources g' = Some outs ∧
    length outs = 2%nat ∧
    sg_changes g' = 2%Z ∧
    Forall (λ o, ∃ s, st_sources σ' !! o = Some s ∧
                      multi_surface_composite s = true) outs.
Proof.
  split; [vm_compute; reflexivity|]. split; [vm_compute; reflexivity|].
  split; [vm_compute; reflexivity|]. split; [vm_compute; reflexivity|].
  split; [vm_compute; reflexivity|].
  exists (apply_uncertainties [(fan_bset, VNum 0)] 0 composite_store).2.
  eexists _, _. split; [vm_compute; reflexivity|].
  split; [vm_compute; reflexivity|]. split; [vm_compute; reflexivity|].
  split; [vm_compute; reflexivity|]. split; [vm_compute; reflexivity|].
  constructor; [eexists; split; vm_compute; reflexivity|].
  constructor; [eexists; split; vm_compute; reflexivity|]. constructor.
Qed.

(** C5, amended: what the guard of the collapsed case tests is the class
    code of the source, not the make-up of its surface.  When a source of
    the group has the class code [b'N'] and some collapsed branch set of
    the pairs accepts it, [apply_uncertainties] never returns a group: it
    raises.  The guard itself fails fast: once the pairs that come before
    the collapsed one have been applied to the working copy of such a
    source, the next step raises [NotImplementedError], and the error
    names that copy, which carries the [source_id] and the class code of
    the input source.  Conversely, the loop over the pairs raises
    [NotImplementedError] only for a working copy whose class code is
    [b'N']: a source with another class code is never rejected by the
    guard, whatever its surface is made of. *)
Theorem collapse_code_N_fails :
  (∀ pairs src_group σ g sources a s bset value,
     st_groups σ !! src_group = Some g →
     st_lists σ !! sg_sources g = Some sources →
     a ∈ sources →
     st_sources σ !! a = Some s →
     code_is_N s = true →
     (bset, value) ∈ pairs →
     bs_collapsed bset = true →
     filter_source bset (Some s) = Ok true →
     ∃ e, (apply_uncertainties pairs src_group σ).1 = Raise e) ∧
  (∀ sg src before bset value after srcs σ s srcs1 σ1,
     st_sources σ !! src = Some s →
     code_is_N s = true →
     bs_collapsed bset = true →
     apply_pairs sg src before srcs σ = (Ok srcs1, σ1) →
     ∃ s1,
       st_sources σ1 !! src = Some s1 ∧
       source_id s1 = source_id s ∧
       code_is_N s1 = true ∧
       apply_pairs sg src (before ++ ((bset, value), true) :: after) srcs σ =
         (Raise (NotImplementedError s1), σ1)) ∧
  (∀ sg src zipped srcs σ s s' σ',
     st_sources σ !! src = Some s →
     apply_pairs sg src zipped srcs σ =
       (Raise (NotImplementedError s'), σ') →
     code_is_N s = true).
Proof.
  split; [|split].
  - intros pairs src_group σ g sources a s bset value
      Hg Hl Ha Hs Hn Hin Hc Hok.
    apply list_elem_of_split in Ha as (l1 & l2 & ->).
    unfold apply_uncertainties. unfold bind at 1, get_group at 1. rewrite Hg.
    unfold bind at 1, new_group at 1. unfold bind at 1, new_list at 1.
    unfold bind at 1, set_group at 1. unfold bind at 1, set_group at 1.
    cbn [st_sources st_mfds st_lists st_groups].
    unfold bind at 1, get_list at 1. cbn [st_lists].
    rewrite (lookup_app_l_Some _ _ _ _ Hl).
    destruct (each_source_code_N pairs (length (st_groups σ)) l1 a l2
                σ _ s bset value (new_group_building σ g) Hs Hn Hin Hc Hok)
      as [e He].
    unfold bind at 1.
    destruct (each_source pairs _ _ _) as [[[]|e'] σ1]; [done|].
    by exists e'.
  - intros sg src before bset value after srcs σ s srcs1 σ1 Hs Hn Hc Hrun.
    pose proof (apply_pairs_step _ _ _ _ _ _ _ Hrun) as [Hst _].
    destruct (Hst src s Hs) as (s1 & Hs1 & _ & Hcode & Hid).
    assert (code_is_N s1 = true) as Hn1.
    { unfold code_is_N in *. by rewrite Hcode. }
    exists s1. split; [done|]. split; [done|]. split; [done|].
    rewrite apply_pairs_app, Hrun. by apply apply_pairs_guard.
  - intros sg src zipped srcs σ s s' σ' Hs Hrun.
    by apply (apply_pairs_not_implemented sg src zipped srcs σ s
                (NotImplementedError s') σ' Hs Hrun).
Qed.

Lemma collapse_code_N_fails_witness :
  (∃ e,
     (apply_uncertainties [(plain_bset, VNum 0.2); (fan_bset, VNum 0)] 0
        code_N_store).1 = Raise e) ∧
  (∃ s1,
     st_sources code_N_store !! 0%nat = Some s1 ∧
     source_id s1 = "np1" ∧
     apply_pairs 0 0 ([] ++ ((fan_bset, VNum 0), true) :: []) []
       code_N_store =
       (Raise (NotImplementedError s1), code_N_store)) ∧
  code_is_N code_N_source = true.
Proof.
  destruct collapse_code_N_fails as (Hgroup & Hguard & Honly).
  split; [|split].
  - apply (Hgroup _ 0%nat code_N_store (mkSourceGroup [] 0 0)
             [0%nat] 0%nat code_N_source fan_bset (VNum 0));
      try reflexivity.
    + apply list_elem_of_here.
    + apply list_elem_of_further, list_elem_of_here.
  - destruct (Hguard 0%nat 0%nat [] fan_bset (VNum 0) [] []
                code_N_store code_N_source []
                code_N_store eq_refl eq_refl eq_refl eq_refl)
      as (s1 & Hs1 & Hid & _ & Hrun).
    by exists s1.
  - apply (Honly 0%nat 0%nat [((fan_bset, VNum 0), true)] []
             code_N_store code_N_source code_N_source code_N_store);
      reflexivity.
Defined.

(** On that store the error is the one of the guard, and it names the
    working copy of the source. *)
Example collapse_code_N_example :
  (apply_uncertainties [(plain_bset, VNum 0.2); (fan_bset, VNum 0)] 0
     code_N_store).1 =
  Raise (NotImplementedError
           (mkSource "np1" "Active Shallow Crust"
              (OtherSource "NonParametricSeismicSource") "N" None []
              (Some 1%nat))).
Proof. reflexivity. Qed.

(** *** What the steps compute *)

Lemma view_Some σ a s :
  st_sources σ !! a = Some s → view σ a = Some (s, lookup_mfd σ s).
Proof. unfold view. by intros ->. Qed.

Lemma modify_run target w md σ s :
  st_sources σ !! w = Some s →
  mfd_ok σ s →
  (target = OnMfd → has_mfd s = true) →
  modify target w md σ =
    (Ok tt, set_view σ w (apply_effect target md (s, lookup_mfd σ s))).
Proof.
  intros Hs Hok Htarget. destruct md as [name params].
  unfold set_view, mfd_ok, lookup_mfd, has_mfd, modify in *.
  destruct (mfd s) as [m|] eqn:Hm.
  - destruct Hok as [mo Hmo]; [done|]. simpl in Hmo.
    destruct target; unfold_ops; rewrite Hs; simpl; rewrite Hm; simpl;
      rewrite Hmo; simpl.
    + by rewrite (list_insert_id (st_mfds σ) m mo).
    + by rewrite (list_insert_id (st_sources σ) w s).
  - destruct target; [|by specialize (Htarget eq_refl)].
    unfold_ops. rewrite Hs. simpl. by rewrite Hm.
Qed.

Lemma apply_uncertainty_run utype w value σ s :
  st_sources σ !! w = Some s →
  mfd_ok σ s →
  can_apply (has_mfd s) utype value = true →
  apply_uncertainty utype w value σ =
    (Ok tt, set_view σ w (apply_value utype value (s, lookup_mfd σ s))).
Proof.
  intros Hs Hok Hcan. rewrite apply_uncertainty_effect.
  unfold can_apply, apply_value in *.
  destruct (uncertainty_effect utype value) as [[target md]|e]; [|done].
  apply modify_run; [done..|]. intros ->. done.
Qed.

Lemma list_insert_snoc {A} (l : list A) x y :
  <[length l := y]> (l ++ [x]) = l ++ [y].
Proof.
  rewrite insert_app_r_alt by done. by rewrite Nat.sub_diag.
Qed.

Lemma deepcopy_source_run w σ s :
  st_sources σ !! w = Some s →
  mfd_ok σ s →
  deepcopy_source w σ =
    (Ok (length (st_sources σ)),
     mkStore
       (st_sources σ ++ [with_mfd s ((λ _, length (st_mfds σ)) <$> mfd s)])
       (st_mfds σ ++ option_list (lookup_mfd σ s))
       (st_lists σ) (st_groups σ)).
Proof.
  intros Hs Hok. unfold mfd_ok, lookup_mfd in *. unfold_ops. rewrite Hs.
  destruct (mfd s) as [m|]; simpl.
  - destruct Hok as [mo Hmo]; [done|]. simpl in Hmo. by rewrite Hmo.
  - by rewrite app_nil_r.
Qed.

(** One iteration of the fan-out: the store gains the copy made for the
    branch, and its MFD if the source has one. *)
Lemma fan_out_cons utype w br rest srcs σ s :
  st_sources σ !! w = Some s →
  mfd_ok σ s →
  can_apply (has_mfd s) utype (br_value br) = true →
  fan_out utype w (br :: rest) srcs σ =
  fan_out utype w rest (srcs ++ [length (st_sources σ)])
    (mkStore
       (st_sources σ ++
          [(branch_copy utype (s, lookup_mfd σ s) (length (st_mfds σ)) br).1])
       (st_mfds σ ++
          option_list
            (branch_copy utype (s, lookup_mfd σ s) (length (st_mfds σ)) br).2)
       (st_lists σ) (st_groups σ)).
Proof.
  intros Hs Hok Hcan. cbn [fan_out].
  rewrite run_bind, (deepcopy_source_run w σ s Hs Hok).
  set (c0 := with_mfd s ((λ _, length (st_mfds σ)) <$> mfd s)).
  set (σ1 := mkStore _ _ _ _).
  assert (st_sources σ1 !! length (st_sources σ) = Some c0) as Hc0.
  { by apply list_lookup_middle. }
  rewrite run_bind. unfold set_scaling_rate at 1.
  rewrite run_bind. unfold get_source at 1. rewrite Hc0.
  unfold set_source at 1.
  set (c1 := with_scaling_rate c0 (br_weight br)).
  set (σ2 := mkStore _ _ _ _).
  assert (st_sources σ2 !! length (st_sources σ) = Some c1) as Hc1.
  { subst σ2 σ1. simpl. rewrite list_insert_snoc. by apply list_lookup_middle. }
  assert (lookup_mfd σ2 c1 = lookup_mfd σ s ∧ mfd_ok σ2 c1) as [Hlk Hok2].
  { unfold mfd_ok, lookup_mfd in *. subst c1 c0 σ2 σ1. simpl.
    destruct (mfd s) as [m|]; simpl; [|done].
    destruct Hok as [mo Hmo]; [done|]. simpl in Hmo. rewrite Hmo. simpl.
    rewrite list_lookup_middle by done. eauto. }
  assert (has_mfd c1 = has_mfd s) as Hhas.
  { subst c1 c0. unfold has_mfd. simpl. by destruct (mfd s). }
  rewrite run_bind.
  rewrite (apply_uncertainty_run utype _ _ σ2 c1 Hc1 Hok2)
    by by rewrite Hhas.
  f_equal. rewrite Hlk. unfold branch_copy. fold c0. fold c1. simpl.
  set (c := apply_value _ _ _).
  assert (mfd c.1 = mfd c1 ∧ (is_Some (lookup_mfd σ s) → is_Some c.2)
          ∧ (lookup_mfd σ s = None → c.2 = None))
    as (Hmfd & Hsome & Hnone).
  { subst c. unfold apply_value.
    destruct (uncertainty_effect utype (br_value br)) as [[[] md]|];
      simpl; repeat split; try done.
    - intros [mo ->]. by eexists.
    - by intros ->. }
  unfold set_view. rewrite Hmfd. subst σ2 σ1. simpl.
  rewrite list_insert_insert_eq, list_insert_snoc.
  unfold mfd_ok, lookup_mfd in *. subst c1 c0. simpl in *.
  destruct (mfd s) as [m|]; simpl in *.
  - destruct Hok as [mo Hmo]; [done|]. rewrite Hmo in *. simpl in *.
    destruct Hsome as [mo' Hmo']; [by eexists|]. rewrite Hmo'. simpl.
    by rewrite list_insert_snoc.
  - rewrite (Hnone eq_refl). simpl. by rewrite !app_nil_r.
Qed.

Lemma lookup_mfd_app σ s mfds' lists groups sources :
  mfd_ok σ s →
  lookup_mfd (mkStore sources (st_mfds σ ++ mfds') lists groups) s =
  lookup_mfd σ s.
Proof.
  unfold mfd_ok, lookup_mfd. simpl. destruct (mfd s) as [m|]; simpl; [|done].
  intros [mo Hmo]; [done|]. rewrite Hmo. by apply lookup_app_l_Some.
Qed.

Lemma fan_out_run utype w branches srcs σ s :
  st_sources σ !! w = Some s →
  mfd_ok σ s →
  Forall (λ br, can_apply (has_mfd s) utype (br_value br) = true) branches →
  fan_out utype w branches srcs σ =
    (Ok (srcs ++ seq (length (st_sources σ)) (length branches)),
     mkStore
       (st_sources σ ++
          (fan_copies utype (s, lookup_mfd σ s) (length (st_mfds σ))
             branches).*1)
       (st_mfds σ ++
          omap snd
            (fan_copies utype (s, lookup_mfd σ s) (length (st_mfds σ))
               branches))
       (st_lists σ) (st_groups σ)).
Proof.
  intros Hs Hok Hcan. revert srcs σ Hs Hok.
  induction Hcan as [|br rest Hbr _ IH]; intros srcs σ Hs Hok.
  - simpl. rewrite !app_nil_r. by destruct σ.
  - rewrite (fan_out_cons utype w br rest srcs σ s Hs Hok Hbr).
    set (c := branch_copy utype (s, lookup_mfd σ s) (length (st_mfds σ)) br).
    rewrite IH; cbn [st_sources st_mfds st_lists st_groups].
    + rewrite (lookup_mfd_app σ s) by done.
      rewrite !length_app. cbn [length fan_copies fmap list_fmap omap
        list_omap]. fold c.
      rewrite <- !app_assoc. cbn [app]. rewrite Nat.add_1_r.
      f_equal. f_equal. f_equal. by destruct (c.2).
    + by apply lookup_app_l_Some.
    + intros Hm. rewrite (lookup_mfd_app σ s) by done. by apply Hok.
Qed.

Lemma add_changes_run sg n σ g :
  st_groups σ !! sg = Some g →
  add_changes sg n σ =
    (Ok tt,
     mkStore (st_sources σ) (st_mfds σ) (st_lists σ)
       (<[sg := with_changes g (sg_changes g + n)]> (st_groups σ))).
Proof. intros Hg. unfold_ops. by rewrite Hg. Qed.

Lemma extend_sources_run sg srcs σ g items :
  st_groups σ !! sg = Some g →
  st_lists σ !! sg_sources g = Some items →
  extend_sources sg srcs σ =
    (Ok tt,
     mkStore (st_sources σ) (st_mfds σ)
       (<[sg_sources g := items ++ srcs]> (st_lists σ)) (st_groups σ)).
Proof. intros Hg Hl. unfold_ops. rewrite Hg. simpl. by rewrite Hl. Qed.

(** *** The store while a source is processed *)

Section work.
Context (σ : Store) (sg : addr) (g : SourceGroup).
Hypothesis Hsg : st_groups σ !! sg = Some g.

Let w : addr := length (st_sources σ).

Lemma work_source sm copies c :
  st_sources (work_store σ sg g sm copies c) !! w = Some sm.1.
Proof. simpl. by apply list_lookup_middle. Qed.

Lemma work_lookup_mfd sm copies c :
  linked σ sm →
  lookup_mfd (work_store σ sg g sm copies c) sm.1 = sm.2.
Proof.
  unfold linked, lookup_mfd. intros ->. simpl.
  destruct sm.2 as [mo|]; simpl; [|done].
  by apply list_lookup_middle.
Qed.

Lemma work_mfd_ok sm copies c :
  linked σ sm → mfd_ok (work_store σ sg g sm copies c) sm.1.
Proof.
  intros Hl. unfold mfd_ok. rewrite work_lookup_mfd by done.
  rewrite Hl. destruct sm.2; simpl; [by eexists|]. by intros [? [=]].
Qed.

Lemma apply_value_has_mfd utype value (sm : Source * option Mfd) :
  has_mfd (apply_value utype value sm).1 = has_mfd sm.1.
Proof.
  unfold apply_value.
  by destruct (uncertainty_effect utype value) as [[[] md]|].
Qed.

Lemma apply_value_linked utype value sm :
  linked σ sm → linked σ (apply_value utype value sm).
Proof.
  unfold linked, apply_value.
  destruct (uncertainty_effect utype value) as [[[] md]|]; simpl; try done.
  intros ->. by destruct sm.2.
Qed.

Lemma work_group sm copies c :
  st_groups (work_store σ sg g sm copies c) !! sg =
  Some (with_changes g c).
Proof.
  simpl. apply list_lookup_insert_eq. by eapply lookup_lt_Some.
Qed.

Lemma work_apply utype value sm copies c :
  linked σ sm →
  can_apply (has_mfd sm.1) utype value = true →
  apply_uncertainty utype w value (work_store σ sg g sm copies c) =
    (Ok tt, work_store σ sg g (apply_value utype value sm) copies c).
Proof.
  intros Hl Hcan.
  rewrite (apply_uncertainty_run utype w value _ sm.1
             (work_source sm copies c) (work_mfd_ok sm copies c Hl) Hcan).
  f_equal. rewrite work_lookup_mfd by done.
  pose proof (apply_value_linked utype value sm Hl) as Hl'.
  assert ((sm.1, sm.2) = sm) as -> by by destruct sm.
  set (sm' := apply_value utype value sm) in *.
  assert (is_Some sm'.2 ↔ is_Some sm.2) as Hsome.
  { subst sm'. unfold apply_value.
    destruct (uncertainty_effect utype value) as [[[] md]|]; simpl;
      try done.
    by rewrite fmap_is_Some. }
  unfold set_view, work_store. simpl. f_equal.
  - unfold w. rewrite insert_app_r_alt by done.
    by rewrite Nat.sub_diag.
  - rewrite Hl'. destruct sm'.2 as [mo'|] eqn:Hmo'; simpl.
    + destruct sm.2 as [mo|] eqn:Hmo; simpl.
      * rewrite insert_app_r_alt by done. by rewrite Nat.sub_diag.
      * destruct Hsome as [Hsome _]. by destruct Hsome.
    + destruct sm.2 as [mo|] eqn:Hmo; simpl; [|done].
      destruct Hsome as [_ Hsome]. by destruct Hsome.
Qed.

Lemma work_add_changes n sm copies c :
  add_changes sg n (work_store σ sg g sm copies c) =
    (Ok tt, work_store σ sg g sm copies (c + n)).
Proof.
  rewrite (add_changes_run sg n _ _ (work_group sm copies c)).
  unfold work_store. simpl. by rewrite list_insert_insert_eq.
Qed.

Lemma work_fan_out utype branches srcs sm copies c :
  linked σ sm →
  Forall (λ br, can_apply (has_mfd sm.1) utype (br_value br) = true)
    branches →
  fan_out utype w branches srcs (work_store σ sg g sm copies c) =
    (Ok (srcs ++ seq (w + 1 + length copies) (length branches)),
     work_store σ sg g sm
       (copies ++
          fan_copies utype sm
            (length (st_mfds σ ++ option_list sm.2 ++ omap snd copies))
            branches)
       c).
Proof.
  intros Hl Hcan.
  rewrite (fan_out_run utype w branches srcs _ sm.1
             (work_source sm copies c) (work_mfd_ok sm copies c Hl) Hcan).
  rewrite work_lookup_mfd by done.
  assert ((sm.1, sm.2) = sm) as -> by by destruct sm.
  unfold work_store. cbn [st_sources st_mfds st_lists st_groups].
  f_equal.
  - do 2 f_equal. rewrite length_app. simpl. rewrite length_fmap.
    f_equal. unfold w. lia.
  - f_equal.
    + rewrite fmap_app, <- app_assoc. done.
    + rewrite omap_app, <- !app_assoc. done.
Qed.
End work.

Lemma apply_pairs_skip sg src zipped srcs σ :
  applied zipped = [] →
  apply_pairs sg src zipped srcs σ = (Ok srcs, σ).
Proof.
  induction zipped as [|[[bset value] ok] rest IH]; simpl; [done|].
  destruct ok; simpl; [done|]. apply IH.
Qed.

Lemma deep_copy_linked σ s : mfd_ok σ s → linked σ (deep_copy σ s).
Proof.
  unfold mfd_ok, linked, deep_copy, lookup_mfd. simpl.
  destruct (mfd s) as [m|]; simpl; [|done].
  intros [mo ->]; [by eexists|done].
Qed.

Lemma with_changes_id g : with_changes g (sg_changes g) = g.
Proof. by destruct g. Qed.

Lemma deepcopy_source_work σ sg g a s :
  st_sources σ !! a = Some s →
  mfd_ok σ s →
  st_groups σ !! sg = Some g →
  deepcopy_source a σ =
    (Ok (length (st_sources σ)),
     work_store σ sg g (deep_copy σ s) [] (sg_changes g)).
Proof.
  intros Hs Hok Hg. rewrite (deepcopy_source_run a σ s Hs Hok).
  unfold work_store, deep_copy. simpl.
  by rewrite with_changes_id, list_insert_id, app_nil_r.
Qed.

Section work_pairs.
Context (σ : Store) (sg : addr) (g : SourceGroup).
Hypothesis Hsg : st_groups σ !! sg = Some g.

Lemma apply_values_linked l sm :
  linked σ sm → linked σ (apply_values l sm).
Proof.
  revert sm. induction l as [|[u v] l IH]; intros sm Hl; simpl; [done|].
  by apply IH, apply_value_linked.
Qed.

Lemma apply_values_has_mfd l (sm : Source * option Mfd) :
  has_mfd (apply_values l sm).1 = has_mfd sm.1.
Proof.
  revert sm. induction l as [|[u v] l IH]; intros sm; simpl; [done|].
  by rewrite IH, apply_value_has_mfd.
Qed.

(** The pairs that follow a fan-out, when none of them is collapsed:
    each accepted one modifies the working copy and counts one change;
    the list of output sources is left as it is. *)
Lemma apply_pairs_plain rest srcs sm copies c :
  linked σ sm →
  plain_pairs (has_mfd sm.1) rest →
  srcs ≠ [] ∨ applied rest = [] →
  apply_pairs sg (length (st_sources σ)) rest srcs
    (work_store σ sg g sm copies c) =
    (Ok srcs,
     work_store σ sg g (apply_values (applied rest) sm) copies
       (c + Z.of_nat (length (applied rest)))).
Proof.
  intros Hl Hplain. revert sm c Hl Hplain.
  induction rest as [|[[bset value] ok] rest IH];
    intros sm c Hl Hplain Hne.
  - simpl. by rewrite Z.add_0_r.
  - apply Forall_cons in Hplain as [Hz Hplain]. destruct ok.
    + destruct (Hz eq_refl) as [Hcol Hcan]. simpl in Hcol, Hcan.
      destruct Hne as [Hne|Hne]; [|done].
      cbn [apply_pairs]. rewrite Hcol. cbn [andb].
      rewrite run_bind, work_apply by done.
      rewrite run_bind, (work_add_changes σ sg g Hsg).
      destruct srcs as [|o srcs]; [done|].
      rewrite IH.
      * change (applied ((bset, value, true) :: rest))
          with ((bs_uncertainty_type bset, value) :: applied rest).
        unfold apply_values. cbn [foldl length fst snd].
        do 2 f_equal. lia.
      * by apply apply_value_linked.
      * by rewrite apply_value_has_mfd.
      * by left.
    + cbn [apply_pairs andb]. rewrite IH by done. done.
Qed.

(** A collapsed pair that is the first to accept the source, followed
    by non-collapsed pairs only. *)
Lemma apply_pairs_collapsed_first before bset value rest sm :
  linked σ sm →
  applied before = [] →
  bs_collapsed bset = true →
  code_is_N sm.1 = false →
  Forall (λ br, can_apply (has_mfd sm.1) (bs_uncertainty_type bset)
                  (br_value br) = true) (bs_branches bset) →
  plain_pairs (has_mfd sm.1) rest →
  bs_branches bset ≠ [] ∨ applied rest = [] →
  apply_pairs sg (length (st_sources σ))
    (before ++ ((bset, value), true) :: rest) []
    (work_store σ sg g sm [] (sg_changes g)) =
    (Ok (seq (length (st_sources σ) + 1) (length (bs_branches bset))),
     work_store σ sg g (apply_values (applied rest) sm)
       (fan_copies (bs_uncertainty_type bset) sm
          (length (st_mfds σ ++ option_list sm.2)) (bs_branches bset))
       (sg_changes g + Z.of_nat (length (bs_branches bset))
        + Z.of_nat (length (applied rest)))).
Proof.
  intros Hl Hbefore Hcol Hcode Hcan Hplain Hne.
  rewrite apply_pairs_app, apply_pairs_skip by done.
  cbn [apply_pairs]. rewrite Hcol. cbn [andb].
  rewrite run_bind. unfold get_source at 1. rewrite work_source.
  unfold code_is_N in Hcode. rewrite Hcode.
  rewrite run_bind, work_fan_out by done.
  rewrite run_bind, (work_add_changes σ sg g Hsg).
  cbn [app length]. rewrite length_seq, Nat.add_0_r, app_nil_r.
  apply apply_pairs_plain; [done..|].
  destruct Hne as [Hne|Hne]; [left|by right].
  destruct (bs_branches bset); [done|]. simpl. done.
Qed.
End work_pairs.

(** *** Copies and what was applied to them *)

Lemma effects_on_snoc target l utype value :
  effects_on target (l ++ [(utype, value)]) =
  effects_on target l ++ effect_on target utype value.
Proof.
  unfold effects_on. rewrite flat_map_app. simpl. by rewrite app_nil_r.
Qed.

Lemma copy_of_apply base rate l utype value sm :
  copy_of base rate l sm →
  copy_of base rate (l ++ [(utype, value)]) (apply_value utype value sm).
Proof.
  intros (Hid & Htrt & Hcls & Hcode & Hrate & Hmods & Hmfd).
  unfold copy_of, apply_value. rewrite !effects_on_snoc.
  unfold effect_on.
  destruct (uncertainty_effect utype value) as [[[] md]|]; simpl;
    rewrite ?app_nil_r; repeat split; try done.
  - by rewrite Hmods, app_assoc.
  - destruct sm.2 as [mo|], base.2 as [mo0|]; simpl in *; try done.
    injection Hmfd as ->. by rewrite app_assoc.
Qed.

Lemma copy_of_apply_values base rate l l' sm :
  copy_of base rate l sm →
  copy_of base rate (l ++ l') (apply_values l' sm).
Proof.
  revert l sm. induction l' as [|[u v] l' IH]; intros l sm H; simpl.
  - by rewrite app_nil_r.
  - replace (l ++ (u, v) :: l') with ((l ++ [(u, v)]) ++ l')
      by by rewrite <- app_assoc.
    by apply IH, copy_of_apply.
Qed.

Lemma copy_of_deep_copy σ s :
  copy_of (s, lookup_mfd σ s) (scaling_rate s) [] (deep_copy σ s).
Proof.
  unfold copy_of, deep_copy. simpl. rewrite app_nil_r.
  repeat split; try done.
  destruct (lookup_mfd σ s); simpl; [|done]. by rewrite app_nil_r.
Qed.

Lemma copy_of_branch_copy base rate utype sm nm br :
  copy_of base rate [] sm →
  copy_of base (Some (br_weight br)) [(utype, br_value br)]
    (branch_copy utype sm nm br).
Proof.
  intros (Hid & Htrt & Hcls & Hcode & Hrate & Hmods & Hmfd).
  unfold branch_copy. apply (copy_of_apply base _ []).
  by repeat split.
Qed.

Lemma branch_copy_mfd utype (sm : Source * option Mfd) nm br :
  mfd (branch_copy utype sm nm br).1 = (λ _, nm) <$> mfd sm.1 ∧
  (is_Some (branch_copy utype sm nm br).2 ↔ is_Some sm.2).
Proof.
  unfold branch_copy, apply_value.
  destruct (uncertainty_effect utype (br_value br)) as [[[] md]|]; simpl;
    try done.
  split; [done|]. by rewrite fmap_is_Some.
Qed.

Lemma view_eq σ1 σ2 o :
  st_sources σ1 = st_sources σ2 → st_mfds σ1 = st_mfds σ2 →
  view σ1 o = view σ2 o.
Proof. unfold view, lookup_mfd. by intros -> ->. Qed.

Lemma fan_store_cons PS PM lists groups (c : Source * option Mfd) copies :
  fan_store PS PM lists groups (c :: copies) =
  fan_store (PS ++ [c.1]) (PM ++ option_list c.2) lists groups copies.
Proof.
  unfold fan_store. rewrite <- !app_assoc. simpl. by destruct c.2.
Qed.

(** The copies of a fan-out, as they sit in the store: the [i]-th one is
    found at the [i]-th new identity, with its own MFD. *)
Lemma fan_copies_spec σ base rate utype sm branches :
  copy_of base rate [] sm →
  (is_Some (mfd sm.1) ↔ is_Some sm.2) →
  ∀ PS PM lists groups,
    (length (st_sources σ) ≤ length PS)%nat →
    (length (st_mfds σ) ≤ length PM)%nat →
    Forall2
      (branch_output σ
         (fan_store PS PM lists groups
            (fan_copies utype sm (length PM) branches))
         base utype)
      (seq (length PS) (length branches)) branches ∧
    Forall (λ m, (length PM ≤ m)%nat)
      (source_mfds
         (fan_store PS PM lists groups
            (fan_copies utype sm (length PM) branches))
         (seq (length PS) (length branches))) ∧
    NoDup
      (source_mfds
         (fan_store PS PM lists groups
            (fan_copies utype sm (length PM) branches))
         (seq (length PS) (length branches))).
Proof.
  intros Hbase Hsome.
  induction branches as [|br rest IH]; intros PS PM lists groups HPS HPM.
  - repeat split; constructor.
  - cbn [fan_copies length seq].
    set (c := branch_copy utype sm (length PM) br).
    destruct (branch_copy_mfd utype sm (length PM) br) as [Hptr Hc2].
    fold c in Hptr, Hc2.
    rewrite fan_store_cons.
    specialize (IH (PS ++ [c.1]) (PM ++ option_list c.2) lists groups).
    rewrite !length_app in IH. cbn [length] in IH.
    rewrite Nat.add_1_r in IH.
    destruct IH as (Hviews & Hbound & Hnodup); [lia..|].
    set (σ' := fan_store _ _ _ _ _) in *.
    assert (st_sources σ' !! length PS = Some c.1) as Hsrc.
    { subst σ'. unfold fan_store. cbn [st_sources].
      rewrite <- app_assoc. by apply list_lookup_middle. }
    assert (lookup_mfd σ' c.1 = c.2) as Hmfd.
    { subst σ'. unfold lookup_mfd, fan_store. cbn [st_mfds]. rewrite Hptr.
      destruct (mfd sm.1) as [m|]; simpl.
      - destruct Hc2 as [_ [mo Hmo]]; [by apply Hsome|].
        rewrite Hmo. simpl. rewrite <- app_assoc.
        by apply list_lookup_middle.
      - destruct c.2 as [mo|] eqn:Hmo; [|done].
        destruct Hsome as [_ Hsome]. destruct Hsome as [? [=]].
        apply Hc2. by eexists. }
    assert (source_mfds σ' (length PS :: seq (S (length PS)) (length rest)) =
            option_list (mfd c.1) ++
            source_mfds σ' (seq (S (length PS)) (length rest))) as Hsm.
    { change (source_mfds σ' (length PS :: seq (S (length PS)) (length rest)))
        with (match st_sources σ' !! length PS ≫= mfd with
              | Some y =>
                  y :: source_mfds σ' (seq (S (length PS)) (length rest))
              | None => source_mfds σ' (seq (S (length PS)) (length rest))
              end).
      rewrite Hsrc. cbn [mbind option_bind]. by destruct (mfd c.1). }
    split; [|split].
    + constructor; [|done]. split; [done|].
      exists c. split; [|split].
      * unfold view. rewrite Hsrc. simpl. rewrite Hmfd. by destruct c.
      * by eapply copy_of_branch_copy.
      * intros m. rewrite Hptr. destruct (mfd sm.1); intros [= <-]. done.
    + rewrite Hsm. apply Forall_app. split.
      * rewrite Hptr. destruct (mfd sm.1); simpl; repeat constructor.
      * eapply Forall_impl; [done|]. simpl. intros m. lia.
    + rewrite Hsm. apply NoDup_app. split; [|split; [|done]].
      * destruct (mfd c.1); simpl; [apply NoDup_singleton|apply NoDup_nil_2].
      * intros m Hm1 Hm2. rewrite Hptr in Hm1.
        destruct (mfd sm.1) as [m0|] eqn:Hm0; simpl in Hm1;
          [|by apply elem_of_nil in Hm1].
        apply list_elem_of_singleton in Hm1 as ->.
        rewrite Forall_forall in Hbound. specialize (Hbound _ Hm2).
        destruct Hc2 as [_ [mo Hmo]]; [apply Hsome; by eexists|].
        rewrite Hmo in Hbound. simpl in Hbound. lia.
Qed.

Lemma applied_rejected (l : list (BranchSet * Value)) :
  applied (zip l (replicate (length l) false)) = [].
Proof. induction l as [|[b v] l IH]; simpl; [done|]. apply IH. Qed.

Lemma deep_copy_some σ s :
  mfd_ok σ s →
  is_Some (mfd (deep_copy σ s).1) ↔ is_Some (deep_copy σ s).2.
Proof.
  unfold mfd_ok, deep_copy, lookup_mfd. simpl. intros Hok.
  destruct (mfd s) as [m|]; simpl.
  - split; [intros _; by apply Hok|by eexists].
  - split; by intros [? [=]].
Qed.

Lemma linked_length σ sm s :
  mfd_ok σ s → linked σ sm → has_mfd sm.1 = has_mfd s →
  length (option_list sm.2) = length (option_list (lookup_mfd σ s)).
Proof.
  unfold mfd_ok, linked, has_mfd, lookup_mfd. intros Hok Hl Hhas.
  rewrite Hl in Hhas. destruct (mfd s) as [m|]; simpl in *.
  - destruct Hok as [mo ->]; [by eexists|]. by destruct sm.2.
  - by destruct sm.2.
Qed.

Lemma deep_copy_has_mfd σ s : has_mfd (deep_copy σ s).1 = has_mfd s.
Proof. unfold has_mfd, deep_copy. simpl. by destruct (mfd s). Qed.

(** The body of the loop, for a source whose first accepting pair is
    collapsed and whose other accepting pairs are not. *)
Lemma apply_to_source_collapsed_first σ sg g items a s before bset value
    after oks_after :
  st_groups σ !! sg = Some g →
  st_lists σ !! sg_sources g = Some items →
  st_sources σ !! a = Some s →
  mfd_ok σ s →
  code_is_N s = false →
  filter_all (before ++ (bset, value) :: after) s =
    Ok (replicate (length before) false ++ true :: oks_after) →
  bs_collapsed bset = true →
  Forall (λ br, can_apply (has_mfd s) (bs_uncertainty_type bset)
                  (br_value br) = true) (bs_branches bset) →
  plain_pairs (has_mfd s) (zip after oks_after) →
  bs_branches bset ≠ [] ∨ applied (zip after oks_after) = [] →
  apply_to_source (before ++ (bset, value) :: after) sg a σ =
    (Ok tt,
     with_list
       (work_store σ sg g
          (apply_values (applied (zip after oks_after)) (deep_copy σ s))
          (fan_copies (bs_uncertainty_type bset) (deep_copy σ s)
             (length (st_mfds σ ++ option_list (lookup_mfd σ s)))
             (bs_branches bset))
          (sg_changes g + Z.of_nat (length (bs_branches bset))
           + Z.of_nat (length (applied (zip after oks_after)))))
       (sg_sources g)
       (items ++
          seq (length (st_sources σ) + 1) (length (bs_branches bset)))).
Proof.
  intros Hg Hl Hs Hok Hcode Hoks Hcol Hcan Hplain Hne.
  unfold apply_to_source.
  rewrite run_bind. unfold get_source at 1. rewrite Hs.
  rewrite run_bind. unfold lift at 1. rewrite Hoks.
  assert ((sum_bools (replicate (length before) false ++ true :: oks_after)
           =? 0)%nat = false) as ->.
  { apply Nat.eqb_neq. rewrite sum_bools_app. simpl. lia. }
  cbn [negb]. rewrite run_bind, run_bind.
  rewrite (deepcopy_source_work σ sg g a s Hs Hok Hg).
  rewrite zip_with_app by by rewrite length_replicate.
  cbn [zip_with].
  pose proof (deep_copy_has_mfd σ s) as Hhas.
  rewrite (apply_pairs_collapsed_first σ sg g Hg); rewrite ?Hhas; try done.
  - erewrite (extend_sources_run sg _ _ (with_changes g _) items);
      [done|by apply work_group|done].
  - by apply deep_copy_linked.
  - apply applied_rejected.
Qed.

Lemma source_mfds_eq σ1 σ2 l :
  st_sources σ1 = st_sources σ2 → source_mfds σ1 l = source_mfds σ2 l.
Proof. unfold source_mfds. by intros ->. Qed.

(** The outputs of the fan-out in the resulting store. *)
Lemma collapsed_outputs σ sg g s sm utype branches c l items :
  mfd_ok σ s →
  linked σ sm →
  has_mfd sm.1 = has_mfd s →
  ∀ σ',
    σ' = with_list
           (work_store σ sg g sm
              (fan_copies utype (deep_copy σ s)
                 (length (st_mfds σ ++ option_list (lookup_mfd σ s)))
                 branches) c)
           l items →
    Forall2 (branch_output σ σ' (s, lookup_mfd σ s) utype)
      (seq (length (st_sources σ) + 1) (length branches)) branches ∧
    NoDup (source_mfds σ'
             (seq (length (st_sources σ) + 1) (length branches))) ∧
    view σ' (length (st_sources σ)) = Some sm ∧
    src_ext σ σ'.
Proof.
  intros Hok Hl Hhas σ' ->.
  destruct (fan_copies_spec σ (s, lookup_mfd σ s) (scaling_rate s) utype
              (deep_copy σ s) branches (copy_of_deep_copy σ s)
              (deep_copy_some σ s Hok)
              (st_sources σ ++ [sm.1]) (st_mfds σ ++ option_list sm.2)
              (<[l := items]> (st_lists σ))
              (<[sg := with_changes g c]> (st_groups σ)))
    as (Hviews & _ & Hnodup).
  { rewrite length_app. lia. }
  { rewrite length_app. lia. }
  rewrite !length_app in Hviews, Hnodup. cbn [length] in Hviews, Hnodup.
  rewrite (linked_length σ sm s Hok Hl Hhas) in Hviews, Hnodup.
  rewrite length_app.
  set (copies := fan_copies _ _ _ _) in *.
  set (σf := fan_store _ _ _ _ _) in *.
  set (σ' := with_list _ _ _).
  assert (st_sources σ' = st_sources σf) as Hsrc.
  { subst σ' σf. unfold fan_store. simpl. by rewrite <- app_assoc. }
  assert (st_mfds σ' = st_mfds σf) as Hmfd.
  { subst σ' σf. unfold fan_store. simpl. by rewrite <- app_assoc. }
  split; [|split; [|split]].
  - eapply Forall2_impl; [done|]. intros o br (Ho & cp & Hv & Hcp & Hm).
    split; [done|]. exists cp. by rewrite (view_eq σ' σf).
  - by rewrite (source_mfds_eq σ' σf).
  - unfold view. subst σ'. cbn [with_list st_sources].
    rewrite (work_source σ sg g). simpl. f_equal.
    assert (lookup_mfd (with_list (work_store σ sg g sm copies c) l items)
              sm.1 = sm.2) as ->; [|by destruct sm].
    by apply (work_lookup_mfd σ sg g).
  - subst σ'. split; simpl; by apply prefix_app_r.
Qed.

(** *** Groups of one source *)

Lemma start_store_group σ g :
  st_groups (start_store σ g) !! length (st_groups σ) =
  Some (with_changes (with_sources g (length (st_lists σ))) 0).
Proof.
  simpl. apply list_lookup_insert_eq.
  rewrite length_insert, length_app. simpl. lia.
Qed.

Lemma start_store_list σ g :
  st_lists (start_store σ g) !! length (st_lists σ) = Some [].
Proof. simpl. by apply list_lookup_middle. Qed.

Lemma apply_uncertainties_single pairs src_group σ g a :
  st_groups σ !! src_group = Some g →
  st_lists σ !! sg_sources g = Some [a] →
  apply_uncertainties pairs src_group σ =
  match apply_to_source pairs (length (st_groups σ)) a (start_store σ g) with
  | (Ok _, σ') => (Ok (length (st_groups σ)), σ')
  | (Raise e, σ') => (Raise e, σ')
  end.
Proof.
  intros Hg Hl. unfold apply_uncertainties.
  rewrite run_bind. unfold get_group at 1. rewrite Hg.
  rewrite run_bind. unfold new_group at 1.
  rewrite run_bind. unfold new_list at 1.
  rewrite run_bind. unfold set_group at 1.
  rewrite run_bind. unfold set_group at 1.
  cbn [st_sources st_mfds st_lists st_groups].
  rewrite run_bind. unfold get_list at 1. cbn [st_lists].
  rewrite (lookup_app_l_Some _ _ _ _ Hl).
  rewrite run_bind. cbn [each_source]. rewrite run_bind.
  fold (start_store σ g).
  by destruct (apply_to_source pairs _ a (start_store σ g)) as [[[]|e] σ'].
Qed.

(** *** Collapsing *)

(** C1, as stated, fails: when a non-collapsed pair accepts the source
    before the collapsed branch set of two branches does, the source
    yields three output sources and the counter of changes grows by four
    (one for the plain pair, three for the fan-out). *)
Lemma fan_out_after_plain_pair :
  filter_source fan_bset (st_sources one_source_store !! 0%nat) = Ok true ∧
  length (bs_branches fan_bset) = 2%nat ∧
  (apply_uncertainties [(plain_bset, VNum 0.2); (fan_bset, VNum 0)] 0
     one_source_store).1 = Ok 1%nat ∧
  st_lists
    (apply_uncertainties [(plain_bset, VNum 0.2); (fan_bset, VNum 0)] 0
       one_source_store).2 !! 1%nat = Some [1; 2; 3]%nat ∧
  sg_changes <$>
    st_groups
      (apply_uncertainties [(plain_bset, VNum 0.2); (fan_bset, VNum 0)] 0
         one_source_store).2 !! 1%nat = Some 4%Z.
Proof. repeat split. Qed.

(** The body of the loop when a collapsed branch set is the only pair
    that accepts the source. *)
Lemma collapsed_only_pair_body σ sg g items a s before bset value after :
  st_groups σ !! sg = Some g →
  st_lists σ !! sg_sources g = Some items →
  st_sources σ !! a = Some s →
  mfd_ok σ s →
  code_is_N s = false →
  filter_all (before ++ (bset, value) :: after) s =
    Ok (replicate (length before) false ++
        true :: replicate (length after) false) →
  bs_collapsed bset = true →
  Forall (λ br, can_apply (has_mfd s) (bs_uncertainty_type bset)
                  (br_value br) = true) (bs_branches bset) →
  ∃ σ' outs,
    apply_to_source (before ++ (bset, value) :: after) sg a σ = (Ok tt, σ') ∧
    st_lists σ' !! sg_sources g = Some (items ++ outs) ∧
    length outs = length (bs_branches bset) ∧
    NoDup outs ∧
    NoDup (source_mfds σ' outs) ∧
    Forall2
      (branch_output σ σ' (s, lookup_mfd σ s) (bs_uncertainty_type bset))
      outs (bs_branches bset) ∧
    st_groups σ' !! sg =
      Some (with_changes g
              (sg_changes g + Z.of_nat (length (bs_branches bset)))) ∧
    src_ext σ σ'.
Proof.
  intros Hg Hl Hs Hok Hcode Hoks Hcol Hcan.
  assert (applied (zip after (replicate (length after) false)) = [])
    as Hnone by apply applied_rejected.
  assert (plain_pairs (has_mfd s) (zip after (replicate (length after) false)))
    as Hplain.
  { clear. induction after as [|[b v] l IH]; simpl; constructor; done. }
  pose proof (apply_to_source_collapsed_first σ sg g items a s before bset
                value after _ Hg Hl Hs Hok Hcode Hoks Hcol Hcan Hplain
                (or_intror Hnone)) as Hrun.
  rewrite Hnone in Hrun. cbn [apply_values foldl length] in Hrun.
  eexists _, (seq (length (st_sources σ) + 1) (length (bs_branches bset))).
  split; [exact Hrun|].
  destruct (collapsed_outputs σ sg g s (deep_copy σ s)
              (bs_uncertainty_type bset) (bs_branches bset)
              (sg_changes g + Z.of_nat (length (bs_branches bset))
               + Z.of_nat 0)%Z
              (sg_sources g)
              (items ++ seq (length (st_sources σ) + 1)
                          (length (bs_branches bset)))
              Hok (deep_copy_linked σ s Hok) (deep_copy_has_mfd σ s)
              _ eq_refl) as (Hout & Hnd & _ & Hext).
  split; [|split; [|split; [|split; [|split; [|split]]]]]; try done.
  - simpl. apply list_lookup_insert_eq. by eapply lookup_lt_Some.
  - apply length_seq.
  - apply NoDup_seq.
  - cbn [with_list st_groups]. rewrite work_group by done.
    do 2 f_equal. simpl. lia.
Qed.

(** C1, amended: when a collapsed branch set with k branches is the only
    pair that accepts an input source, the class code of the source is
    not [b'N'] and the value of every branch can be applied to it, the
    body of the loop of [apply_uncertainties] adds exactly k sources to
    the list of the new group for that source: k distinct new objects,
    each a deep
    copy (with an MFD object of its own) that carries the weight of the
    respective branch as scaling weight and that branch's value; the
    counter of changes grows by exactly k, and no object of the store is
    modified.  For a group made of that source alone,
    [apply_uncertainties] returns a new group with exactly these k
    sources and [changes = k]. *)
Theorem collapsed_only_pair :
  (∀ σ sg g items a s before bset value after,
     st_groups σ !! sg = Some g →
     st_lists σ !! sg_sources g = Some items →
     st_sources σ !! a = Some s →
     mfd_ok σ s →
     code_is_N s = false →
     filter_all (before ++ (bset, value) :: after) s =
       Ok (replicate (length before) false ++
           true :: replicate (length after) false) →
     bs_collapsed bset = true →
     Forall (λ br, can_apply (has_mfd s) (bs_uncertainty_type bset)
                     (br_value br) = true) (bs_branches bset) →
     ∃ σ' outs,
       apply_to_source (before ++ (bset, value) :: after) sg a σ =
         (Ok tt, σ') ∧
       st_lists σ' !! sg_sources g = Some (items ++ outs) ∧
       length outs = length (bs_branches bset) ∧
       NoDup outs ∧
       NoDup (source_mfds σ' outs) ∧
       Forall2
         (branch_output σ σ' (s, lookup_mfd σ s) (bs_uncertainty_type bset))
         outs (bs_branches bset) ∧
       st_groups σ' !! sg =
         Some (with_changes g
                 (sg_changes g + Z.of_nat (length (bs_branches bset)))) ∧
       src_ext σ σ') ∧
  (∀ σ src_group g a s before bset value after,
     st_groups σ !! src_group = Some g →
     st_lists σ !! sg_sources g = Some [a] →
     st_sources σ !! a = Some s →
     mfd_ok σ s →
     code_is_N s = false →
     filter_all (before ++ (bset, value) :: after) s =
       Ok (replicate (length before) false ++
           true :: replicate (length after) false) →
     bs_collapsed bset = true →
     Forall (λ br, can_apply (has_mfd s) (bs_uncertainty_type bset)
                     (br_value br) = true) (bs_branches bset) →
     ∃ σ' outs g',
       apply_uncertainties (before ++ (bset, value) :: after) src_group σ =
         (Ok (length (st_groups σ)), σ') ∧
       st_groups σ' !! length (st_groups σ) = Some g' ∧
       st_lists σ' !! sg_sources g' = Some outs ∧
       length outs = length (bs_branches bset) ∧
       sg_changes g' = Z.of_nat (length (bs_branches bset)) ∧
       NoDup outs ∧
       NoDup (source_mfds σ' outs) ∧
       Forall2
         (branch_output σ σ' (s, lookup_mfd σ s) (bs_uncertainty_type bset))
         outs (bs_branches bset) ∧
       unchanged σ σ').
Proof.
  split; [apply collapsed_only_pair_body|].
  intros σ src_group g a s before bset value after
    Hg Hl Hs Hok Hcode Hoks Hcol Hcan.
  destruct (collapsed_only_pair_body (start_store σ g) (length (st_groups σ))
              _ [] a s before bset value after
              (start_store_group σ g) (start_store_list σ g) Hs Hok Hcode
              Hoks Hcol Hcan)
    as (σ' & outs & Hrun & Hlist & Hlen & Hnd & Hndm & Hout & Hgrp & _).
  pose proof (apply_uncertainties_single (before ++ (bset, value) :: after)
                _ _ _ _ Hg Hl) as Hall.
  rewrite Hrun in Hall.
  exists σ', outs. eexists. split; [exact Hall|].
  split; [exact Hgrp|]. split; [exact Hlist|].
  split; [done|]. split; [simpl; lia|]. split; [done|]. split; [done|].
  split; [exact Hout|].
  by apply (apply_uncertainties_step _ _ _ _ _ Hall).
Qed.

Lemma collapsed_only_pair_witness :
  (∃ σ' outs,
     apply_to_source [(other_bset, VNum 1); (fan_bset, VNum 0)] 0 0
       one_source_store = (Ok tt, σ') ∧
     st_lists σ' !! 0%nat = Some ([0%nat] ++ outs) ∧
     length outs = 2%nat ∧
     (sg_changes <$> st_groups σ' !! 0%nat) = Some 9%Z) ∧
  (∃ σ' outs g',
     apply_uncertainties [(other_bset, VNum 1); (fan_bset, VNum 0)] 0
       one_source_store = (Ok 1%nat, σ') ∧
     st_groups σ' !! 1%nat = Some g' ∧
     st_lists σ' !! sg_sources g' = Some outs ∧
     length outs = 2%nat ∧
     sg_changes g' = 2%Z).
Proof.
  destruct collapsed_only_pair as [Hbody Hgroup]. split.
  - destruct (Hbody one_source_store 0%nat (mkSourceGroup [] 0 7)
                [0%nat] 0%nat
                (mkSource "s1" "Active Shallow Crust" PointSource "P" None []
                   (Some 0%nat))
                [(other_bset, VNum 1)] fan_bset (VNum 0) [])
      as (σ' & outs & Hrun & Hl & Hlen & _ & _ & _ & Hch & _);
      try reflexivity.
    + intros _. by eexists.
    + repeat constructor.
    + exists σ', outs. split; [exact Hrun|]. split; [exact Hl|].
      split; [exact Hlen|]. rewrite Hch. reflexivity.
  - destruct (Hgroup one_source_store 0%nat (mkSourceGroup [] 0 7) 0%nat
                (mkSource "s1" "Active Shallow Crust" PointSource "P" None []
                   (Some 0%nat))
                [(other_bset, VNum 1)] fan_bset (VNum 0) [])
      as (σ' & outs & g' & Hrun & Hg' & Hl & Hlen & Hch & _);
      try reflexivity.
    + intros _. by eexists.
    + repeat constructor.
    + exists σ', outs, g'. split; [exact Hrun|]. split; [exact Hg'|].
      split; [exact Hl|]. split; [exact Hlen|exact Hch].
Defined.

(** C10, as stated, fails: when a non-collapsed pair has accepted the
    source before the collapsed one, the working copy is already in the
    output list, so the value of the non-collapsed pair that follows the
    collapsed one is applied to a source of the returned group. *)
Lemma plain_pair_around_collapsed :
  (apply_uncertainties
     [(plain_bset, VNum 0.2); (fan_bset, VNum 0); (plain_bset, VNum 0.4)] 0
     one_source_store).1 = Ok 1%nat ∧
  st_lists
    (apply_uncertainties
       [(plain_bset, VNum 0.2); (fan_bset, VNum 0); (plain_bset, VNum 0.4)] 0
       one_source_store).2 !! 1%nat = Some [1; 2; 3]%nat ∧
  (snd <$>
   view
     (apply_uncertainties
        [(plain_bset, VNum 0.2); (fan_bset, VNum 0); (plain_bset, VNum 0.4)]
        0 one_source_store).2 1) =
    Some (Some (mkMfd [("increment_max_mag", [("value", VNum 0.2)]);
                       ("increment_max_mag", [("value", VNum 0.4)])])).
Proof. repeat split. Qed.

(** The body of the loop when the first pair that accepts the source is
    collapsed and the others are not. *)
Lemma plain_pairs_after_collapsed_body σ sg g items a s before bset value
    after oks_after :
  st_groups σ !! sg = Some g →
  st_lists σ !! sg_sources g = Some items →
  st_sources σ !! a = Some s →
  mfd_ok σ s →
  code_is_N s = false →
  filter_all (before ++ (bset, value) :: after) s =
    Ok (replicate (length before) false ++ true :: oks_after) →
  bs_collapsed bset = true →
  bs_branches bset ≠ [] →
  Forall (λ br, can_apply (has_mfd s) (bs_uncertainty_type bset)
                  (br_value br) = true) (bs_branches bset) →
  plain_pairs (has_mfd s) (zip after oks_after) →
  ∃ σ' outs working,
    apply_to_source (before ++ (bset, value) :: after) sg a σ = (Ok tt, σ') ∧
    st_lists σ' !! sg_sources g = Some (items ++ outs) ∧
    (length (st_sources σ) ∉ outs) ∧
    view σ' (length (st_sources σ)) = Some working ∧
    copy_of (s, lookup_mfd σ s) (scaling_rate s)
      (applied (zip after oks_after)) working ∧
    Forall2
      (branch_output σ σ' (s, lookup_mfd σ s) (bs_uncertainty_type bset))
      outs (bs_branches bset) ∧
    st_groups σ' !! sg =
      Some (with_changes g
              (sg_changes g + Z.of_nat (length (bs_branches bset))
               + Z.of_nat (length (applied (zip after oks_after))))).
Proof.
  intros Hg Hl Hs Hok Hcode Hoks Hcol Hne Hcan Hplain.
  pose proof (apply_to_source_collapsed_first σ sg g items a s before bset
                value after _ Hg Hl Hs Hok Hcode Hoks Hcol Hcan Hplain
                (or_introl Hne)) as Hrun.
  set (rest := applied (zip after oks_after)) in *.
  assert (linked σ (apply_values rest (deep_copy σ s))) as Hlinked.
  { apply apply_values_linked. by apply deep_copy_linked. }
  assert (has_mfd (apply_values rest (deep_copy σ s)).1 = has_mfd s) as Hhas.
  { by rewrite apply_values_has_mfd, deep_copy_has_mfd. }
  destruct (collapsed_outputs σ sg g s (apply_values rest (deep_copy σ s))
              (bs_uncertainty_type bset) (bs_branches bset)
              (sg_changes g + Z.of_nat (length (bs_branches bset))
               + Z.of_nat (length rest))%Z
              (sg_sources g)
              (items ++ seq (length (st_sources σ) + 1)
                          (length (bs_branches bset)))
              Hok Hlinked Hhas _ eq_refl) as (Hout & _ & Hview & _).
  eexists _, (seq (length (st_sources σ) + 1) (length (bs_branches bset))), _.
  split; [exact Hrun|].
  split; [|split; [|split; [exact Hview|split; [|split; [exact Hout|]]]]].
  - simpl. apply list_lookup_insert_eq. by eapply lookup_lt_Some.
  - rewrite elem_of_seq. lia.
  - apply (copy_of_apply_values _ _ [] rest), copy_of_deep_copy.
  - cbn [with_list st_groups]. by rewrite work_group.
Qed.

(** C10, amended: when the first pair that accepts a source is a
    collapsed one with at least one branch, and the other pairs that
    accept it are not collapsed (their values being applicable), the
    value of each of these is applied to the working deep copy, which is
    never appended to the output list; the output sources are the copies
    of the fan-out, each with the value of its own branch applied and
    nothing else, so those modifications are absent from the sources of
    the returned group, while the counter of changes still grows by one
    for each of them.  Stated for the body of the loop, and for
    [apply_uncertainties] on a group made of that source alone. *)
Theorem plain_pairs_after_collapsed :
  (∀ σ sg g items a s before bset value after oks_after,
     st_groups σ !! sg = Some g →
     st_lists σ !! sg_sources g = Some items →
     st_sources σ !! a = Some s →
     mfd_ok σ s →
     code_is_N s = false →
     filter_all (before ++ (bset, value) :: after) s =
       Ok (replicate (length before) false ++ true :: oks_after) →
     bs_collapsed bset = true →
     bs_branches bset ≠ [] →
     Forall (λ br, can_apply (has_mfd s) (bs_uncertainty_type bset)
                     (br_value br) = true) (bs_branches bset) →
     plain_pairs (has_mfd s) (zip after oks_after) →
     ∃ σ' outs working,
       apply_to_source (before ++ (bset, value) :: after) sg a σ =
         (Ok tt, σ') ∧
       st_lists σ' !! sg_sources g = Some (items ++ outs) ∧
       (length (st_sources σ) ∉ outs) ∧
       view σ' (length (st_sources σ)) = Some working ∧
       copy_of (s, lookup_mfd σ s) (scaling_rate s)
         (applied (zip after oks_after)) working ∧
       Forall2
         (branch_output σ σ' (s, lookup_mfd σ s) (bs_uncertainty_type bset))
         outs (bs_branches bset) ∧
       st_groups σ' !! sg =
         Some (with_changes g
                 (sg_changes g + Z.of_nat (length (bs_branches bset))
                  + Z.of_nat (length (applied (zip after oks_after)))))) ∧
  (∀ σ src_group g a s before bset value after oks_after,
     st_groups σ !! src_group = Some g →
     st_lists σ !! sg_sources g = Some [a] →
     st_sources σ !! a = Some s →
     mfd_ok σ s →
     code_is_N s = false →
     filter_all (before ++ (bset, value) :: after) s =
       Ok (replicate (length before) false ++ true :: oks_after) →
     bs_collapsed bset = true →
     bs_branches bset ≠ [] →
     Forall (λ br, can_apply (has_mfd s) (bs_uncertainty_type bset)
                     (br_value br) = true) (bs_branches bset) →
     plain_pairs (has_mfd s) (zip after oks_after) →
     ∃ σ' outs g' working,
       apply_uncertainties (before ++ (bset, value) :: after) src_group σ =
         (Ok (length (st_groups σ)), σ') ∧
       st_groups σ' !! length (st_groups σ) = Some g' ∧
       st_lists σ' !! sg_sources g' = Some outs ∧
       (length (st_sources σ) ∉ outs) ∧
       view σ' (length (st_sources σ)) = Some working ∧
       copy_of (s, lookup_mfd σ s) (scaling_rate s)
         (applied (zip after oks_after)) working ∧
       Forall2
         (branch_output σ σ' (s, lookup_mfd σ s) (bs_uncertainty_type bset))
         outs (bs_branches bset) ∧
       sg_changes g' =
         (Z.of_nat (length (bs_branches bset))
          + Z.of_nat (length (applied (zip after oks_after))))%Z).
Proof.
  split; [apply plain_pairs_after_collapsed_body|].
  intros σ src_group g a s before bset value after oks_after
    Hg Hl Hs Hok Hcode Hoks Hcol Hne Hcan Hplain.
  destruct (plain_pairs_after_collapsed_body (start_store σ g)
              (length (st_groups σ)) _ [] a s before bset value after
              oks_after (start_store_group σ g) (start_store_list σ g)
              Hs Hok Hcode Hoks Hcol Hne Hcan Hplain)
    as (σ' & outs & working & Hrun & Hlist & Hw & Hview & Hcopy & Hout
        & Hgrp).
  pose proof (apply_uncertainties_single (before ++ (bset, value) :: after)
                _ _ _ _ Hg Hl) as Hall.
  rewrite Hrun in Hall.
  exists σ', outs. eexists. exists working. split; [exact Hall|].
  split; [exact Hgrp|]. split; [exact Hlist|].
  split; [exact Hw|]. split; [exact Hview|]. split; [exact Hcopy|].
  split; [exact Hout|]. simpl. lia.
Qed.

Lemma plain_pairs_after_collapsed_witness :
  (∃ σ' outs working,
     apply_to_source
       [(other_bset, VNum 1); (fan_bset, VNum 0); (plain_bset, VNum 0.4)]
       0 0 one_source_store = (Ok tt, σ') ∧
     st_lists σ' !! 0%nat = Some ([0%nat] ++ outs) ∧
     (1%nat ∉ outs) ∧
     view σ' 1 = Some working ∧
     (mfd_mods <$> working.2) =
       Some [("increment_max_mag", [("value", VNum 0.4)])] ∧
     (sg_changes <$> st_groups σ' !! 0%nat) = Some 10%Z) ∧
  (∃ σ' outs g' working,
     apply_uncertainties
       [(other_bset, VNum 1); (fan_bset, VNum 0); (plain_bset, VNum 0.4)]
       0 one_source_store = (Ok 1%nat, σ') ∧
     st_groups σ' !! 1%nat = Some g' ∧
     st_lists σ' !! sg_sources g' = Some outs ∧
     (1%nat ∉ outs) ∧
     view σ' 1 = Some working ∧
     (mfd_mods <$> working.2) =
       Some [("increment_max_mag", [("value", VNum 0.4)])] ∧
     sg_changes g' = 3%Z).
Proof.
  destruct plain_pairs_after_collapsed as [Hbody Hgroup]. split.
  - destruct (Hbody one_source_store 0%nat
                (mkSourceGroup [] 0 7) [0%nat] 0%nat
                (mkSource "s1" "Active Shallow Crust" PointSource "P" None []
                   (Some 0%nat))
                [(other_bset, VNum 1)] fan_bset (VNum 0)
                [(plain_bset, VNum 0.4)] [true])
      as (σ' & outs & working & Hrun & Hl & Hw & Hv & Hc & _ & Hch);
      try reflexivity.
    + intros _. by eexists.
    + done.
    + repeat constructor.
    + repeat constructor.
    + exists σ', outs, working. split; [exact Hrun|]. split; [exact Hl|].
      split; [exact Hw|]. split; [exact Hv|]. split.
      * destruct Hc as (_ & _ & _ & _ & _ & _ & Hmfd). exact Hmfd.
      * rewrite Hch. reflexivity.
  - destruct (Hgroup one_source_store 0%nat
                (mkSourceGroup [] 0 7) 0%nat
                (mkSource "s1" "Active Shallow Crust" PointSource "P" None []
                   (Some 0%nat))
                [(other_bset, VNum 1)] fan_bset (VNum 0)
                [(plain_bset, VNum 0.4)] [true])
      as (σ' & outs & g' & working & Hrun & Hg' & Hl & Hw & Hv & Hc & _
          & Hch);
      try reflexivity.
    + intros _. by eexists.
    + done.
    + repeat constructor.
    + repeat constructor.
    + exists σ', outs, g', working. split; [exact Hrun|].
      split; [exact Hg'|]. split; [exact Hl|]. split; [exact Hw|].
      split; [exact Hv|]. split; [|exact Hch].
      destruct Hc as (_ & _ & _ & _ & _ & _ & Hmfd). exact Hmfd.
Defined.

(** * Further properties *)

(** ** Filters *)

Lemma check_filter_unknown_key key value source :
  key ∉ known_filter_keys →
  check_filter key value source =
  Raise (AssertionError ("unknown filter '" +:+ key +:+ "'")).
Proof.
  intros Hkey. unfold check_filter.
  destruct (String.eqb_spec key "applyToTectonicRegionType") as [->|_].
  { exfalso. apply Hkey. apply list_elem_of_here. }
  destruct (String.eqb_spec key "applyToSourceType") as [->|_].
  { exfalso. apply Hkey. apply list_elem_of_further, list_elem_of_here. }
  destruct (String.eqb_spec key "applyToSources") as [->|_]; [|done].
  exfalso. apply Hkey. do 2 apply list_elem_of_further. apply list_elem_of_here.
Qed.

Lemma filter_items_app pre post source :
  filter_items (pre ++ post) source =
  match filter_items pre source with
  | Ok true => filter_items post source
  | r => r
  end.
Proof.
  induction pre as [|[k v] pre IH]; simpl; [done|].
  by destruct (check_filter k v source) as [[]|].
Qed.

(** X1: an unknown filter key raises [AssertionError] naming the key, but
    only when the loop reaches it: if an earlier filter of the map
    rejects the source, or raises, that outcome is returned and the
    unknown key is never looked at. *)
Theorem filter_source_unknown_key bs pre key value post source :
  bs_filters bs = pre ++ (key, value) :: post →
  key ∉ known_filter_keys →
  filter_source bs source =
  match filter_items pre source with
  | Ok true => Raise (AssertionError ("unknown filter '" +:+ key +:+ "'"))
  | r => r
  end.
Proof.
  intros Hfs Hkey. unfold filter_source. rewrite Hfs, filter_items_app.
  destruct (filter_items pre source) as [[]|]; [|done..].
  simpl. by rewrite check_filter_unknown_key.
Qed.

Lemma filter_source_unknown_key_witness :
  filter_source
    (mkBranchSet [] "maxMagGRRelative"
       [("applyToSources", FIds ["s1"]); ("applyToBranches", FStr "b1")]
       false)
    (Some (point_source "s2" "Active Shallow Crust")) = Ok false ∧
  filter_source
    (mkBranchSet [] "maxMagGRRelative"
       [("applyToSources", FIds ["s1"]); ("applyToBranches", FStr "b1")]
       false)
    (Some (point_source "s1" "Active Shallow Crust")) =
    Raise (AssertionError "unknown filter 'applyToBranches'").
Proof.
  assert ("applyToBranches" ∉ known_filter_keys) as Hkey.
  { unfold known_filter_keys. intros H.
    repeat (apply elem_of_cons in H as [H|H]; [discriminate H|]).
    by apply elem_of_nil in H. }
  split.
  - rewrite (filter_source_unknown_key
               (mkBranchSet [] "maxMagGRRelative"
                  [("applyToSources", FIds ["s1"]);
                   ("applyToBranches", FStr "b1")] false)
               [("applyToSources", FIds ["s1"])]
               "applyToBranches" (FStr "b1") [] _ eq_refl Hkey).
    reflexivity.
  - rewrite (filter_source_unknown_key
               (mkBranchSet [] "maxMagGRRelative"
                  [("applyToSources", FIds ["s1"]);
                   ("applyToBranches", FStr "b1")] false)
               [("applyToSources", FIds ["s1"])]
               "applyToBranches" (FStr "b1") [] _ eq_refl Hkey).
    reflexivity.
Defined.

Lemma check_source_type_unknown v source :
  v ∉ known_source_types →
  check_filter "applyToSourceType" (FStr v) source =
  Raise (AssertionError ("unknown source type '" +:+ v +:+ "'")).
Proof.
  intros Hv. unfold check_filter. simpl.
  destruct (String.eqb_spec v "area") as [->|_].
  { exfalso. apply Hv. apply list_elem_of_here. }
  destruct (String.eqb_spec v "point") as [->|_].
  { exfalso. apply Hv. apply list_elem_of_further, list_elem_of_here. }
  destruct (String.eqb_spec v "simpleFault") as [->|_].
  { exfalso. apply Hv. do 2 apply list_elem_of_further.
    apply list_elem_of_here. }
  destruct (String.eqb_spec v "complexFault") as [->|_].
  { exfalso. apply Hv. do 3 apply list_elem_of_further.
    apply list_elem_of_here. }
  destruct (String.eqb_spec v "characteristicFault") as [->|_]; [|done].
  exfalso. apply Hv. do 4 apply list_elem_of_further. apply list_elem_of_here.
Qed.

(** X2: a source type filter whose value is none of the five known names
    accepts no source: when every earlier filter passes, [filter_source]
    raises [AssertionError] naming the value, whether or not a source is
    under evaluation. *)
Theorem filter_source_unknown_type bs pre v post source :
  bs_filters bs = pre ++ ("applyToSourceType", FStr v) :: post →
  v ∉ known_source_types →
  filter_source bs source ≠ Ok true ∧
  (filter_items pre source = Ok true →
   filter_source bs source =
     Raise (AssertionError ("unknown source type '" +:+ v +:+ "'"))).
Proof.
  intros Hfs Hv. unfold filter_source. rewrite Hfs, filter_items_app.
  destruct (filter_items pre source) as [[]|]; simpl;
    rewrite ?check_source_type_unknown by done; split; congruence.
Qed.

Lemma filter_source_unknown_type_witness :
  filter_source
    (mkBranchSet [] "maxMagGRRelative"
       [("applyToSourceType", FStr "multiPoint")] false) None =
  Raise (AssertionError "unknown source type 'multiPoint'").
Proof.
  apply (filter_source_unknown_type
           (mkBranchSet [] "maxMagGRRelative"
              [("applyToSourceType", FStr "multiPoint")] false)
           [] "multiPoint" [] None eq_refl); [|reflexivity].
  unfold known_source_types. intros H.
  repeat (apply elem_of_cons in H as [H|H]; [discriminate H|]).
  by apply elem_of_nil in H.
Defined.

(** X3: the source type filters "point" and "area" exclude each other: no
    source is accepted both by a branch set that asks for points and by
    one that asks for areas. *)
Theorem point_and_area_exclusive bs_point bs_area source :
  ("applyToSourceType", FStr "point") ∈ bs_filters bs_point →
  ("applyToSourceType", FStr "area") ∈ bs_filters bs_area →
  ¬ (filter_source bs_point source = Ok true ∧
     filter_source bs_area source = Ok true).
Proof.
  intros Hp Ha [Hpt Har].
  apply filter_items_true in Hpt. apply filter_items_true in Har.
  rewrite Forall_forall in Hpt, Har.
  specialize (Hpt _ Hp). specialize (Har _ Ha). simpl in Hpt, Har.
  rewrite check_point_type in Hpt.
  assert (check_filter "applyToSourceType" (FStr "area") source =
          Ok (source_isinstance source AreaSource)) as Heq by reflexivity.
  rewrite Heq in Har. injection Har as Har. injection Hpt as Hpt.
  rewrite Har, orb_true_r in Hpt. discriminate Hpt.
Qed.

Lemma point_and_area_exclusive_witness :
  ¬ (filter_source
       (mkBranchSet [] "maxMagGRRelative" asc_point_filters false)
       (Some (area_source "a1" "Active Shallow Crust")) = Ok true ∧
     filter_source
       (mkBranchSet [] "maxMagGRRelative"
          [("applyToSourceType", FStr "area")] false)
       (Some (area_source "a1" "Active Shallow Crust")) = Ok true).
Proof.
  apply point_and_area_exclusive.
  - apply list_elem_of_further, list_elem_of_here.
  - apply list_elem_of_here.
Defined.


(** ** Branch lookup and the paths of a tree *)

(** X4: [bs[branch_id]] returns the first branch of the branch set that
    carries the id, so a later branch with the same id is never
    returned; it raises [KeyError] on the id exactly when no branch
    carries it. *)
Theorem getitem_first_match bs brid :
  match getitem bs brid with
  | Ok br =>
      ∃ pre post,
        bs_branches bs = pre ++ br :: post ∧
        br_branch_id br = brid ∧
        brid ∉ map br_branch_id pre
  | Raise e =>
      e = KeyError brid ∧ brid ∉ map br_branch_id (bs_branches bs)
  end.
Proof.
  unfold getitem. induction (bs_branches bs) as [|b brs IH]; simpl.
  - split; [done|]. apply not_elem_of_nil.
  - destruct (String.eqb_spec (br_branch_id b) brid) as [Heq|Hne].
    + exists [], brs. split; [done|]. split; [done|]. apply not_elem_of_nil.
    + destruct (find_branch brs brid) as [br|e].
      * destruct IH as (pre & post & -> & Hid & Hpre).
        exists (b :: pre), post. split; [done|]. split; [done|].
        simpl. intros [?|?]%elem_of_cons; [congruence|done].
      * destruct IH as [-> Hnot]. split; [done|].
        intros [?|?]%elem_of_cons; [congruence|done].
Qed.

Lemma getitem_member brs u fs c b :
  NoDup (map br_branch_id brs) →
  b ∈ brs →
  getitem (mkBranchSet brs u fs c) (br_branch_id b) = Ok b.
Proof.
  unfold getitem; simpl. induction brs as [|b' brs IH]; simpl.
  - intros _ []%elem_of_nil.
  - intros [Hnot Hnd]%NoDup_cons [->|Hin]%elem_of_cons.
    + by rewrite String.eqb_refl.
    + destruct (String.eqb_spec (br_branch_id b') (br_branch_id b))
        as [Heq|_]; [|by apply IH].
      exfalso. apply Hnot. rewrite Heq. apply list_elem_of_fmap.
      by exists b.
Qed.

Lemma unique_ids_unfold brs u fs c :
  unique_ids (mkBranchSet brs u fs c) =
  bool_decide (NoDup (map br_branch_id brs)) && children_unique brs.
Proof.
  simpl. f_equal.
  induction brs as [|[i j w v [child|]] brs IH]; simpl; [done|..];
    by rewrite IH.
Qed.

Lemma collapsed_nonempty_unfold brs u fs c :
  collapsed_nonempty (mkBranchSet brs u fs c) =
  negb (c && match brs with [] => true | _ => false end)
  && children_collapsed_nonempty brs.
Proof.
  simpl. f_equal.
  induction brs as [|[i j w v [child|]] brs IH]; simpl; [done|..];
    by rewrite IH.
Qed.

Lemma visit_walks bs prefix_path b b' child :
  getitem bs (br_branch_id b) = Ok b' →
  br_value b' = br_value b →
  br_bset b' = child →
  br_bset b = child →
  (∀ c, child = Some c → walks_back c) →
  match child with Some c => unique_ids c | None => true end = true →
  ∀ paths,
    visit prefix_path b child = Ok paths →
    Forall (λ p, ∃ suffix,
              path_branches p = path_branches prefix_path ++ suffix ∧
              walked_back bs suffix) paths.
Proof.
  intros Hget Hval Hbset' Hbset IH Huniq paths.
  destruct child as [c|]; simpl.
  - intros Hp.
    specialize (IH c eq_refl Huniq (PStep prefix_path b) paths Hp).
    eapply Forall_impl; [exact IH|].
    intros p (suffix & Hpath & Hne & Hwalk & Hlen & Hlast).
    exists (b :: suffix). split.
    { rewrite Hpath. simpl. by rewrite <- app_assoc. }
    split; [done|]. split.
    { cbn [map path_pairs]. rewrite get_bset_values_cons, Hget.
      cbn [rbind]. rewrite Hbset', Hbset, Hwalk. cbn [rbind].
      by rewrite Hval. }
    split.
    { cbn [path_pairs]. rewrite Hbset. simpl. by rewrite Hlen. }
    intros b0 Hl. apply Hlast. by destruct suffix.
  - intros [= <-]. constructor; [|constructor].
    exists [b]. split; [done|]. split; [done|]. split.
    { cbn [map path_pairs]. rewrite get_bset_values_cons, Hget.
      cbn [rbind]. rewrite Hbset', Hbset. by rewrite Hval. }
    split.
    { cbn [path_pairs]. by rewrite Hbset. }
    intros b0 [= <-]. exact Hbset.
Qed.

Lemma each_branch_walks bs prefix_path brs :
  (∀ b, b ∈ brs → getitem bs (br_branch_id b) = Ok b) →
  Forall (λ b, ∀ child, br_bset b = Some child → walks_back child) brs →
  children_unique brs = true →
  ∀ paths,
    each_branch prefix_path brs = Ok paths →
    Forall (λ p, ∃ suffix,
              path_branches p = path_branches prefix_path ++ suffix ∧
              walked_back bs suffix) paths.
Proof.
  intros Hget Hall. induction Hall as [|b brs Hb _ IH]; simpl.
  - intros _ paths [= <-]. constructor.
  - intros [Hc Hcs]%andb_true_iff paths.
    destruct (visit prefix_path b (br_bset b)) as [ps1|] eqn:H1; simpl;
      [|done].
    destruct (each_branch prefix_path brs) as [ps2|] eqn:H2; simpl; [|done].
    intros [= <-]. apply Forall_app. split.
    + eapply (visit_walks bs prefix_path b b (br_bset b)); eauto.
      apply Hget, list_elem_of_here.
    + apply IH; [|done..]. intros b0 Hin. by apply Hget, list_elem_of_further.
Qed.

Lemma _enumerate_paths_walks bs : walks_back bs.
Proof.
  induction bs as [brs u fs c IH] using BranchSet_tree_ind.
  unfold walks_back. rewrite unique_ids_unfold.
  intros [Hnd Hcs]%andb_true_iff prefix_path paths.
  apply bool_decide_eq_true in Hnd. rewrite _enumerate_paths_unfold.
  destruct c.
  - destruct brs as [|b brs]; [done|].
    apply Forall_cons in IH as [Hb _].
    simpl in Hcs. apply andb_true_iff in Hcs as [Hc _].
    apply (visit_walks _ prefix_path (with_weight b 1) b (br_bset b)).
    + assert (br_branch_id (with_weight b 1) = br_branch_id b) as ->
        by by destruct b.
      apply getitem_member; [done|apply list_elem_of_here].
    + by destruct b.
    + done.
    + by destruct b.
    + done.
    + done.
  - apply each_branch_walks; [|done..].
    intros b Hin. by apply getitem_member.
Qed.

(** X5: in a tree where no branch set holds two branches with the same
    id, every path yielded by [enumerate_paths] is a non-empty path from
    the root to a leaf, and [get_bset_values] walks the ids of its
    branches back to exactly the values of its branches, each paired
    with the branch set the branch was taken from.  This holds for
    collapsed branch sets too. *)
Theorem enumerate_paths_walked_back bs yielded :
  unique_ids bs = true →
  enumerate_paths bs = Ok yielded →
  Forall (λ wp,
            wp.2 ≠ [] ∧
            get_bset_values bs (map br_branch_id wp.2)
              = Ok (path_pairs bs wp.2) ∧
            map snd (path_pairs bs wp.2) = map br_value wp.2 ∧
            (∀ b, last wp.2 = Some b → br_bset b = None)) yielded.
Proof.
  intros Huniq. unfold enumerate_paths.
  destruct (_enumerate_paths bs PRoot) as [paths|] eqn:Hpaths; [|done].
  cbn [rbind]. intros [= <-].
  pose proof (_enumerate_paths_walks bs Huniq PRoot paths Hpaths) as Hall.
  apply Forall_fmap. eapply Forall_impl; [exact Hall|].
  intros p (suffix & Hpath & Hne & Hwalk & Hlen & Hlast). simpl in Hpath.
  unfold compose. cbv beta.
  destruct (yield_path_spec p) as [_ ->]. rewrite Hpath.
  split; [done|]. split; [done|]. split; [|done].
  clear -Hlen. revert bs Hlen.
  induction suffix as [|b suffix IH]; intros bs; [done|].
  cbn [path_pairs]. destruct (br_bset b) as [child|].
  - simpl. intros [= Hlen]. by rewrite IH.
  - destruct suffix; [done|]. simpl. discriminate.
Qed.

Lemma enumerate_paths_walked_back_witness :
  ∃ yielded,
    enumerate_paths root_bset = Ok yielded ∧
    length yielded = 3%nat ∧
    Forall (λ wp,
              wp.2 ≠ [] ∧
              get_bset_values root_bset (map br_branch_id wp.2)
                = Ok (path_pairs root_bset wp.2) ∧
              map snd (path_pairs root_bset wp.2) = map br_value wp.2 ∧
              (∀ b, last wp.2 = Some b → br_bset b = None)) yielded.
Proof.
  eexists. split; [reflexivity|]. split; [reflexivity|].
  apply enumerate_paths_walked_back; reflexivity.
Defined.

Lemma visit_safe prefix_path b child :
  (∀ c, child = Some c → enumerates_safely c) →
  ∀ e, visit prefix_path b child = Raise e →
       e = IndexError ∧
       match child with Some c => collapsed_nonempty c | None => true end
         = false.
Proof.
  intros IH e. destruct child as [c|]; simpl; [|done].
  apply (IH c eq_refl).
Qed.

Lemma each_branch_safe prefix_path brs :
  Forall (λ b, ∀ child, br_bset b = Some child → enumerates_safely child)
    brs →
  ∀ e, each_branch prefix_path brs = Raise e →
       e = IndexError ∧ children_collapsed_nonempty brs = false.
Proof.
  induction 1 as [|b brs Hb _ IH]; simpl; [done|]. intros e.
  destruct (visit prefix_path b (br_bset b)) as [ps1|e1] eqn:H1; simpl.
  - destruct (each_branch prefix_path brs) as [ps2|e2]; simpl; [done|].
    intros [= <-]. destruct (IH e2 eq_refl) as [-> ->].
    split; [done|]. apply andb_false_r.
  - intros [= <-]. destruct (visit_safe _ _ _ Hb e1 H1) as [-> ->]. done.
Qed.

Lemma _enumerate_paths_safe bs : enumerates_safely bs.
Proof.
  induction bs as [brs u fs c IH] using BranchSet_tree_ind.
  intros prefix_path e.
  rewrite _enumerate_paths_unfold, collapsed_nonempty_unfold.
  destruct c.
  - destruct brs as [|b brs]; [by intros [= <-]|].
    apply Forall_cons in IH as [Hb _]. intros He.
    destruct (visit_safe _ _ _ Hb e He) as [-> Hc].
    split; [done|]. simpl. by rewrite Hc.
  - intros He. by destruct (each_branch_safe prefix_path brs IH e He)
      as [-> ->].
Qed.

(** X6: the only exception [enumerate_paths] can raise is the
    [IndexError] of [self.branches[0]] on a collapsed branch set without
    branches; in a tree where every collapsed branch set owns a branch
    the paths are therefore always yielded. *)
Theorem enumerate_paths_only_index_error bs e :
  enumerate_paths bs = Raise e →
  e = IndexError ∧ collapsed_nonempty bs = false.
Proof.
  unfold enumerate_paths.
  destruct (_enumerate_paths bs PRoot) as [paths|e'] eqn:Hpaths; [done|].
  cbn [rbind]. intros [= <-]. by apply (_enumerate_paths_safe bs PRoot).
Qed.

Lemma enumerate_paths_only_index_error_witness :
  enumerate_paths (mkBranchSet [] "maxMagGRRelative" [] true)
    = Raise IndexError ∧
  collapsed_nonempty (mkBranchSet [] "maxMagGRRelative" [] true) = false.
Proof.
  split; [reflexivity|].
  apply (enumerate_paths_only_index_error _ IndexError). reflexivity.
Defined.


(** ** Sampling *)

Lemma dict_get_error d key e :
  dict_get d key = Raise e → e = KeyError key.
Proof.
  induction d as [|[k v] d IH]; simpl; [congruence|].
  by destruct (String.eqb k key).
Qed.

Lemma dict_get_missing d key :
  key ∉ d.*1 → dict_get d key = Raise (KeyError key).
Proof.
  induction d as [|[k v] d IH]; simpl; [done|].
  intros Hnot. destruct (String.eqb_spec k key) as [->|_].
  - exfalso. apply Hnot. apply list_elem_of_here.
  - apply IH. intros Hin. apply Hnot. by apply list_elem_of_further.
Qed.

Lemma collect_weights_error {A} (weight_of : A → Weight) objs acc e :
  collect_weights weight_of objs acc = Raise e → e = KeyError "weight".
Proof.
  revert acc. induction objs as [|o objs IH]; intros acc; simpl; [done|].
  destruct (weight_of o) as [w|d]; [apply IH|].
  destruct (dict_get d "weight") as [w|e'] eqn:Hd; simpl; [apply IH|].
  intros [= <-]. by apply dict_get_error in Hd.
Qed.

Lemma collect_weights_missing {A} (weight_of : A → Weight) objs acc obj d :
  obj ∈ objs →
  weight_of obj = WDict d →
  "weight" ∉ d.*1 →
  collect_weights weight_of objs acc = Raise (KeyError "weight").
Proof.
  intros Hin Hw Hd. revert acc.
  induction objs as [|o objs IH]; intros acc; [by apply elem_of_nil in Hin|].
  simpl. apply elem_of_cons in Hin as [<-|Hin].
  - by rewrite Hw, dict_get_missing.
  - destruct (weight_of o) as [w|d']; [by apply IH|].
    destruct (dict_get d' "weight") as [w|e] eqn:Hd'; simpl; [by apply IH|].
    by apply dict_get_error in Hd' as ->.
Qed.

(** X7: when the weight of one of the objects is a mapping without a
    ['weight'] entry, [sample] raises [KeyError] on ['weight'] before it
    seeds the generator: the state of [numpy.random] is left as it
    was. *)
Theorem sample_missing_weight {A} (np : NumpyRandom) (weight_of : A → Weight)
    (weighted_objects : list A) (num_samples : nat) (seed : Z) (g : rng np)
    (obj : A) (d : list (string * Q)) :
  obj ∈ weighted_objects →
  weight_of obj = WDict d →
  "weight" ∉ d.*1 →
  sample np weight_of weighted_objects num_samples seed g =
    (Raise (KeyError "weight"), g).
Proof.
  intros Hin Hw Hd. unfold sample.
  by rewrite (collect_weights_missing _ _ _ obj d Hin Hw Hd).
Qed.

Lemma sample_missing_weight_witness :
  sample counter_rng
    (λ o : string * Weight, o.2)
    [("a", WFloat 0.5); ("b", WDict [("w", 0.5%Q)])] 1 42 7%Z =
  (Raise (KeyError "weight"), 7%Z).
Proof.
  apply (sample_missing_weight counter_rng _ _ 1 42 7%Z
           ("b", WDict [("w", 0.5%Q)]) [("w", 0.5%Q)]).
  - apply list_elem_of_further, list_elem_of_here.
  - reflexivity.
  - simpl. intros H. apply elem_of_cons in H as [H|H]; [discriminate H|].
    by apply elem_of_nil in H.
Defined.

Lemma pick_same_length {A B} (la : list A) (lb : list B) idxs outA :
  length la = length lb →
  pick la idxs = Ok outA →
  ∃ outB, pick lb idxs = Ok outB.
Proof.
  intros Hlen. revert outA.
  induction idxs as [|i idxs IH]; intros outA; simpl; [by exists []|].
  destruct (la !! i) as [a|] eqn:Ha; [|done].
  destruct (pick la idxs) as [outA'|]; simpl; [|done]. intros _.
  destruct (IH outA' eq_refl) as [outB' ->].
  apply lookup_lt_Some in Ha. rewrite Hlen in Ha.
  destruct (lookup_lt_is_Some_2 lb i Ha) as [b ->]. simpl. by eexists.
Qed.

(** X8: the positions that [sample] draws depend on the weights and on
    the seed only.  Two sequences of objects with the same weights,
    sampled with the same seed, give the objects at the same positions,
    whatever the objects are and whatever the generator did before. *)
Theorem sample_same_positions {A B} (np : NumpyRandom)
    (weight_a : A → Weight) (weight_b : B → Weight)
    (objs_a : list A) (objs_b : list B) (num_samples : nat) (seed : Z)
    (ga gb ga' : rng np) (weights : list Q) (out_a : list A) :
  collect_weights weight_a objs_a [] = Ok weights →
  collect_weights weight_b objs_b [] = Ok weights →
  sample np weight_a objs_a num_samples seed ga = (Ok out_a, ga') →
  ∃ idxs out_b,
    sample np weight_b objs_b num_samples seed gb = (Ok out_b, ga') ∧
    pick objs_a idxs = Ok out_a ∧
    pick objs_b idxs = Ok out_b.
Proof.
  intros Ha Hb. unfold sample. rewrite Ha, Hb.
  destruct (np_seed np seed) as [g1|]; [|done].
  destruct (np_choice np (length weights) num_samples weights g1)
    as [[idxs|] g2]; [|done].
  intros [= Hpick <-].
  apply collect_weights_length in Ha, Hb. simpl in Ha, Hb.
  destruct (pick_same_length objs_a objs_b idxs out_a) as [out_b Hout];
    [congruence|done|].
  exists idxs, out_b. by rewrite Hout.
Qed.

Lemma sample_same_positions_witness :
  ∃ idxs out_b,
    sample counter_rng (λ b, WFloat (br_weight b)) [d1; d2] 3 43 1234%Z
      = (Ok out_b, 46%Z) ∧
    pick [t1; t2] idxs = Ok [t2; t1; t2] ∧
    pick [d1; d2] idxs = Ok out_b.
Proof.
  apply (sample_same_positions counter_rng (λ b, WFloat (br_weight b))
           (λ b, WFloat (br_weight b)) [t1; t2] [d1; d2] 3 43 7%Z 1234%Z
           46%Z [0.6; 0.4]%Q [t2; t1; t2]); reflexivity.
Defined.

Lemma collect_weights_map {A B} (f : A → B) (weight_of : B → Weight)
    objs acc :
  collect_weights weight_of (map f objs) acc =
  collect_weights (λ o, weight_of (f o)) objs acc.
Proof.
  revert acc. induction objs as [|o objs IH]; intros acc; simpl; [done|].
  destruct (weight_of (f o)) as [w|d]; [apply IH|].
  destruct (dict_get d "weight"); simpl; [apply IH|done].
Qed.

Lemma pick_map {A B} (f : A → B) objs idxs :
  pick (map f objs) idxs =
  match pick objs idxs with
  | Ok out => Ok (map f out)
  | Raise e => Raise e
  end.
Proof.
  induction idxs as [|i idxs IH]; simpl; [done|].
  rewrite list_lookup_fmap. destruct (objs !! i) as [o|]; simpl; [|done].
  rewrite IH. by destruct (pick objs idxs).
Qed.

Lemma sample_map {A B} (f : A → B) np (weight_of : B → Weight) objs n seed
    g :
  sample np weight_of (map f objs) n seed g =
  match sample np (λ o, weight_of (f o)) objs n seed g with
  | (Ok out, g') => (Ok (map f out), g')
  | (Raise e, g') => (Raise e, g')
  end.
Proof.
  unfold sample. rewrite collect_weights_map.
  destruct (collect_weights _ objs []) as [ws|]; [|done].
  destruct (np_seed np seed) as [g1|]; [|done].
  destruct (np_choice np (length ws) n ws g1) as [[idxs|] g2]; [|done].
  rewrite pick_map. by destruct (pick objs idxs).
Qed.

Lemma collect_weights_float brs acc :
  collect_weights (λ b, WFloat (br_weight b)) brs acc =
  Ok (acc ++ map br_weight brs).
Proof.
  revert acc. induction brs as [|b brs IH]; intros acc; simpl.
  - by rewrite app_nil_r.
  - by rewrite IH, <- app_assoc.
Qed.

Lemma sample_float np brs n seed g :
  sample np (λ b, WFloat (br_weight b)) brs n seed g =
  match np_seed np seed with
  | Raise e => (Raise e, g)
  | Ok g1 =>
      match np_choice np (length brs) n (map br_weight brs) g1 with
      | (Raise e, g2) => (Raise e, g2)
      | (Ok idxs, g2) => (pick brs idxs, g2)
      end
  end.
Proof.
  unfold sample. rewrite collect_weights_float. simpl.
  by rewrite length_map.
Qed.

Lemma BranchSet_sample_unfold np seed brs u fs c g :
  BranchSet_sample np seed (mkBranchSet brs u fs c) g =
  if c then
    match brs with
    | [] => (Raise IndexError, g)
    | b :: _ => sample_next b (sample_rest np seed b) g
    end
  else
    match sample np (λ b, WFloat (br_weight b)) brs 1 seed g with
    | (Ok [b], g') => sample_next b (sample_rest np seed b) g'
    | (Ok _, g') => (Raise ValueError, g')
    | (Raise e, g') => (Raise e, g')
    end.
Proof.
  cbn [BranchSet_sample].
  match goal with
  | |- context [sample np _ ?t 1 seed g] =>
      assert (t = map (λ b, (b, sample_rest np seed b)) brs) as ->
  end.
  { induction brs as [|[i j w v child] brs IH]; [done|].
    cbn [map]. by rewrite IH. }
  destruct c.
  - by destruct brs as [|b brs].
  - rewrite sample_map. cbn [fst].
    destruct (sample np _ brs 1 seed g) as [[out|] g']; [|done].
    by destruct out as [|b [|b' out]].
Qed.

Lemma pick_elem {A} (objs : list A) idxs out :
  pick objs idxs = Ok out → Forall (λ o, o ∈ objs) out.
Proof.
  revert out. induction idxs as [|i idxs IH]; intros out; simpl.
  - intros [= <-]. constructor.
  - destruct (objs !! i) as [o|] eqn:Ho; [|done].
    destruct (pick objs idxs) as [out'|]; simpl; [|done].
    intros [= <-]. constructor; [by eapply list_elem_of_lookup_2|by apply IH].
Qed.

Lemma pick_single {A} (objs : list A) idxs o :
  pick objs idxs = Ok [o] → ∃ i, idxs = [i] ∧ objs !! i = Some o.
Proof.
  destruct idxs as [|i idxs]; simpl; [done|].
  destruct (objs !! i) as [o'|] eqn:Ho; [|done].
  destruct (pick objs idxs) as [out'|] eqn:Hout; simpl; [|done].
  intros [= -> ->]. apply pick_length in Hout.
  destruct idxs; [|done]. by exists i.
Qed.

Lemma sample_next_chain np seed bs b g out g' :
  b ∈ bs_branches bs →
  (∀ c, br_bset b = Some c →
        ∀ g out g', BranchSet_sample np seed c g = (Ok out, g') →
                    is_chain c out) →
  sample_next b (sample_rest np seed b) g = (Ok out, g') →
  is_chain bs out.
Proof.
  intros Hin IH. unfold sample_next, sample_rest.
  destruct (br_bset b) as [c|] eqn:Hc.
  - destruct (BranchSet_sample np seed c g) as [[rest|] g1] eqn:Hrest;
      [|done].
    intros [= <- <-]. simpl. split; [done|]. rewrite Hc. by eapply IH.
  - intros [= <- <-]. simpl. split; [done|]. by rewrite Hc.
Qed.

Lemma BranchSet_sample_is_chain np seed bs :
  ∀ g out g', BranchSet_sample np seed bs g = (Ok out, g') → is_chain bs out.
Proof.
  induction bs as [brs u fs c IH] using BranchSet_tree_ind.
  intros g out g'. rewrite BranchSet_sample_unfold.
  rewrite Forall_forall in IH. destruct c.
  - destruct brs as [|b brs]; [done|].
    apply sample_next_chain; [apply list_elem_of_here|].
    apply IH, list_elem_of_here.
  - destruct (sample np _ brs 1 seed g) as [[sampled|] g1] eqn:Hs; [|done].
    destruct sampled as [|b [|b' sampled]]; [done| |done].
    rewrite sample_float in Hs.
    destruct (np_seed np seed) as [g0|]; [|done].
    destruct (np_choice np (length brs) 1 (map br_weight brs) g0)
      as [[idxs|] g2]; [|done].
    injection Hs as Hpick _. apply pick_elem in Hpick.
    apply Forall_cons in Hpick as [Hin _].
    apply sample_next_chain; [done|]. by apply IH.
Qed.

Lemma forallb_elem_of {A} (f : A → bool) l x :
  forallb f l = true → x ∈ l → f x = true.
Proof.
  induction l as [|y l IH]; simpl; [by intros _ []%elem_of_nil|].
  intros [Hy Hl]%andb_true_iff [->|Hin]%elem_of_cons; [done|by apply IH].
Qed.

Lemma is_chain_walked_back path :
  ∀ bs, unique_ids bs = true → is_chain bs path →
        get_bset_values bs (map br_branch_id path) = Ok (path_pairs bs path).
Proof.
  induction path as [|b rest IH]; intros [brs u fs c]; [done|].
  rewrite unique_ids_unfold.
  intros [Hnd Hcs]%andb_true_iff [Hin Hrest].
  apply bool_decide_eq_true in Hnd. simpl in Hin.
  cbn [map path_pairs]. rewrite get_bset_values_cons.
  rewrite (getitem_member brs u fs c b Hnd Hin). cbn [rbind].
  destruct (br_bset b) as [child|] eqn:Hchild; [|done].
  rewrite (IH child); [done| |done].
  pose proof (forallb_elem_of _ _ b Hcs Hin) as Hb. simpl in Hb.
  by rewrite Hchild in Hb.
Qed.

(** X9: whatever the generator draws, the branches returned by
    [BranchSet.sample] form a path from the root to a leaf: each is one
    of the branches of the branch set reached so far, with its own
    weight, and the next is taken from its [bset].  When no branch set
    holds two branches with the same id, [get_bset_values] walks the ids
    of the sampled branches back to their values. *)
Theorem BranchSet_sample_chain np seed bs g out g' :
  BranchSet_sample np seed bs g = (Ok out, g') →
  is_chain bs out ∧
  (unique_ids bs = true →
   get_bset_values bs (map br_branch_id out) = Ok (path_pairs bs out)).
Proof.
  intros Hs. apply BranchSet_sample_is_chain in Hs.
  split; [done|]. intros Hu. by apply is_chain_walked_back.
Qed.

Lemma BranchSet_sample_chain_witness :
  BranchSet_sample counter_rng 42 root_bset 7%Z = (Ok [b1; c1], 43%Z) ∧
  is_chain root_bset [b1; c1] ∧
  (unique_ids root_bset = true →
   get_bset_values root_bset (map br_branch_id [b1; c1])
     = Ok (path_pairs root_bset [b1; c1])).
Proof.
  split; [reflexivity|].
  apply (BranchSet_sample_chain counter_rng 42 root_bset 7%Z [b1; c1] 43%Z).
  reflexivity.
Defined.

(** X10: every level of the tree is sampled with the same seed.  When the
    branch set below the sampled branch has the same weights as the one
    above, the branch sampled below sits at the same position as the
    branch sampled above: the two draws are not independent. *)
Theorem BranchSet_sample_levels_agree np seed bs g b b' rest g' child :
  bs_collapsed bs = false →
  bs_collapsed child = false →
  br_bset b = Some child →
  map br_weight (bs_branches child) = map br_weight (bs_branches bs) →
  BranchSet_sample np seed bs g = (Ok (b :: b' :: rest), g') →
  ∃ i, bs_branches bs !! i = Some b ∧ bs_branches child !! i = Some b'.
Proof.
  destruct bs as [brs u fs c], child as [brs' u' fs' c'].
  cbn [bs_collapsed bs_branches].
  intros -> -> Hchild Hw. rewrite BranchSet_sample_unfold, sample_float.
  destruct (np_seed np seed) as [g0|] eqn:Hseed; [|done].
  destruct (np_choice np (length brs) 1 (map br_weight brs) g0)
    as [[idxs|] g1] eqn:Hch; [|done].
  destruct (pick brs idxs) as [[|b0 [|b0' sampled]]|] eqn:Hpick; [done| |done..].
  unfold sample_next at 1.
  destruct (sample_rest np seed b0 g1) as [[rest0|] g2] eqn:Hrest; [|done].
  intros [= -> -> <-].
  apply pick_single in Hpick as (i & -> & Hi). exists i. split; [done|].
  unfold sample_rest in Hrest. rewrite Hchild in Hrest.
  rewrite BranchSet_sample_unfold, sample_float, Hseed in Hrest.
  assert (length brs' = length brs) as Hlen.
  { by rewrite <- (length_map br_weight brs'), Hw, length_map. }
  rewrite Hlen, Hw, Hch in Hrest.
  simpl in Hrest. destruct (brs' !! i) as [b1'|]; [|done].
  simpl in Hrest. unfold sample_next in Hrest.
  destruct (sample_rest np seed b1' g1) as [[rest1|] g3]; [|done].
  by injection Hrest as -> _ _.
Qed.

Lemma BranchSet_sample_levels_agree_witness :
  BranchSet_sample counter_rng 43 twin_bset 7%Z = (Ok [t2; d2], 44%Z) ∧
  ∃ i, bs_branches twin_bset !! i = Some t2 ∧
       bs_branches twin_child !! i = Some d2.
Proof.
  split; [reflexivity|].
  apply (BranchSet_sample_levels_agree counter_rng 43 twin_bset 7%Z
           t2 d2 [] 44%Z twin_child); reflexivity.
Defined.

Lemma sample_next_returns np seed b g :
  (∀ c, br_bset b = Some c →
        ∀ g, ∃ out g', BranchSet_sample np seed c g = (Ok out, g')) →
  ∃ out g', sample_next b (sample_rest np seed b) g = (Ok out, g').
Proof.
  intros IH. unfold sample_next, sample_rest.
  destruct (br_bset b) as [c|].
  - destruct (IH c eq_refl g) as (out & g' & ->). by eexists _, _.
  - by eexists _, _.
Qed.

(** X11: under the contract of [numpy.random], [BranchSet.sample] returns
    a list of branches for every seed that is a 32-bit unsigned integer,
    provided every collapsed branch set of the tree owns a branch and the
    weights of every other branch set are a probability vector. *)
Theorem BranchSet_sample_returns np seed bs :
  NumpyContract np →
  (0 <= seed < 2 ^ 32)%Z →
  sampleable bs = true →
  ∀ g, ∃ out g', BranchSet_sample np seed bs g = (Ok out, g').
Proof.
  intros Hnp Hseed.
  induction bs as [brs u fs c IH] using BranchSet_tree_ind.
  assert (∀ b, b ∈ brs → children_sampleable brs = true →
               ∀ c, br_bset b = Some c →
               ∀ g, ∃ out g', BranchSet_sample np seed c g = (Ok out, g'))
    as Hnext.
  { intros b Hin Hcs child Hchild. rewrite Forall_forall in IH.
    apply (IH b Hin child Hchild).
    pose proof (forallb_elem_of _ _ b Hcs Hin) as Hb. simpl in Hb.
    by rewrite Hchild in Hb. }
  assert (sampleable (mkBranchSet brs u fs c) =
          (if c then match brs with [] => false | _ => true end
           else probabilities_b (map br_weight brs))
          && children_sampleable brs) as ->.
  { simpl. f_equal. clear.
    induction brs as [|[i j w v [child|]] brs IH]; simpl; [done|..];
      by rewrite IH. }
  intros [Hlevel Hcs]%andb_true_iff g. rewrite BranchSet_sample_unfold.
  destruct c.
  - destruct brs as [|b brs]; [done|].
    apply sample_next_returns. apply Hnext; [apply list_elem_of_here|done].
  - rewrite sample_float.
    destruct (seed_total np Hnp seed Hseed) as [g0 ->].
    apply probabilities_b_spec in Hlevel.
    destruct (choice_total np Hnp 1 (map br_weight brs) g0 Hlevel)
      as (idxs & g1 & Hch).
    rewrite length_map in Hch. rewrite Hch.
    destruct (choice_sized np Hnp _ _ _ _ _ _ Hch) as [Hlen Hidx].
    destruct idxs as [|i [|i' idxs]]; [done| |done].
    apply Forall_cons in Hidx as [Hi _].
    destruct (lookup_lt_is_Some_2 brs i Hi) as [b Hb].
    simpl. rewrite Hb. simpl.
    apply sample_next_returns. apply Hnext; [|done].
    by eapply list_elem_of_lookup_2.
Qed.

Lemma BranchSet_sample_returns_witness :
  ∃ out g', BranchSet_sample counter_rng 42 root_bset 7%Z = (Ok out, g').
Proof.
  apply (BranchSet_sample_returns counter_rng 42 root_bset
           counter_rng_contract); [lia|reflexivity].
Defined.

(** X12: the branches returned by [BranchSet.sample] depend on the seed
    and on the tree only: the state of the generator before the call
    plays no part, since every branch set that is sampled reseeds it, and
    a collapsed branch set does not draw at all. *)
Theorem BranchSet_sample_seed_only np seed bs g1 g2 :
  (BranchSet_sample np seed bs g1).1 = (BranchSet_sample np seed bs g2).1.
Proof.
  revert g1 g2. induction bs as [brs u fs c IH] using BranchSet_tree_ind.
  intros g1 g2. rewrite !BranchSet_sample_unfold. destruct c.
  - destruct brs as [|b brs]; [done|].
    apply Forall_cons in IH as [Hb _].
    unfold sample_next, sample_rest.
    destruct (br_bset b) as [child|]; [|done].
    specialize (Hb child eq_refl g1 g2).
    destruct (BranchSet_sample np seed child g1) as [[?|?] ?],
             (BranchSet_sample np seed child g2) as [[?|?] ?];
      simpl in *; congruence.
  - rewrite !sample_float.
    destruct (np_seed np seed) as [g0|]; [|done]. done.
Qed.


(** ** Applying one uncertainty *)

(** X13: the functions that unpack the value do so before they touch the
    source.  When the value does not unpack into the number of items
    they expect, [apply_uncertainty] raises the [TypeError] of a value
    that cannot be unpacked, or else [ValueError], and the store is left
    as it was, whatever [source] refers to. *)
Theorem apply_uncertainty_bad_shape utype n source value σ :
  registry_get unpacked_items utype = Some n →
  (∀ items, unpack value = Ok items → length items ≠ n) →
  apply_uncertainty utype source value σ =
    (Raise match unpack value with
           | Ok _ => ValueError
           | Raise e => e
           end, σ).
Proof.
  intros Hn Hbad. rewrite apply_uncertainty_effect.
  assert (∀ k, unpacked value n k =
               Raise match unpack value with
                     | Ok _ => ValueError
                     | Raise e => e
                     end) as Hun.
  { intros k. unfold unpacked.
    destruct (unpack value) as [items|e]; simpl; [|done].
    destruct (Nat.eqb_spec (length items) n) as [Heq|_]; [|done].
    by destruct (Hbad items eq_refl). }
  unfold unpacked_items in Hn. cbn [registry_get] in Hn.
  repeat match type of Hn with
         | context [String.eqb ?k utype] =>
             destruct (String.eqb_spec k utype) as [<-|_];
               [injection Hn as <-; cbv [uncertainty_effect String.eqb
                  Ascii.eqb Bool.eqb]; by rewrite Hun|]
         end.
  discriminate Hn.
Qed.

Lemma apply_uncertainty_bad_shape_witness :
  apply_uncertainty "abGRAbsolute" 0 (VSeq [VNum 4.5]) one_source_store =
    (Raise ValueError, one_source_store) ∧
  apply_uncertainty "abGRAbsolute" 0 (VNum 4.5) one_source_store =
    (Raise TypeError, one_source_store).
Proof.
  split.
  - apply (apply_uncertainty_bad_shape "abGRAbsolute" 2 0 (VSeq [VNum 4.5])
             one_source_store eq_refl).
    intros items [= <-]. simpl. lia.
  - apply (apply_uncertainty_bad_shape "abGRAbsolute" 2 0 (VNum 4.5)
             one_source_store eq_refl).
    intros items [=].
Defined.

Lemma uncertainty_effect_target utype value target md :
  uncertainty_effect utype value = Ok (target, md) →
  (target = OnMfd ↔ utype ∈ mfd_types).
Proof.
  unfold uncertainty_effect, unpacked, mfd_types.
  repeat match goal with
         | |- context [String.eqb ?k utype] =>
             destruct (String.eqb_spec k utype) as [<-|?]
         end;
    try (destruct (unpack value) as [items|]; simpl; [|done];
         destruct (length items =? _)%nat; [|done]);
    intros [= <- <-]; split;
    first
      [ done
      | solve [intros _;
               repeat first [apply list_elem_of_here
                            |apply list_elem_of_further]]
      | intros H; exfalso;
        repeat (apply elem_of_cons in H as [H|H]; [congruence|]);
        by apply elem_of_nil in H ].
Qed.

(** X14: when [apply_uncertainty] succeeds, exactly one object received
    one modification, and nothing else in the store changed.  For the
    types on the Gutenberg-Richter or incremental MFD it is the MFD
    object of the source, so every source that shares that MFD is
    affected and the source object itself is not; for the other types it
    is the source object, and no MFD is touched. *)
Theorem apply_uncertainty_footprint utype a value σ σ' :
  apply_uncertainty utype a value σ = (Ok tt, σ') →
  st_lists σ' = st_lists σ ∧ st_groups σ' = st_groups σ ∧
  ∃ s md,
    st_sources σ !! a = Some s ∧
    if bool_decide (utype ∈ mfd_types) then
      st_sources σ' = st_sources σ ∧
      ∃ m mobj,
        mfd s = Some m ∧ st_mfds σ !! m = Some mobj ∧
        st_mfds σ' = <[m := add_mfd_mod mobj md]> (st_mfds σ)
    else
      st_mfds σ' = st_mfds σ ∧
      st_sources σ' = <[a := add_mod s md]> (st_sources σ).
Proof.
  rewrite apply_uncertainty_effect.
  destruct (uncertainty_effect utype value) as [[target md]|] eqn:Heff;
    [|done].
  apply uncertainty_effect_target in Heff.
  destruct md as [name params]. destruct target; simpl.
  - rewrite bool_decide_eq_false_2 by (intros H; by apply Heff in H).
    unfold_ops. destruct (st_sources σ !! a) as [s|] eqn:Hs; [|done].
    intros [= <-]. simpl. split; [done|]. split; [done|].
    by exists s, (name, params).
  - rewrite bool_decide_eq_true_2 by by apply Heff.
    unfold_ops. destruct (st_sources σ !! a) as [s|] eqn:Hs; [|done].
    destruct (mfd s) as [m|] eqn:Hm; [|done].
    destruct (st_mfds σ !! m) as [mobj|] eqn:Hmobj; [|done].
    intros [= <-]. simpl. split; [done|]. split; [done|].
    exists s, (name, params). split; [done|]. split; [done|].
    by exists m, mobj.
Qed.

Lemma apply_uncertainty_footprint_witness :
  ∃ σ',
    apply_uncertainty "bGRRelative" 1 (VNum 0.1) two_source_store
      = (Ok tt, σ') ∧
    st_sources σ' = st_sources two_source_store ∧
    lookup_mfd σ' <$> st_sources σ' !! 0%nat =
      Some (Some (mkMfd [("increment_b", [("value", VNum 0.1)])])).
Proof.
  eexists. split; [reflexivity|].
  destruct (apply_uncertainty_footprint "bGRRelative" 1 (VNum 0.1)
              two_source_store _ eq_refl) as (_ & _ & s & md & _ & Hs).
  rewrite bool_decide_eq_true_2 in Hs.
  - destruct Hs as [Hs _]. split; [exact Hs|reflexivity].
  - apply list_elem_of_further, list_elem_of_here.
Defined.


(** ** Groups that no pair accepts, and sources that only plain pairs
    accept *)

Lemma apply_uncertainties_run pairs src_group σ g sources :
  st_groups σ !! src_group = Some g →
  st_lists σ !! sg_sources g = Some sources →
  apply_uncertainties pairs src_group σ =
  match each_source pairs (length (st_groups σ)) sources (start_store σ g) with
  | (Ok _, σ') => (Ok (length (st_groups σ)), σ')
  | (Raise e, σ') => (Raise e, σ')
  end.
Proof.
  intros Hg Hl. unfold apply_uncertainties.
  rewrite run_bind. unfold get_group at 1. rewrite Hg.
  rewrite run_bind. unfold new_group at 1.
  rewrite run_bind. unfold new_list at 1.
  rewrite run_bind. unfold set_group at 1.
  rewrite run_bind. unfold set_group at 1.
  cbn [st_sources st_mfds st_lists st_groups].
  rewrite run_bind. unfold get_list at 1. cbn [st_lists].
  rewrite (lookup_app_l_Some _ _ _ _ Hl).
  rewrite run_bind. fold (start_store σ g).
  by destruct (each_source pairs _ sources (start_store σ g)) as [[[]|e] σ'].
Qed.

Lemma each_source_shallow pairs sg sources :
  ∀ srcs σ g items,
    st_groups σ !! sg = Some g →
    st_lists σ !! sg_sources g = Some items →
    Forall2 (λ a s, st_sources σ !! a = Some s ∧
                    ∃ oks, filter_all pairs s = Ok oks ∧
                           sum_bools oks = 0%nat) sources srcs →
    each_source pairs sg sources σ =
      (Ok tt,
       mkStore (st_sources σ ++ srcs) (st_mfds σ)
         (<[sg_sources g :=
              items ++ seq (length (st_sources σ)) (length srcs)]>
            (st_lists σ))
         (st_groups σ)).
Proof.
  induction sources as [|a sources IH]; intros srcs σ g items Hg Hl Hall.
  - apply Forall2_nil_inv_l in Hall as ->. simpl.
    rewrite !app_nil_r, list_insert_id by done. by destruct σ.
  - apply Forall2_cons_inv_l in Hall
      as (s & srcs' & (Hs & oks & Hoks & Hsum) & Hall & ->).
    cbn [each_source]. rewrite run_bind.
    rewrite (apply_to_source_shallow pairs sg a σ s oks g items
               Hs Hoks Hsum Hg Hl).
    rewrite (IH srcs' _ g (items ++ [length (st_sources σ)])).
    + cbn [st_sources st_mfds st_lists st_groups].
      rewrite list_insert_insert_eq, <- !app_assoc, length_app.
      cbn [length app seq]. by rewrite Nat.add_1_r.
    + done.
    + cbn [st_lists]. apply list_lookup_insert_eq. by eapply lookup_lt_Some.
    + eapply Forall2_impl; [exact Hall|]. cbn [st_sources].
      intros a' s' [Hs' Hrej]. split; [|done].
      by apply lookup_app_l_Some.
Qed.

(** X15: when no pair accepts any source of the group, for instance when
    there are no pairs at all, [apply_uncertainties] returns a new group
    with the attributes of the input group, no change counted, and a new
    list that holds one shallow copy of each source, in the order of the
    input.  No MFD is created: the copies share the MFD objects of the
    input sources, and nothing else in the store changes. *)
Theorem apply_uncertainties_no_match pairs src_group σ g sources srcs :
  st_groups σ !! src_group = Some g →
  st_lists σ !! sg_sources g = Some sources →
  Forall2 (λ a s, st_sources σ !! a = Some s ∧
                  ∃ oks, filter_all pairs s = Ok oks ∧
                         sum_bools oks = 0%nat) sources srcs →
  apply_uncertainties pairs src_group σ =
    (Ok (length (st_groups σ)),
     mkStore (st_sources σ ++ srcs) (st_mfds σ)
       (st_lists σ ++ [seq (length (st_sources σ)) (length srcs)])
       (st_groups σ ++
          [mkSourceGroup (sg_attrs g) (length (st_lists σ)) 0])).
Proof.
  intros Hg Hl Hall.
  rewrite (apply_uncertainties_run pairs src_group σ g sources Hg Hl).
  rewrite (each_source_shallow pairs _ sources srcs (start_store σ g) _ []
             (start_store_group σ g) (start_store_list σ g) Hall).
  cbn [start_store st_sources st_mfds st_lists st_groups with_changes
       with_sources sg_sources sg_attrs app].
  by rewrite list_insert_insert_eq, !list_insert_snoc.
Qed.

Lemma apply_uncertainties_no_match_witness :
  apply_uncertainties [(absent_bset, VNum 0.1)] 0 two_source_store =
    (Ok 1%nat,
     mkStore
       (st_sources two_source_store ++ st_sources two_source_store)
       [mkMfd []] [[0; 1]; [2; 3]]%nat
       [mkSourceGroup [] 0 7; mkSourceGroup [] 1 0]).
Proof.
  apply (apply_uncertainties_no_match [(absent_bset, VNum 0.1)] 0
           two_source_store (mkSourceGroup [] 0 7) [0; 1]%nat
           (st_sources two_source_store) eq_refl eq_refl).
  constructor; [|constructor; [|constructor]].
  - split; [reflexivity|]. exists [false]. split; reflexivity.
  - split; [reflexivity|]. exists [false]. split; reflexivity.
Defined.

Lemma filter_all_length pairs s oks :
  filter_all pairs s = Ok oks → length oks = length pairs.
Proof.
  revert oks. induction pairs as [|[b v] pairs IH]; intros oks; simpl.
  - by intros [= <-].
  - destruct (filter_source b (Some s)) as [ok|]; simpl; [|done].
    destruct (filter_all pairs s) as [oks'|]; simpl; [|done].
    intros [= <-]. simpl. by rewrite (IH oks').
Qed.

Lemma applied_length (pairs : list (BranchSet * Value)) :
  ∀ oks, length oks = length pairs →
         length (applied (zip pairs oks)) = sum_bools oks.
Proof.
  induction pairs as [|[b v] pairs IH]; intros [|ok oks]; try done.
  intros [= Hlen].
  change (zip ((b, v) :: pairs) (ok :: oks))
    with ((b, v, ok) :: zip pairs oks).
  destruct ok.
  - change (applied ((b, v, true) :: zip pairs oks))
      with ((bs_uncertainty_type b, v) :: applied (zip pairs oks)).
    cbn [length sum_bools foldr]. f_equal. by apply IH.
  - change (applied ((b, v, false) :: zip pairs oks))
      with (applied (zip pairs oks)).
    cbn [sum_bools foldr]. by apply IH.
Qed.

Lemma apply_pairs_plain_start σ sg g rest sm copies c :
  st_groups σ !! sg = Some g →
  linked σ sm →
  plain_pairs (has_mfd sm.1) rest →
  applied rest ≠ [] →
  apply_pairs sg (length (st_sources σ)) rest []
    (work_store σ sg g sm copies c) =
    (Ok [length (st_sources σ)],
     work_store σ sg g (apply_values (applied rest) sm) copies
       (c + Z.of_nat (length (applied rest)))).
Proof.
  intros Hsg Hl Hplain. revert Hl Hplain.
  induction rest as [|[[bset value] ok] rest IH]; intros Hl Hplain Hne;
    [done|].
  apply Forall_cons in Hplain as [Hz Hplain]. destruct ok.
  - destruct (Hz eq_refl) as [Hcol Hcan]. simpl in Hcol, Hcan.
    cbn [apply_pairs]. rewrite Hcol. cbn [andb].
    rewrite run_bind, work_apply by done.
    rewrite run_bind, (work_add_changes σ sg g Hsg).
    rewrite (apply_pairs_plain σ sg g Hsg).
    + change (applied ((bset, value, true) :: rest))
        with ((bs_uncertainty_type bset, value) :: applied rest).
      unfold apply_values. cbn [foldl length fst snd].
      do 2 f_equal. lia.
    + by apply apply_value_linked.
    + by rewrite apply_value_has_mfd.
    + by left.
  - cbn [apply_pairs andb].
    change (applied ((bset, value, false) :: rest)) with (applied rest).
    by apply IH.
Qed.

(** X16: a source that at least one pair accepts, every accepting pair
    being a non-collapsed one whose value can be applied, gives exactly
    one output source: a new deep copy, with an MFD of its own, that
    keeps the scaling weight of the source and carries the values of the
    accepting pairs, applied in the order of the pairs.  The counter of
    changes grows by the number of accepting pairs. *)
Theorem apply_to_source_plain pairs sg a σ g items s oks :
  st_groups σ !! sg = Some g →
  st_lists σ !! sg_sources g = Some items →
  st_sources σ !! a = Some s →
  mfd_ok σ s →
  filter_all pairs s = Ok oks →
  sum_bools oks ≠ 0%nat →
  plain_pairs (has_mfd s) (zip pairs oks) →
  ∃ σ' out,
    apply_to_source pairs sg a σ = (Ok tt, σ') ∧
    st_lists σ' !! sg_sources g = Some (items ++ [length (st_sources σ)]) ∧
    length (st_sources σ') = S (length (st_sources σ)) ∧
    view σ' (length (st_sources σ)) = Some out ∧
    copy_of (s, lookup_mfd σ s) (scaling_rate s) (applied (zip pairs oks))
      out ∧
    (∀ m, mfd out.1 = Some m → (length (st_mfds σ) ≤ m)%nat) ∧
    st_groups σ' !! sg =
      Some (with_changes g (sg_changes g + Z.of_nat (sum_bools oks))).
Proof.
  intros Hg Hl Hs Hok Hoks Hsum Hplain.
  pose proof (applied_length pairs oks (filter_all_length _ _ _ Hoks))
    as Hlen.
  set (rest := applied (zip pairs oks)) in *.
  assert (rest ≠ []) as Hne.
  { intros Hnil. rewrite Hnil in Hlen. simpl in Hlen. lia. }
  assert (linked σ (apply_values rest (deep_copy σ s))) as Hlinked.
  { apply apply_values_linked. by apply deep_copy_linked. }
  exists (with_list
            (work_store σ sg g (apply_values rest (deep_copy σ s)) []
               (sg_changes g + Z.of_nat (length rest)))
            (sg_sources g) (items ++ [length (st_sources σ)])).
  exists (apply_values rest (deep_copy σ s)).
  split; [|split; [|split; [|split; [|split; [|split]]]]].
  - unfold apply_to_source.
    rewrite run_bind. unfold get_source at 1. rewrite Hs.
    rewrite run_bind. unfold lift at 1. rewrite Hoks.
    apply Nat.eqb_neq in Hsum. rewrite Hsum.
    cbn [negb]. rewrite run_bind, run_bind.
    rewrite (deepcopy_source_work σ sg g a s Hs Hok Hg).
    rewrite (apply_pairs_plain_start σ sg g (zip pairs oks)
               (deep_copy σ s) [] (sg_changes g) Hg).
    + erewrite (extend_sources_run sg _ _ (with_changes g _) items);
        [done|by apply work_group|done].
    + by apply deep_copy_linked.
    + by rewrite deep_copy_has_mfd.
    + exact Hne.
  - cbn [with_list st_lists]. apply list_lookup_insert_eq.
    by eapply lookup_lt_Some.
  - cbn [with_list work_store st_sources]. rewrite length_app. simpl. lia.
  - unfold view. cbn [with_list st_sources].
    rewrite (work_source σ sg g). simpl. f_equal.
    assert (lookup_mfd
              (with_list
                 (work_store σ sg g (apply_values rest (deep_copy σ s)) []
                    (sg_changes g + Z.of_nat (length rest)))
                 (sg_sources g) (items ++ [length (st_sources σ)]))
              (apply_values rest (deep_copy σ s)).1 =
            (apply_values rest (deep_copy σ s)).2) as ->.
    { by apply (work_lookup_mfd σ sg g). }
    by destruct (apply_values rest (deep_copy σ s)).
  - apply (copy_of_apply_values _ _ [] rest), copy_of_deep_copy.
  - intros m Hm. unfold linked in Hlinked. rewrite Hlinked in Hm.
    destruct (apply_values rest (deep_copy σ s)).2; simpl in Hm; [|done].
    injection Hm as <-. lia.
  - cbn [with_list st_groups]. rewrite work_group by done.
    by rewrite Hlen.
Qed.

Lemma apply_to_source_plain_witness :
  ∃ σ' out,
    apply_to_source [(absent_bset, VNum 0.1); (plain_bset, VNum 0.4)]
      0 0 one_source_store = (Ok tt, σ') ∧
    st_lists σ' !! 0%nat = Some [0; 1]%nat ∧
    length (st_sources σ') = 2%nat ∧
    view σ' 1 = Some out ∧
    mfd out.1 = Some 1%nat ∧
    (mfd_mods <$> out.2) =
      Some [("increment_max_mag", [("value", VNum 0.4)])] ∧
    (sg_changes <$> st_groups σ' !! 0%nat) = Some 8%Z.
Proof.
  destruct (apply_to_source_plain
              [(absent_bset, VNum 0.1); (plain_bset, VNum 0.4)]
              0 0 one_source_store (mkSourceGroup [] 0 7) [0%nat]
              (mkSource "s1" "Active Shallow Crust" PointSource "P" None []
                 (Some 0%nat))
              [false; true])
    as (σ' & out & Hrun & Hl & Hlen & Hv & Hc & Hm & Hch);
    try reflexivity.
  - intros _. by eexists.
  - simpl. lia.
  - repeat constructor; simpl; congruence.
  - pose proof Hrun as Hσ. vm_compute in Hσ. injection Hσ as Hσ.
    subst σ'.
    pose proof Hv as Hout. vm_compute in Hout. injection Hout as Hout.
    subst out.
    eexists _, _. split; [exact Hrun|]. split; [exact Hl|].
    split; [exact Hlen|]. split; [exact Hv|].
    split; [reflexivity|]. split; [reflexivity|]. reflexivity.
Defined.


(** ** Validation of a complex fault geometry *)

Lemma check_edges_spec edge_nodes :
  only_value_errors edge_nodes →
  ∀ acc, ∃ valid,
    check_edges edge_nodes acc = Ok (acc ++ valid) ∧
    (py_all valid = true ↔ Forall built edge_nodes).
Proof.
  induction 1 as [|b edge_nodes Hb _ IH]; intros acc.
  - exists []. by rewrite app_nil_r.
  - assert (∃ len, edge_length b = Ok len ∧
                   (negb (len =? 0)%nat = true ↔ built b))
      as (len & Hlen & Hbuilt).
    { destruct b as [[|n]|e]; simpl.
      - exists 0%nat. split; [done|]. split; [done|]. by intros [n [=]].
      - exists (S n). split; [done|]. split; [|done]. intros _. by exists n.
      - rewrite (Hb e eq_refl). exists 0%nat. split; [done|].
        split; [done|]. by intros [n [=]]. }
    cbn [check_edges]. rewrite Hlen. cbn [rbind].
    destruct (negb (len =? 0)%nat) eqn:Hpos.
    + destruct (IH (acc ++ [true])) as (valid & -> & Hvalid).
      exists (true :: valid). rewrite <- app_assoc. split; [done|].
      simpl. rewrite Hvalid. split.
      * intros Hall. constructor; [by apply Hbuilt|done].
      * by intros [_ Hall]%Forall_cons.
    + destruct (IH (acc ++ [false])) as (valid & -> & Hvalid).
      exists (false :: valid). rewrite <- app_assoc. split; [done|].
      simpl. split; [done|]. intros [Hbad _]%Forall_cons.
      apply Hbuilt in Hbad. done.
Qed.

(** X17: when building the edges raises nothing but [ValueError], the
    validation of a complex fault geometry returns exactly when the
    spacing is not zero and every edge was built with at least one
    point; otherwise it raises the [LogicTreeError] of the node.  A
    negative spacing is accepted, and so is a node that has no edge at
    all. *)
Theorem complex_validation utype node filename :
  only_value_errors (cnode_edges node) →
  (_validate_complex_fault_geometry utype node filename = Ok tt ↔
   ¬ (cnode_spacing node == 0)%Q ∧ Forall built (cnode_edges node)) ∧
  (∀ e, _validate_complex_fault_geometry utype node filename = Raise e →
        e = LogicTreeError (cnode_lineno node) filename
              "'complexFaultGeometry' node is not valid").
Proof.
  intros Hedges. unfold _validate_complex_fault_geometry.
  destruct (check_edges_spec _ Hedges []) as (valid & -> & Hvalid).
  cbn [rbind app]. rewrite <- Hvalid, <- truthy_iff.
  destruct (truthy (cnode_spacing node)), (py_all valid); simpl.
  - split; [done|]. intros e [=].
  - split; [|by intros e [= <-]]. split; [done|]. by intros [_ [=]].
  - split; [|by intros e [= <-]]. split; [done|]. by intros [[=] _].
  - split; [|by intros e [= <-]]. split; [done|]. by intros [[=] _].
Qed.

Lemma complex_validation_witness :
  _validate_complex_fault_geometry "complexFaultGeometryAbsolute"
    (mkComplexNode (Some 7%Z) (-2) []) "lt.xml" = Ok tt ∧
  _validate_complex_fault_geometry "complexFaultGeometryAbsolute"
    (mkComplexNode (Some 7%Z) 2 [BuiltLine 3; BuildFailed ValueError])
    "lt.xml" =
    Raise (LogicTreeError (Some 7%Z) "lt.xml"
             "'complexFaultGeometry' node is not valid").
Proof.
  split.
  - apply (complex_validation "complexFaultGeometryAbsolute"
             (mkComplexNode (Some 7%Z) (-2) []) "lt.xml").
    + constructor.
    + split; [|constructor]. simpl. intros H. discriminate H.
  - reflexivity.
Defined.


(** ** The ids of the enumerated paths *)

Lemma visit_apart prefix_path b child :
  (∀ c, child = Some c → walks_apart c) →
  match child with Some c => unique_ids c | None => true end = true →
  ∀ paths,
    visit prefix_path b child = Ok paths →
    ∃ suffixes,
      map path_branches paths =
        map (app (path_branches prefix_path)) suffixes ∧
      NoDup (map (map br_branch_id) suffixes) ∧
      Forall (λ s, ∃ t, s = b :: t) suffixes.
Proof.
  intros IH Huniq paths. destruct child as [c|]; simpl.
  - intros Hp.
    destruct (IH c eq_refl Huniq (PStep prefix_path b) paths Hp)
      as (suffixes & Hpaths & Hnd).
    exists (map (cons b) suffixes). split; [|split].
    + rewrite Hpaths, map_map. apply map_ext. intros s. simpl.
      by rewrite <- app_assoc.
    + rewrite map_map.
      assert (map (λ s, map br_branch_id (b :: s)) suffixes =
              map (cons (br_branch_id b)) (map (map br_branch_id) suffixes))
        as -> by by rewrite map_map.
      by apply (NoDup_fmap_2 (cons (br_branch_id b))).
    + apply Forall_forall. intros s (t & -> & _)%list_elem_of_fmap.
      by exists t.
  - intros [= <-]. exists [[b]]. split; [done|]. split.
    + apply NoDup_singleton.
    + constructor; [by exists []|constructor].
Qed.

Lemma each_branch_apart prefix_path brs :
  NoDup (map br_branch_id brs) →
  Forall (λ b, ∀ child, br_bset b = Some child → walks_apart child) brs →
  children_unique brs = true →
  ∀ paths,
    each_branch prefix_path brs = Ok paths →
    ∃ suffixes,
      map path_branches paths =
        map (app (path_branches prefix_path)) suffixes ∧
      NoDup (map (map br_branch_id) suffixes) ∧
      Forall (λ s, ∃ b t, s = b :: t ∧ b ∈ brs) suffixes.
Proof.
  intros Hnd Hall. induction Hall as [|b brs Hb _ IH]; simpl.
  - intros _ paths [= <-]. exists []. split; [done|].
    split; constructor.
  - intros [Hc Hcs]%andb_true_iff paths.
    simpl in Hnd. apply NoDup_cons in Hnd as [Hfresh Hnd].
    destruct (visit prefix_path b (br_bset b)) as [ps1|] eqn:H1; simpl;
      [|done].
    destruct (each_branch prefix_path brs) as [ps2|] eqn:H2; simpl; [|done].
    intros [= <-].
    destruct (visit_apart prefix_path b (br_bset b) Hb Hc ps1 H1)
      as (s1 & Hp1 & Hnd1 & Hhd1).
    destruct (IH Hnd Hcs ps2 eq_refl) as (s2 & Hp2 & Hnd2 & Hhd2).
    exists (s1 ++ s2). split; [|split].
    + by rewrite !map_app, Hp1, Hp2.
    + rewrite map_app. apply NoDup_app. split; [done|]. split; [|done].
      intros ids (x1 & -> & Hx1)%list_elem_of_fmap
                 (x2 & Heq & Hx2)%list_elem_of_fmap.
      rewrite Forall_forall in Hhd1, Hhd2.
      destruct (Hhd1 x1 Hx1) as (t1 & ->).
      destruct (Hhd2 x2 Hx2) as (b2 & t2 & -> & Hin).
      injection Heq as Hid _. apply Hfresh. rewrite Hid.
      apply list_elem_of_fmap. by exists b2.
    + apply Forall_app. split.
      * eapply Forall_impl; [exact Hhd1|]. intros s (t & ->).
        exists b, t. split; [done|apply list_elem_of_here].
      * eapply Forall_impl; [exact Hhd2|]. intros s (b2 & t & -> & Hin).
        exists b2, t. split; [done|by apply list_elem_of_further].
Qed.

Lemma _enumerate_paths_apart bs : walks_apart bs.
Proof.
  induction bs as [brs u fs c IH] using BranchSet_tree_ind.
  unfold walks_apart. rewrite unique_ids_unfold.
  intros [Hnd Hcs]%andb_true_iff prefix_path paths.
  apply bool_decide_eq_true in Hnd. rewrite _enumerate_paths_unfold.
  destruct c.
  - destruct brs as [|b brs]; [done|].
    apply Forall_cons in IH as [Hb _].
    simpl in Hcs. apply andb_true_iff in Hcs as [Hc _]. intros Hp.
    destruct (visit_apart prefix_path (with_weight b 1) (br_bset b) Hb Hc
                paths Hp) as (suffixes & Hpaths & Hnodup & _).
    by exists suffixes.
  - intros Hp.
    destruct (each_branch_apart prefix_path brs Hnd IH Hcs paths Hp)
      as (suffixes & Hpaths & Hnodup & _).
    by exists suffixes.
Qed.

(** X18: in a tree where no branch set holds two branches with the same
    id, the paths yielded by [enumerate_paths] have pairwise different
    lists of branch ids: a path is identified by the ids of its
    branches. *)
Theorem enumerate_paths_distinct_ids bs yielded :
  unique_ids bs = true →
  enumerate_paths bs = Ok yielded →
  NoDup (map (λ wp : Q * list Branch, map br_branch_id wp.2) yielded).
Proof.
  intros Huniq. unfold enumerate_paths.
  destruct (_enumerate_paths bs PRoot) as [paths|] eqn:Hpaths; [|done].
  cbn [rbind]. intros [= <-].
  destruct (_enumerate_paths_apart bs Huniq PRoot paths Hpaths)
    as (suffixes & Hsuff & Hnd).
  assert (map (λ wp : Q * list Branch, map br_branch_id wp.2)
            (map yield_path paths) =
          map (map br_branch_id) suffixes) as ->; [|done].
  rewrite map_map.
  assert (map (app (path_branches PRoot)) suffixes = suffixes) as Hid.
  { simpl. apply map_id. }
  rewrite Hid in Hsuff. rewrite <- Hsuff, map_map.
  apply map_ext. intros p. by destruct (yield_path_spec p) as [_ ->].
Qed.

Lemma enumerate_paths_distinct_ids_witness :
  ∃ yielded,
    enumerate_paths root_bset = Ok yielded ∧
    map (λ wp : Q * list Branch, map br_branch_id wp.2) yielded =
      [["b1"; "c1"]; ["b1"; "c2"]; ["b2"]] ∧
    NoDup (map (λ wp : Q * list Branch, map br_branch_id wp.2) yielded).
Proof.
  eexists. split; [reflexivity|]. split; [reflexivity|].
  apply (enumerate_paths_distinct_ids root_bset); reflexivity.
Defined.


(** ** A source accepted by two collapsed branch sets *)

Lemma fan_copies_length utype sm nm branches :
  length (fan_copies utype sm nm branches) = length branches.
Proof.
  revert nm. induction branches as [|br rest IH]; intros nm; simpl; [done|].
  by rewrite IH.
Qed.

Lemma branch_copy_rate utype sm nm br :
  scaling_rate (branch_copy utype sm nm br).1 = Some (br_weight br).
Proof.
  unfold branch_copy, apply_value.
  by destruct (uncertainty_effect utype (br_value br)) as [[[] md]|].
Qed.

Lemma fan_copies_rates utype sm nm branches :
  Forall2 (λ (c : Source * option Mfd) br,
             scaling_rate c.1 = Some (br_weight br))
    (fan_copies utype sm nm branches) branches.
Proof.
  revert nm. induction branches as [|br rest IH]; intros nm; simpl;
    constructor; [apply branch_copy_rate|apply IH].
Qed.

Lemma lookup_seq_suffix {A} (pre l : list A) :
  Forall2 (λ o x, (pre ++ l) !! o = Some x) (seq (length pre) (length l)) l.
Proof.
  revert pre. induction l as [|x l IH]; intros pre; simpl; constructor.
  - by apply list_lookup_middle.
  - specialize (IH (pre ++ [x])). rewrite length_app in IH. simpl in IH.
    rewrite Nat.add_1_r, <- app_assoc in IH. exact IH.
Qed.

Lemma apply_pairs_two_collapsed σ sg g z1 bset1 v1 z2 bset2 v2 z3 sm :
  st_groups σ !! sg = Some g →
  linked σ sm →
  applied z1 = [] → applied z2 = [] → applied z3 = [] →
  bs_collapsed bset1 = true →
  bs_collapsed bset2 = true →
  code_is_N sm.1 = false →
  Forall (λ br, can_apply (has_mfd sm.1) (bs_uncertainty_type bset1)
                  (br_value br) = true) (bs_branches bset1) →
  Forall (λ br, can_apply (has_mfd sm.1) (bs_uncertainty_type bset2)
                  (br_value br) = true) (bs_branches bset2) →
  apply_pairs sg (length (st_sources σ))
    (z1 ++ ((bset1, v1), true) :: z2 ++ ((bset2, v2), true) :: z3) []
    (work_store σ sg g sm [] (sg_changes g)) =
    (Ok (seq (length (st_sources σ) + 1)
           (length (bs_branches bset1) + length (bs_branches bset2))),
     work_store σ sg g sm
       (fan_copies (bs_uncertainty_type bset1) sm
          (length (st_mfds σ ++ option_list sm.2)) (bs_branches bset1) ++
        fan_copies (bs_uncertainty_type bset2) sm
          (length (st_mfds σ ++ option_list sm.2 ++
                   omap snd (fan_copies (bs_uncertainty_type bset1) sm
                               (length (st_mfds σ ++ option_list sm.2))
                               (bs_branches bset1))))
          (bs_branches bset2))
       (sg_changes g + Z.of_nat (length (bs_branches bset1))
        + Z.of_nat (length (bs_branches bset1)
                    + length (bs_branches bset2)))).
Proof.
  intros Hsg Hl H1 H2 H3 Hcol1 Hcol2 Hcode Hcan1 Hcan2.
  unfold code_is_N in Hcode.
  rewrite apply_pairs_app, apply_pairs_skip by done.
  cbn [apply_pairs]. rewrite Hcol1. cbn [andb].
  rewrite run_bind. unfold get_source at 1. rewrite work_source.
  rewrite Hcode.
  rewrite run_bind, work_fan_out by done.
  rewrite run_bind, (work_add_changes σ sg g Hsg).
  cbn [app length]. rewrite length_seq, Nat.add_0_r, app_nil_r.
  rewrite apply_pairs_app, apply_pairs_skip by done.
  cbn [apply_pairs]. rewrite Hcol2. cbn [andb].
  rewrite run_bind. unfold get_source at 1. rewrite work_source.
  rewrite Hcode.
  rewrite run_bind, work_fan_out by done.
  rewrite run_bind, (work_add_changes σ sg g Hsg).
  rewrite apply_pairs_skip by done.
  rewrite fan_copies_length, (length_app (seq _ _)), !length_seq.
  by rewrite <- seq_app.
Qed.

(** X19: when two collapsed branch sets accept the same source, the
    second fan-out copies the working copy again and appends to the
    same list: the source gives one output per branch of either branch
    set, the sum and not the product of the numbers of branches.  Each
    output carries the weight of its own branch alone as scaling weight.
    The counter of changes grows by the length of the list after each
    fan-out, so the outputs of the first are counted twice. *)
Theorem two_collapsed_pairs σ sg g items a s before bset1 v1 mid bset2 v2
    after :
  st_groups σ !! sg = Some g →
  st_lists σ !! sg_sources g = Some items →
  st_sources σ !! a = Some s →
  mfd_ok σ s →
  code_is_N s = false →
  filter_all (before ++ (bset1, v1) :: mid ++ (bset2, v2) :: after) s =
    Ok (replicate (length before) false ++
        true :: replicate (length mid) false ++
        true :: replicate (length after) false) →
  bs_collapsed bset1 = true →
  bs_collapsed bset2 = true →
  Forall (λ br, can_apply (has_mfd s) (bs_uncertainty_type bset1)
                  (br_value br) = true) (bs_branches bset1) →
  Forall (λ br, can_apply (has_mfd s) (bs_uncertainty_type bset2)
                  (br_value br) = true) (bs_branches bset2) →
  ∃ σ' outs,
    apply_to_source (before ++ (bset1, v1) :: mid ++ (bset2, v2) :: after)
      sg a σ = (Ok tt, σ') ∧
    st_lists σ' !! sg_sources g = Some (items ++ outs) ∧
    length outs =
      (length (bs_branches bset1) + length (bs_branches bset2))%nat ∧
    NoDup outs ∧
    Forall2 (λ o br, (length (st_sources σ) < o)%nat ∧
                     ∃ c, st_sources σ' !! o = Some c ∧
                          scaling_rate c = Some (br_weight br))
      outs (bs_branches bset1 ++ bs_branches bset2) ∧
    st_groups σ' !! sg =
      Some (with_changes g
              (sg_changes g
               + 2 * Z.of_nat (length (bs_branches bset1))
               + Z.of_nat (length (bs_branches bset2)))).
Proof.
  intros Hg Hl Hs Hok Hcode Hoks Hcol1 Hcol2 Hcan1 Hcan2.
  set (k1 := length (bs_branches bset1)).
  set (k2 := length (bs_branches bset2)).
  set (copies :=
         fan_copies (bs_uncertainty_type bset1) (deep_copy σ s)
           (length (st_mfds σ ++ option_list (deep_copy σ s).2))
           (bs_branches bset1) ++
         fan_copies (bs_uncertainty_type bset2) (deep_copy σ s)
           (length (st_mfds σ ++ option_list (deep_copy σ s).2 ++
                    omap snd
                      (fan_copies (bs_uncertainty_type bset1)
                         (deep_copy σ s)
                         (length (st_mfds σ ++
                                  option_list (deep_copy σ s).2))
                         (bs_branches bset1))))
           (bs_branches bset2)).
  pose proof (deep_copy_has_mfd σ s) as Hhas.
  exists (with_list
            (work_store σ sg g (deep_copy σ s) copies
               (sg_changes g + Z.of_nat k1 + Z.of_nat (k1 + k2)))
            (sg_sources g)
            (items ++ seq (length (st_sources σ) + 1) (k1 + k2))).
  exists (seq (length (st_sources σ) + 1) (k1 + k2)).
  split; [|split; [|split; [|split; [|split]]]].
  - unfold apply_to_source.
    rewrite run_bind. unfold get_source at 1. rewrite Hs.
    rewrite run_bind. unfold lift at 1. rewrite Hoks.
    assert ((sum_bools
               (replicate (length before) false ++
                true :: replicate (length mid) false ++
                true :: replicate (length after) false) =? 0)%nat = false)
      as ->.
    { apply Nat.eqb_neq. rewrite sum_bools_app. simpl. lia. }
    cbn [negb]. rewrite run_bind, run_bind.
    rewrite (deepcopy_source_work σ sg g a s Hs Hok Hg).
    rewrite zip_with_app by by rewrite length_replicate.
    cbn [zip_with].
    rewrite zip_with_app by by rewrite length_replicate.
    cbn [zip_with].
    rewrite (apply_pairs_two_collapsed σ sg g _ bset1 v1 _ bset2 v2 _
               (deep_copy σ s) Hg (deep_copy_linked σ s Hok)
               (applied_rejected before) (applied_rejected mid)
               (applied_rejected after) Hcol1 Hcol2).
    + erewrite (extend_sources_run sg _ _ (with_changes g _) items);
        [done|by apply work_group|done].
    + done.
    + by rewrite Hhas.
    + by rewrite Hhas.
  - cbn [with_list st_lists]. apply list_lookup_insert_eq.
    by eapply lookup_lt_Some.
  - apply length_seq.
  - apply NoDup_seq.
  - assert (length copies = (k1 + k2)%nat) as Hlen.
    { subst copies. by rewrite length_app, !fan_copies_length. }
    assert (Forall2 (λ (c : Source * option Mfd) br,
                       scaling_rate c.1 = Some (br_weight br))
              copies (bs_branches bset1 ++ bs_branches bset2)) as Hrates.
    { subst copies. apply Forall2_app; apply fan_copies_rates. }
    pose proof (lookup_seq_suffix (st_sources σ ++ [(deep_copy σ s).1])
                  copies.*1) as Hlook.
    rewrite length_app, length_fmap, Hlen in Hlook. cbn [length] in Hlook.
    rewrite <- app_assoc in Hlook. cbn [app] in Hlook.
    apply Forall2_fmap_r in Hlook.
    cbn [with_list work_store st_sources].
    assert (Forall (λ o, (length (st_sources σ) < o)%nat)
              (seq (length (st_sources σ) + 1) (k1 + k2))) as Hnew.
    { apply Forall_forall. intros o Ho. apply elem_of_seq in Ho. lia. }
    revert Hlook Hrates Hnew.
    generalize (st_sources σ ++ (deep_copy σ s).1 :: copies.*1).
    generalize (seq (length (st_sources σ) + 1) (k1 + k2)).
    generalize (bs_branches bset1 ++ bs_branches bset2).
    generalize copies. clear.
    intros cs brs outs all Hlook. revert brs.
    induction Hlook as [|o c outs cs Ho _ IH]; intros brs Hrates Hnew.
    + apply Forall2_nil_inv_l in Hrates as ->. constructor.
    + apply Forall2_cons_inv_l in Hrates as (br & brs' & Hr & Hrates & ->).
      apply Forall_cons in Hnew as [Hlt Hnew].
      constructor; [|by apply IH].
      split; [exact Hlt|]. exists c.1. split; [exact Ho|exact Hr].
  - cbn [with_list st_groups]. rewrite work_group by done.
    do 2 f_equal. lia.
Qed.

Lemma two_collapsed_pairs_witness :
  ∃ σ' outs,
    apply_to_source [(fan_bset, VNum 0); (fan_bset2, VNum 0)] 0 0
      one_source_store = (Ok tt, σ') ∧
    st_lists σ' !! 0%nat = Some ([0%nat] ++ outs) ∧
    length outs = 5%nat ∧
    (sg_changes <$> st_groups σ' !! 0%nat) = Some 14%Z.
Proof.
  destruct (two_collapsed_pairs one_source_store 0 (mkSourceGroup [] 0 7)
              [0%nat] 0
              (mkSource "s1" "Active Shallow Crust" PointSource "P" None []
                 (Some 0%nat))
              [] fan_bset (VNum 0) [] fan_bset2 (VNum 0) [])
    as (σ' & outs & Hrun & Hl & Hlen & _ & _ & Hch);
    try reflexivity.
  - intros _. by eexists.
  - repeat constructor.
  - repeat constructor.
  - exists σ', outs. split; [exact Hrun|]. split; [exact Hl|].
    split; [exact Hlen|]. rewrite Hch. reflexivity.
Defined.


(** ** Sampled paths and enumerated paths *)

Lemma sample_next_enumerated np seed prefix_path b b' g out g' ps :
  branch_key b' = branch_key b →
  (∀ c, br_bset b = Some c → sampled_is_enumerated np seed c) →
  sample_next b (sample_rest np seed b) g = (Ok out, g') →
  visit prefix_path b' (br_bset b) = Ok ps →
  ∃ p, p ∈ ps ∧
       map branch_key (path_branches p) =
         map branch_key (path_branches prefix_path) ++ map branch_key out.
Proof.
  intros Hkey IH. unfold sample_next, sample_rest.
  destruct (br_bset b) as [c|]; simpl.
  - destruct (BranchSet_sample np seed c g) as [[rest|] g1] eqn:Hrest;
      [|done].
    intros [= <- <-] Hps.
    destruct (IH c eq_refl g rest g1 (PStep prefix_path b') ps Hrest Hps)
      as (p & Hin & Hp).
    exists p. split; [done|]. rewrite Hp. cbn [path_branches].
    rewrite map_app, <- app_assoc. cbn [map app]. by rewrite Hkey.
  - intros [= <- <-] [= <-]. exists (PStep prefix_path b').
    split; [apply list_elem_of_here|]. cbn [path_branches].
    rewrite map_app. cbn [map]. by rewrite Hkey.
Qed.

Lemma each_branch_member prefix_path brs paths b :
  each_branch prefix_path brs = Ok paths →
  b ∈ brs →
  ∃ ps, visit prefix_path b (br_bset b) = Ok ps ∧ ∀ p, p ∈ ps → p ∈ paths.
Proof.
  revert paths. induction brs as [|b0 brs IH]; intros paths; simpl.
  - by intros _ ?%elem_of_nil.
  - destruct (visit prefix_path b0 (br_bset b0)) as [ps1|] eqn:H1; simpl;
      [|done].
    destruct (each_branch prefix_path brs) as [ps2|]; simpl; [|done].
    intros [= <-] [->|Hin]%elem_of_cons.
    + exists ps1. split; [done|]. intros p Hp.
      apply elem_of_app. by left.
    + destruct (IH ps2 eq_refl Hin) as (ps & Hv & Hsub).
      exists ps. split; [done|]. intros p Hp.
      apply elem_of_app. right. by apply Hsub.
Qed.

Lemma BranchSet_sample_in_paths np seed bs : sampled_is_enumerated np seed bs.
Proof.
  induction bs as [brs u fs c IH] using BranchSet_tree_ind.
  intros g out g' prefix_path paths.
  rewrite BranchSet_sample_unfold, _enumerate_paths_unfold.
  rewrite Forall_forall in IH. destruct c.
  - destruct brs as [|b brs]; [done|].
    apply sample_next_enumerated; [by destruct b|].
    apply IH, list_elem_of_here.
  - destruct (sample np _ brs 1 seed g) as [[sampled|] g1] eqn:Hs; [|done].
    destruct sampled as [|b [|b' sampled]]; [done| |done].
    rewrite sample_float in Hs.
    destruct (np_seed np seed) as [g0|]; [|done].
    destruct (np_choice np (length brs) 1 (map br_weight brs) g0)
      as [[idxs|] g2]; [|done].
    injection Hs as Hpick _. apply pick_elem in Hpick.
    apply Forall_cons in Hpick as [Hin _].
    intros Hnext Hpaths.
    destruct (each_branch_member prefix_path brs paths b Hpaths Hin)
      as (ps & Hvisit & Hsub).
    destruct (sample_next_enumerated np seed prefix_path b b g1 out g' ps
                eq_refl (IH b Hin) Hnext Hvisit) as (p & Hp & Hkeys).
    exists p. split; [by apply Hsub|done].
Qed.

(** X20: whatever the generator draws, the path that [BranchSet.sample]
    returns is one of the paths that [enumerate_paths] yields for the
    same tree: some yielded path has the same branch ids and the same
    values, in the same order. *)
Theorem BranchSet_sample_enumerated np seed bs g out g' yielded :
  BranchSet_sample np seed bs g = (Ok out, g') →
  enumerate_paths bs = Ok yielded →
  ∃ wp, wp ∈ yielded ∧ map branch_key wp.2 = map branch_key out.
Proof.
  intros Hs. unfold enumerate_paths.
  destruct (_enumerate_paths bs PRoot) as [paths|] eqn:Hpaths; [|done].
  cbn [rbind]. intros [= <-].
  destruct (BranchSet_sample_in_paths np seed bs g out g' PRoot paths
              Hs Hpaths) as (p & Hin & Hkeys).
  exists (yield_path p). split.
  - apply list_elem_of_fmap. by exists p.
  - destruct (yield_path_spec p) as [_ ->]. exact Hkeys.
Qed.

Lemma BranchSet_sample_enumerated_witness :
  ∃ yielded wp,
    enumerate_paths collapsed_root = Ok yielded ∧
    wp ∈ yielded ∧
    map branch_key wp.2 = map branch_key [b1; c2].
Proof.
  eexists.
  destruct (BranchSet_sample_enumerated counter_rng 43 collapsed_root 7%Z
              [b1; c2] 44%Z _ eq_refl eq_refl) as (wp & Hin & Hkeys).
  exists wp. split; [reflexivity|]. split; [exact Hin|exact Hkeys].
Defined.


(** ** Filters without a source, and the order of the filters *)

Lemma check_filter_absent key value :
  check_filter key value None = Ok true ↔ key = "applyToSources".
Proof.
  unfold check_filter.
  destruct (String.eqb_spec key "applyToTectonicRegionType") as [->|_];
    [done|].
  destruct (String.eqb_spec key "applyToSourceType") as [->|_].
  { split; [|done]. simpl.
    repeat match goal with
           | |- context [is_str value ?s] => destruct (is_str value s)
           end; done. }
  destruct (String.eqb_spec key "applyToSources") as [->|Hne]; [done|].
  split; [done|]. intros ->. done.
Qed.

(** X21: when no source is under evaluation, [filter_source] returns
    [True] exactly when [applyToSources] is the only key of the filters:
    a source type filter rejects the absent source, and a tectonic
    region filter raises on it. *)
Theorem filter_source_absent bs :
  filter_source bs None = Ok true ↔
  Forall (λ kv, kv.1 = "applyToSources") (bs_filters bs).
Proof.
  unfold filter_source. rewrite filter_items_true.
  split; intros H; (eapply Forall_impl; [exact H|]); intros [k v]; simpl;
    apply check_filter_absent.
Qed.

(** X22: whether [filter_source] accepts a source does not depend on the
    order in which the filters are visited; the order only decides
    which rejection or which exception is met first. *)
Theorem filter_source_order bs1 bs2 source :
  bs_filters bs1 ≡ₚ bs_filters bs2 →
  (filter_source bs1 source = Ok true ↔ filter_source bs2 source = Ok true).
Proof.
  intros Hperm. unfold filter_source. rewrite !filter_items_true.
  rewrite !Forall_forall.
  split; intros H kv Hkv; apply H.
  - by rewrite Hperm.
  - by rewrite <- Hperm.
Qed.

Lemma filter_source_order_witness :
  (filter_source
     (mkBranchSet [] "bGRRelative"
        [("applyToSourceType", FStr "volcano");
         ("applyToSources", FIds ["s9"])] false)
     (Some (point_source "s1" "Active Shallow Crust")) = Ok true ↔
   filter_source
     (mkBranchSet [] "bGRRelative"
        [("applyToSources", FIds ["s9"]);
         ("applyToSourceType", FStr "volcano")] false)
     (Some (point_source "s1" "Active Shallow Crust")) = Ok true) ∧
  filter_source
    (mkBranchSet [] "bGRRelative"
       [("applyToSourceType", FStr "volcano");
        ("applyToSources", FIds ["s9"])] false)
    (Some (point_source "s1" "Active Shallow Crust")) =
    Raise (AssertionError "unknown source type 'volcano'") ∧
  filter_source
    (mkBranchSet [] "bGRRelative"
       [("applyToSources", FIds ["s9"]);
        ("applyToSourceType", FStr "volcano")] false)
    (Some (point_source "s1" "Active Shallow Crust")) = Ok false.
Proof.
  split; [|split; reflexivity].
  apply (filter_source_order
           (mkBranchSet [] "bGRRelative"
              [("applyToSourceType", FStr "volcano");
               ("applyToSources", FIds ["s9"])] false)
           (mkBranchSet [] "bGRRelative"
              [("applyToSources", FIds ["s9"]);
               ("applyToSourceType", FStr "volcano")] false)).
  apply Permutation_swap.
Defined.
